(** * exifserve: the tag streamer of [handler/exiftool.go] and its handler

    A shallow embedding of the XML-to-JSON streamer ([search], [stream],
    [streamTags], [emitTag], [StreamTags]) and of the HTTP handler
    ([Handler], [GetTags], [Listx], [Start], [Close]), together with the
    parts of [encoding/xml], [encoding/json], [errors], [fmt], [net/http],
    [context] and [os/exec] they call, and the properties of the streamed
    document and of the response. *)

From Stdlib Require Import String Ascii List Bool Arith NArith Lia.
From stdpp Require Import base option list strings gmap sorting.
Import ListNotations.
Local Open Scope string_scope.
Local Open Scope list_scope.

(** The double quote, as a string. *)
Definition dquote : string := String "034"%char EmptyString.

(** ** Errors: [io.EOF], [errors.New], [fmt.Errorf] and [errors.Is] *)

(** A Go [error] value.  [io_EOF] is the sentinel [io.EOF]; [errorString]
    is an error that only carries its text ([errors.New], [fmt.Errorf]
    without [%w], [xml.SyntaxError], a failed read or write);
    [wrapError msg err] is what [fmt.Errorf] builds for a [%w] verb: the
    formatted text and the wrapped error that [Unwrap] returns. *)
Inductive error : Type :=
| io_EOF
| errorString (s : string)
| wrapError (msg : string) (err : error).

(** [err.Error()] *)
Definition Error (e : error) : string :=
  match e with
  | io_EOF => "EOF"
  | errorString s => s
  | wrapError msg _ => msg
  end.

(** [fmt.Errorf(op + ": %w", err)] *)
Definition Errorf_w (op : string) (err : error) : error :=
  wrapError (op +:+ ": " +:+ Error err) err.

(** [fmt.Errorf(op + ": %v", err)]: the text only, nothing to unwrap. *)
Definition Errorf_v (op : string) (err : error) : error :=
  errorString (op +:+ ": " +:+ Error err).

(** [errors.Is(err, io.EOF)]: follow the [Unwrap] chain. *)
Fixpoint errors_Is_EOF (err : error) : bool :=
  match err with
  | io_EOF => true
  | errorString _ => false
  | wrapError _ err' => errors_Is_EOF err'
  end.

(** ** Results and computations *)

(** What a call yields: a value, an error, or (for a loop run on a bounded
    number of iterations) exhaustion of that bound. *)
Inductive result (A : Type) : Type :=
| Ok (a : A)
| Err (e : error)
| OutOfFuel.
Arguments Ok {A} a.
Arguments Err {A} e.
Arguments OutOfFuel {A}.

(** A computation over a state [St]: the state is threaded through and is
    kept when the computation fails, as the Go code leaves the decoder and
    the writer where they were when it returns an error. *)
Definition M (St A : Type) : Type := St -> result A * St.

Definition ret {St A} (a : A) : M St A := fun s => (Ok a, s).

Definition fail {St A} (e : error) : M St A := fun s => (Err e, s).

Definition bind {St A B} (m : M St A) (k : A -> M St B) : M St B :=
  fun s =>
    match m s with
    | (Ok a, s') => k a s'
    | (Err e, s') => (Err e, s')
    | (OutOfFuel, s') => (OutOfFuel, s')
    end.

Declare Scope go_scope.
Delimit Scope go_scope with go.
Notation "'do' x <- m ;; k" := (bind m (fun x => k))
  (at level 10, x name, m at level 99, k at level 200) : go_scope.
Notation "'do' '_' <- m ;; k" := (bind m (fun _ => k))
  (at level 10, m at level 99, k at level 200) : go_scope.
Local Open Scope go_scope.

(** [x, err := f(); if err != nil { return fmt.Errorf(op + ": %w", err) }] *)
Definition wrap_w {St A} (op : string) (m : M St A) : M St A :=
  fun s =>
    match m s with
    | (Err e, s') => (Err (Errorf_w op e), s')
    | r => r
    end.

(** The same with [%v]. *)
Definition wrap_v {St A} (op : string) (m : M St A) : M St A :=
  fun s =>
    match m s with
    | (Err e, s') => (Err (Errorf_v op e), s')
    | r => r
    end.

(** [for { body }]: the body either goes round again with the loop's
    local variables ([inl]) or returns ([inr]); [fuel] bounds the number
    of iterations. *)
Fixpoint loop {St A B} (body : A -> M St (A + B)) (fuel : nat) (a : A)
  : M St B :=
  match fuel with
  | 0 => fun s => (OutOfFuel, s)
  | S fuel' =>
      do r <- body a ;;
      match r with
      | inl a' => loop body fuel' a'
      | inr b => ret b
      end
  end.

(** The loop run with one more iteration than the measure [mu] of the
    state it starts in; enough whenever every iteration that goes round
    again has lowered [mu]. *)
Definition forever {St A B} (mu : St -> nat) (body : A -> M St (A + B))
  (a : A) : M St B :=
  fun s => loop body (S (mu s)) a s.

(** ** [encoding/xml]: tokens and the decoder *)

Module xml.

(** [xml.Attr]; of an [xml.Name] the program only ever reads [Local]. *)
Record Attr := { AName : string; AValue : string }.

Record StartElement := { Name : string; Attrs : list Attr }.

Record EndElement := { EName : string }.

(** [xml.Token]: an element opening, an element closing, character data,
    or one of [Comment], [ProcInst], [Directive]. *)
Inductive Token : Type :=
| TStart (se : StartElement)
| TEnd (ee : EndElement)
| TCharData (data : string)
| TOther.

(** The decoder over the subprocess's output: the tokens the raw scanner
    will still deliver, the error the underlying reader gives after them
    ([io.EOF] for a clean end), and the stack of open elements. *)
Record Decoder := {
  input : list Token;
  rawErr : error;
  stk : list string
}.

(** The measure of every loop over the decoder. *)
Definition remaining (d : Decoder) : nat := length (input d).

(** [xml.SyntaxError] (its line number is not modelled). *)
Definition syntaxError (msg : string) : error :=
  errorString ("XML syntax error: " +:+ msg).

(** [popElement] failing: the error is recorded in the decoder, and
    every later call returns it. *)
Definition broken (d : Decoder) (msg : string) : result Token * Decoder :=
  (Err (syntaxError msg),
   {| input := []; rawErr := syntaxError msg; stk := stk d |}).

(** [Decoder.Token]: the next raw token, with the nesting check of
    [pushElement]/[popElement]; an [io.EOF] of the reader while an
    element is open is a syntax error. *)
Definition Decoder_Token : M Decoder Token := fun d =>
  match input d with
  | [] =>
      match rawErr d, stk d with
      | io_EOF, _ :: _ => (Err (syntaxError "unexpected EOF"), d)
      | e, _ => (Err e, d)
      end
  | TStart se :: rest =>
      (Ok (TStart se),
       {| input := rest; rawErr := rawErr d; stk := Name se :: stk d |})
  | TEnd ee :: rest =>
      match stk d with
      | [] => broken d ("unexpected end element </" +:+ EName ee +:+ ">")
      | top :: stk' =>
          if String.eqb top (EName ee)
          then (Ok (TEnd ee),
                {| input := rest; rawErr := rawErr d; stk := stk' |})
          else broken d ("element <" +:+ top +:+ "> closed by </"
                         +:+ EName ee +:+ ">")
      end
  | tok :: rest =>
      (Ok tok, {| input := rest; rawErr := rawErr d; stk := stk d |})
  end.

(** [Decoder.Skip]: read up to the end element that closes the open
    one.  The Go function calls itself at every nested start element;
    [depth] counts the calls that are open. *)
Definition Skip_body (depth : nat) : M Decoder (nat + unit) :=
  do tok <- Decoder_Token ;;
  match tok with
  | TStart _ => ret (inl (S depth))
  | TEnd _ =>
      match depth with
      | 0 => ret (inr tt)
      | S depth' => ret (inl depth')
      end
  | _ => ret (inl depth)
  end.

Definition Decoder_Skip : M Decoder unit := forever remaining Skip_body 0.

(** [unmarshal] of an element into a value that saves character data (a
    [string], or the [,chardata] field of a struct without element
    fields): nested elements are skipped, the text directly inside is
    concatenated. *)
Definition chardata_body (data : string) : M Decoder (string + string) :=
  do tok <- Decoder_Token ;;
  match tok with
  | TStart _ => do _ <- Decoder_Skip ;; ret (inl data)
  | TEnd _ => ret (inr data)
  | TCharData t => ret (inl (data +:+ t))
  | TOther => ret (inl data)
  end.

Definition unmarshal_chardata : M Decoder string :=
  forever remaining chardata_body "".

End xml.

(** ** The record built by [emitTag] *)

(** The local type [xmlDesc] of [emitTag]. *)
Record xmlDesc := { Lang : string; Value : string }.

(** The local variable [tag] of [emitTag].  [JSONDescription] is a Go map:
    [None] is the nil map the variable starts with, [Some m] a map made by
    [make]. *)
Record tag := {
  Name : string;
  Writable : bool;
  Path : string;
  Group : string;
  Description : list xmlDesc;
  JSONDescription : option (gmap string string);
  Type_ : string
}.

(** [var tag struct {...}]: every field at its zero value. *)
Definition tag_zero : tag :=
  {| Name := ""; Writable := false; Path := ""; Group := "";
     Description := []; JSONDescription := None; Type_ := "" |}.

Definition set_Name (x : string) (t : tag) : tag :=
  {| Name := x; Writable := Writable t; Path := Path t; Group := Group t;
     Description := Description t; JSONDescription := JSONDescription t;
     Type_ := Type_ t |}.

Definition set_Writable (x : bool) (t : tag) : tag :=
  {| Name := Name t; Writable := x; Path := Path t; Group := Group t;
     Description := Description t; JSONDescription := JSONDescription t;
     Type_ := Type_ t |}.

Definition set_Path (x : string) (t : tag) : tag :=
  {| Name := Name t; Writable := Writable t; Path := x; Group := Group t;
     Description := Description t; JSONDescription := JSONDescription t;
     Type_ := Type_ t |}.

Definition set_Group (x : string) (t : tag) : tag :=
  {| Name := Name t; Writable := Writable t; Path := Path t; Group := x;
     Description := Description t; JSONDescription := JSONDescription t;
     Type_ := Type_ t |}.

Definition set_Description (x : list xmlDesc) (t : tag) : tag :=
  {| Name := Name t; Writable := Writable t; Path := Path t; Group := Group t;
     Description := x; JSONDescription := JSONDescription t;
     Type_ := Type_ t |}.

Definition set_JSONDescription (x : option (gmap string string)) (t : tag)
  : tag :=
  {| Name := Name t; Writable := Writable t; Path := Path t; Group := Group t;
     Description := Description t; JSONDescription := x; Type_ := Type_ t |}.

Definition set_Type (x : string) (t : tag) : tag :=
  {| Name := Name t; Writable := Writable t; Path := Path t; Group := Group t;
     Description := Description t; JSONDescription := JSONDescription t;
     Type_ := x |}.

(** ** [encoding/json]: the encoding of a [tag] *)

Module json.

(** The double quote, the backslash and the line feed as strings. *)
Definition dq : string := dquote.
Definition bs : string := String "092"%char EmptyString.
Definition nl : string := String "010"%char EmptyString.

(** The constant [hex] of package [json]. *)
Definition hex (n : N) : string :=
  String.substring (N.to_nat n) 1 "0123456789abcdef".

(** [htmlSafeSet]: the printable ASCII bytes, without the double quote,
    the backslash and the three characters escaped for HTML. *)
Definition htmlSafe (b : N) : bool :=
  (32 <=? b)%N && (b <? 128)%N
  && negb (b =? 34)%N && negb (b =? 92)%N
  && negb (b =? 60)%N && negb (b =? 62)%N && negb (b =? 38)%N.

(** The escape written for an ASCII byte outside [htmlSafeSet]. *)
Definition escapeByte (b : N) : string :=
  if ((b =? 92) || (b =? 34))%N then bs +:+ String (ascii_of_N b) ""
  else if (b =? 10)%N then bs +:+ "n"
  else if (b =? 13)%N then bs +:+ "r"
  else if (b =? 9)%N then bs +:+ "t"
  else bs +:+ "u00" +:+ hex (N.shiftr b 4) +:+ hex (N.land b 15).

Definition RuneError : N := 65533.

(** The tables [first] and [acceptRanges] of package [utf8] at a lead
    byte not below 0x80: the length of the sequence and the range the
    second byte has to lie in. *)
Definition lead (b : N) : option (nat * N * N) :=
  if (b <? 194)%N then None
  else if (b <? 224)%N then Some (2, 128%N, 191%N)
  else if (b =? 224)%N then Some (3, 160%N, 191%N)
  else if (b <? 237)%N then Some (3, 128%N, 191%N)
  else if (b =? 237)%N then Some (3, 128%N, 159%N)
  else if (b <? 240)%N then Some (3, 128%N, 191%N)
  else if (b =? 240)%N then Some (4, 144%N, 191%N)
  else if (b <? 244)%N then Some (4, 128%N, 191%N)
  else if (b =? 244)%N then Some (4, 128%N, 143%N)
  else None.

(** A continuation byte: between [locb] and [hicb]. *)
Definition cont (b : N) : bool := (128 <=? b)%N && (b <=? 191)%N.

(** [utf8.DecodeRuneInString]: the rune at the head of [s] and its
    width in bytes; [(RuneError, 1)] for an invalid sequence. *)
Definition DecodeRuneInString (s : string) : N * nat :=
  match s with
  | EmptyString => (RuneError, 0)
  | String c0 r0 =>
      let s0 := N_of_ascii c0 in
      if (s0 <? 128)%N then (s0, 1)
      else
        match lead s0 with
        | None => (RuneError, 1)
        | Some (sz, lo, hi) =>
            if (String.length s <? sz)%nat then (RuneError, 1)
            else
              match r0 with
              | EmptyString => (RuneError, 1)
              | String c1 r1 =>
                  let s1 := N_of_ascii c1 in
                  if ((s1 <? lo) || (hi <? s1))%N then (RuneError, 1)
                  else if (sz <=? 2)%nat
                  then (N.lor (N.shiftl (N.land s0 31) 6) (N.land s1 63), 2)
                  else
                    match r1 with
                    | EmptyString => (RuneError, 1)
                    | String c2 r2 =>
                        let s2 := N_of_ascii c2 in
                        if negb (cont s2) then (RuneError, 1)
                        else if (sz <=? 3)%nat
                        then (N.lor (N.shiftl (N.land s0 15) 12)
                                (N.lor (N.shiftl (N.land s1 63) 6)
                                   (N.land s2 63)), 3)
                        else
                          match r2 with
                          | EmptyString => (RuneError, 1)
                          | String c3 _ =>
                              let s3 := N_of_ascii c3 in
                              if negb (cont s3) then (RuneError, 1)
                              else (N.lor (N.shiftl (N.land s0 7) 18)
                                      (N.lor (N.shiftl (N.land s1 63) 12)
                                         (N.lor (N.shiftl (N.land s2 63) 6)
                                            (N.land s3 63))), 4)
                          end
                    end
              end
        end
  end.

(** The loop of [encodeState.string] with [escapeHTML] set, as
    [json.NewEncoder] leaves it.  [ncopy] and [ndrop] count the bytes of
    the rune at hand that are still to be copied, or to be passed over
    after the rune was written as an escape. *)
Fixpoint stringBody (ncopy ndrop : nat) (s : string) : string :=
  match s with
  | EmptyString => EmptyString
  | String c rest =>
      match ncopy, ndrop with
      | S k, _ => String c (stringBody k ndrop rest)
      | 0, S k => stringBody 0 k rest
      | 0, 0 =>
          let b := N_of_ascii c in
          if (b <? 128)%N
          then if htmlSafe b then String c (stringBody 0 0 rest)
               else escapeByte b +:+ stringBody 0 0 rest
          else
            let (r, size) := DecodeRuneInString s in
            if (r =? RuneError)%N && (size =? 1)%nat
            then bs +:+ "ufffd" +:+ stringBody 0 0 rest
            else if ((r =? 8232) || (r =? 8233))%N
            then bs +:+ "u202" +:+ hex (N.land r 15)
                 +:+ stringBody 0 (size - 1) rest
            else String c (stringBody (size - 1) 0 rest)
      end
  end.

(** [encodeState.string]: a JSON string literal. *)
Definition encodeString (s : string) : string :=
  dq +:+ stringBody 0 0 s +:+ dq.

Definition encodeBool (b : bool) : string :=
  if b then "true" else "false".

(** The entries of a map in the order the encoder writes them: sorted by
    key. *)
Definition key_le (x y : string * string) : Prop := String.le x.1 y.1.

Definition sortedEntries (m : gmap string string) : list (string * string) :=
  merge_sort key_le (map_to_list m).

Definition encodeEntry (kv : string * string) : string :=
  encodeString kv.1 +:+ ":" +:+ encodeString kv.2.

(** A [map[string]string]: [null] for the nil map. *)
Definition encodeMap (m : option (gmap string string)) : string :=
  match m with
  | None => "null"
  | Some m =>
      "{" +:+ String.concat "," (map encodeEntry (sortedEntries m)) +:+ "}"
  end.

(** The name of a struct field, as the encoder has it ready. *)
Definition fieldName (k : string) : string := dq +:+ k +:+ dq +:+ ":".

(** [json.Marshal(tag)]: the fields with a [json] key other than [-],
    in the order of the struct. *)
Definition Marshal (t : tag) : string :=
  "{" +:+ fieldName "writable" +:+ encodeBool (Writable t)
  +:+ "," +:+ fieldName "path" +:+ encodeString (Path t)
  +:+ "," +:+ fieldName "group" +:+ encodeString (Group t)
  +:+ "," +:+ fieldName "description" +:+ encodeMap (JSONDescription t)
  +:+ "," +:+ fieldName "type" +:+ encodeString (Type_ t)
  +:+ "}".

End json.

(** ** [Decoder.DecodeElement] at the types of [emitTag] *)

Module decode.
Import xml.

(** [unicode.IsSpace]: the Latin-1 cases, and the table [White_Space]
    above them. *)
Definition IsSpace (r : N) : bool :=
  if (r <=? 255)%N
  then existsb (N.eqb r) [9; 10; 11; 12; 13; 32; 133; 160]%N
  else (r =? 5760)%N || ((8192 <=? r)%N && (r <=? 8202)%N)
       || (r =? 8232)%N || (r =? 8233)%N || (r =? 8239)%N
       || (r =? 8287)%N || (r =? 12288)%N.

(** The table [asciiSpace] of package [strings]. *)
Definition asciiSpace (b : N) : bool :=
  existsb (N.eqb b) [9; 10; 11; 12; 13; 32]%N.

(** [s[i:j]] *)
Definition slice (i j : nat) (s : string) : string :=
  String.substring i (j - i) s.

(** [s[i]], for [i] inside [s]. *)
Definition byteAt (i : nat) (s : string) : N :=
  match String.get i s with
  | Some c => N_of_ascii c
  | None => 0%N
  end.

(** [utf8.RuneStart] *)
Definition RuneStart (b : N) : bool := negb (N.land b 192 =? 128)%N.

(** [utf8.DecodeLastRuneInString]: the rune at the end of [s] and its
    width.  The loop looks for a start byte at most three bytes before
    the last one; [w] is the distance of the byte it stops at from the
    end, and without such a byte it ends one byte before its limit. *)
Definition DecodeLastRuneInString (s : string) : N * nat :=
  let end_ := String.length s in
  if (end_ =? 0)%nat then (json.RuneError, 0)
  else
    let r := byteAt (end_ - 1) s in
    if (r <? 128)%N then (r, 1)
    else
      let start :=
        match find (fun w => (w <=? end_)%nat
                             && RuneStart (byteAt (end_ - w) s)) [2; 3; 4] with
        | Some w => end_ - w
        | None => end_ - 5
        end in
      let (r, size) := json.DecodeRuneInString (slice start end_ s) in
      if (start + size =? end_)%nat then (r, size) else (json.RuneError, 1).

(** [strings.TrimLeftFunc(s, unicode.IsSpace)]: the loop of [indexFunc]
    over the runes of [s]; [skip] counts the bytes of the rune at hand
    that are still to be passed over. *)
Fixpoint TrimLeftFunc (skip : nat) (s : string) : string :=
  match s with
  | EmptyString => EmptyString
  | String _ s' =>
      match skip with
      | S k => TrimLeftFunc k s'
      | 0 =>
          let (r, size) := json.DecodeRuneInString s in
          if IsSpace r then TrimLeftFunc (size - 1) s' else s
      end
  end.

(** [lastIndexFunc(s, unicode.IsSpace, false)], from [i] downwards:
    [None] is [-1].  Every iteration lowers [i], so [i] iterations are
    all there can be. *)
Fixpoint lastIndexFunc (fuel : nat) (s : string) (i : nat) : option nat :=
  match fuel with
  | 0 => None
  | S fuel' =>
      if (i =? 0)%nat then None
      else
        let (r, size) := DecodeLastRuneInString (slice 0 i s) in
        if IsSpace r then lastIndexFunc fuel' s (i - size)
        else Some (i - size)
  end.

(** [strings.TrimRightFunc(s, unicode.IsSpace)] *)
Definition TrimRightFunc (s : string) : string :=
  match lastIndexFunc (String.length s) s (String.length s) with
  | Some i =>
      if (128 <=? byteAt i s)%N
      then slice 0 (i + (json.DecodeRuneInString
                           (slice i (String.length s) s)).2) s
      else slice 0 (i + 1) s
  | None => EmptyString
  end.

(** [strings.TrimFunc(s, unicode.IsSpace)] *)
Definition TrimFunc (s : string) : string := TrimRightFunc (TrimLeftFunc 0 s).

(** The second loop of [strings.TrimSpace], over the bytes of [s] from
    the end: [r] is what is left of [s], reversed. *)
Fixpoint trimSpaceRight (r : string) : string :=
  match r with
  | EmptyString => EmptyString
  | String c r' =>
      if (128 <=? N_of_ascii c)%N then TrimFunc (String.rev r)
      else if asciiSpace (N_of_ascii c) then trimSpaceRight r'
      else String.rev r
  end.

(** [strings.TrimSpace]: the loops over ASCII bytes from either end, and
    [TrimFunc] with [unicode.IsSpace] on what is left at the first byte
    outside ASCII. *)
Fixpoint TrimSpace (s : string) : string :=
  match s with
  | EmptyString => EmptyString
  | String c s' =>
      if (128 <=? N_of_ascii c)%N then TrimFunc s
      else if asciiSpace (N_of_ascii c) then TrimSpace s'
      else trimSpaceRight (String.rev s)
  end.

(** [strconv.ParseBool] *)
Definition ParseBool (s : string) : option bool :=
  if existsb (String.eqb s) ["1"; "t"; "T"; "TRUE"; "true"; "True"]
  then Some true
  else if existsb (String.eqb s) ["0"; "f"; "F"; "FALSE"; "false"; "False"]
  then Some false
  else None.

(** [copyValue] into a [bool] field (the error text quotes the string as
    it is, without the escapes of [strconv.Quote]). *)
Definition copyValue_bool (src : string) : result bool :=
  if String.eqb src "" then Ok false
  else match ParseBool (TrimSpace src) with
       | Some b => Ok b
       | None => Err (errorString ("strconv.ParseBool: parsing "
                                   +:+ dquote +:+ TrimSpace src +:+ dquote
                                   +:+ ": invalid syntax"))
       end.

(** The attribute loop of [unmarshal] for [tag]: the fields tagged
    [name,attr], [writable,attr] and [type,attr], in the order of the
    attributes. *)
Fixpoint unmarshalAttrs_tag (attrs : list Attr) (v : tag) : result tag :=
  match attrs with
  | [] => Ok v
  | a :: attrs' =>
      if String.eqb (AName a) "name"
      then unmarshalAttrs_tag attrs' (set_Name (AValue a) v)
      else if String.eqb (AName a) "writable"
      then match copyValue_bool (AValue a) with
           | Ok b => unmarshalAttrs_tag attrs' (set_Writable b v)
           | Err e => Err e
           | OutOfFuel => OutOfFuel
           end
      else if String.eqb (AName a) "type"
      then unmarshalAttrs_tag attrs' (set_Type (AValue a) v)
      else unmarshalAttrs_tag attrs' v
  end.

(** The attribute loop for [xmlDesc]: the field tagged [lang,attr]. *)
Fixpoint unmarshalAttrs_desc (attrs : list Attr) (lang : string) : string :=
  match attrs with
  | [] => lang
  | a :: attrs' =>
      if String.eqb (AName a) "lang"
      then unmarshalAttrs_desc attrs' (AValue a)
      else unmarshalAttrs_desc attrs' lang
  end.

(** [unmarshal] of one [desc] child into a fresh [xmlDesc]. *)
Definition unmarshal_xmlDesc (start : StartElement) : M Decoder xmlDesc :=
  do data <- unmarshal_chardata ;;
  ret {| Lang := unmarshalAttrs_desc (Attrs start) ""; Value := data |}.

(** [unmarshalPath] for [tag]: the child [c] goes to the element field
    of its name, or is skipped.  Besides [desc], the fields without an
    [xml] key are element fields under their own names: [Path] and
    [Group] take the text of such a child, and a child named
    [JSONDescription] cannot be decoded into a map. *)
Definition unmarshalPath_tag (c : StartElement) (v : tag) : M Decoder tag :=
  if String.eqb (xml.Name c) "Path"
  then do x <- unmarshal_chardata ;; ret (set_Path x v)
  else if String.eqb (xml.Name c) "Group"
  then do x <- unmarshal_chardata ;; ret (set_Group x v)
  else if String.eqb (xml.Name c) "desc"
  then do d <- unmarshal_xmlDesc c ;;
       ret (set_Description (Description v ++ [d]) v)
  else if String.eqb (xml.Name c) "JSONDescription"
  then fail (errorString "unknown type map[string]string")
  else do _ <- Decoder_Skip ;; ret v.

(** The element loop of [unmarshal] for [tag]. *)
Definition children_body (v : tag) : M Decoder (tag + tag) :=
  do tok <- Decoder_Token ;;
  match tok with
  | TStart c => do v' <- unmarshalPath_tag c v ;; ret (inl v')
  | TEnd _ => ret (inr v)
  | _ => ret (inl v)
  end.

Definition unmarshalChildren_tag : tag -> M Decoder tag :=
  forever remaining children_body.

(** [s.Decoder.DecodeElement(&tag, se)] *)
Definition DecodeElement (se : StartElement) : M Decoder tag :=
  fun d =>
    match unmarshalAttrs_tag (Attrs se) tag_zero with
    | Ok v => unmarshalChildren_tag v d
    | Err e => (Err e, d)
    | OutOfFuel => (OutOfFuel, d)
    end.

End decode.

(** ** The sink: [io.Writer] and the [json.Encoder] over it *)

(** A call the sink has accepted: [Write(p)] on the writer, or [Encode(v)]
    on the encoder, which [StreamTags] builds over the same writer. *)
Inductive event : Type :=
| EvWrite (p : string)
| EvEncode (v : tag).

(** [quota = Some (n, e)]: after [n] more calls every write fails with [e]
    (the client has gone away); [None]: writes never fail. *)
Record sink := {
  trace : list event;
  quota : option (nat * error)
}.

(** The bytes of a call: [Encode] writes the encoding and a line feed. *)
Definition bytes (ev : event) : string :=
  match ev with
  | EvWrite p => p
  | EvEncode v => json.Marshal v +:+ json.nl
  end.

(** Everything the sink has received, in order. *)
Definition written (w : sink) : string :=
  String.concat "" (map bytes (trace w)).

(** The records that reached the sink, in order. *)
Definition emitted (w : sink) : list tag :=
  omap (fun ev => match ev with EvEncode v => Some v | EvWrite _ => None end)
       (trace w).

(** One call on the sink: recorded if the sink takes it, refused with the
    sink's error (and nothing written) otherwise. *)
Definition accept (ev : event) : M sink unit := fun w =>
  match quota w with
  | None => (Ok tt, {| trace := trace w ++ [ev]; quota := None |})
  | Some (S n, e) => (Ok tt, {| trace := trace w ++ [ev]; quota := Some (n, e) |})
  | Some (0, e) => (Err e, w)
  end.

(** ** The streamer *)

(** [type streamer struct]: the [Encoder] field is the encoder over
    [Writer], so both write to the one sink. *)
Record streamer := {
  Decoder : xml.Decoder;
  Writer : sink
}.

(** A call on the decoder, or on the writer, of a streamer. *)
Definition onDecoder {A} (m : M xml.Decoder A) : M streamer A := fun s =>
  let (r, d) := m (Decoder s) in (r, {| Decoder := d; Writer := Writer s |}).

Definition onWriter {A} (m : M sink A) : M streamer A := fun s =>
  let (r, w) := m (Writer s) in (r, {| Decoder := Decoder s; Writer := w |}).

(** [s.Writer.Write([]byte(p))] *)
Definition Writer_Write (p : string) : M streamer unit :=
  onWriter (accept (EvWrite p)).

(** [s.Encoder.Encode(v)] *)
Definition Encoder_Encode (v : tag) : M streamer unit :=
  onWriter (accept (EvEncode v)).

(** The tokens the decoder of a streamer still has to deliver. *)
Definition pending (s : streamer) : nat := xml.remaining (Decoder s).

Module xmlQuery.
Record t := { NamedStart : string; NamedEnd : string }.
End xmlQuery.

Module xmlSearchResult.
(** The two fields are pointers: [None] is [nil]. *)
Record t := {
  NamedStart : option xml.StartElement;
  NamedEnd : option xml.EndElement
}.
End xmlSearchResult.

(** The body of the loop of [search]: [inl tt] is [continue], [inr r] is
    [return r, nil]. *)
Definition search_body (q : xmlQuery.t) (_ : unit)
  : M xml.Decoder (unit + xmlSearchResult.t) :=
  do tok <- wrap_w "decoder.Token" xml.Decoder_Token ;;
  match tok with
  | xml.TStart v =>
      if String.eqb (xmlQuery.NamedStart q) "" then ret (inl tt)
      else if String.eqb (xml.Name v) (xmlQuery.NamedStart q)
      then ret (inr {| xmlSearchResult.NamedStart := Some v;
                       xmlSearchResult.NamedEnd := None |})
      else ret (inl tt)
  | xml.TEnd v =>
      if String.eqb (xmlQuery.NamedEnd q) "" then ret (inl tt)
      else if String.eqb (xml.EName v) (xmlQuery.NamedStart q)
      then ret (inr {| xmlSearchResult.NamedStart := None;
                       xmlSearchResult.NamedEnd := Some v |})
      else ret (inl tt)
  | _ => ret (inl tt)
  end.

(** [func search(q xmlQuery, decoder *xml.Decoder) (xmlSearchResult, error)] *)
Definition search (q : xmlQuery.t) : M xml.Decoder xmlSearchResult.t :=
  forever xml.remaining (search_body q) tt.

(** [func attributeByLocalName(name string, se *xml.StartElement) (string, bool)] *)
Definition attributeByLocalName (name : string) (se : xml.StartElement)
  : string * bool :=
  (fix range (attrs : list xml.Attr) : string * bool :=
     match attrs with
     | [] => ("", false)
     | attr :: attrs' =>
         if String.eqb (xml.AName attr) name then (xml.AValue attr, true)
         else range attrs'
     end) (xml.Attrs se).

(** The two literals of [emitProlog] and [emitEpilog]. *)
Definition prolog : string := "{" +:+ json.dq +:+ "tags" +:+ json.dq +:+ ": [".
Definition epilog : string := "]}".

(** [func (s *streamer) emitProlog() error] *)
Definition emitProlog : M streamer unit :=
  wrap_w "s.Writer.Write" (Writer_Write prolog).

(** [func (s *streamer) emitEpilog() error] *)
Definition emitEpilog : M streamer unit :=
  wrap_w "s.Writer.Write" (Writer_Write epilog).

(** The [for _, d := range tag.Description] loop of [emitTag], on the map
    made just before it. *)
Definition describe (ds : list xmlDesc) : gmap string string :=
  fold_left (fun m d => <[Lang d := Value d]> m) ds ∅.

(** What [emitTag] makes of the decoded [tag] before encoding it. *)
Definition fill (tableName : string) (t : tag) : tag :=
  let t := set_Path (tableName +:+ ":" +:+ Name t) t in
  let t := set_Group tableName t in
  set_JSONDescription (Some (describe (Description t))) t.

(** [func (s *streamer) emitTag(tableName string, se *xml.StartElement) error] *)
Definition emitTag (tableName : string) (se : xml.StartElement)
  : M streamer unit :=
  do t <- wrap_w "s.Decoder.DecodeElement"
            (onDecoder (decode.DecodeElement se)) ;;
  wrap_w "s.Encoder.Encode" (Encoder_Encode (fill tableName t)).

(** The queries of [streamTags] and of [stream]. *)
Definition tagQuery : xmlQuery.t :=
  {| xmlQuery.NamedStart := "tag"; xmlQuery.NamedEnd := "table" |}.

Definition tableQuery : xmlQuery.t :=
  {| xmlQuery.NamedStart := "table"; xmlQuery.NamedEnd := "" |}.

(** The body of the loop of [streamTags]; the loop's variable is
    [comma]. *)
Definition streamTags_body (tableName : string) (comma : bool)
  : M streamer (bool + unit) :=
  do res <- wrap_w "search" (onDecoder (search tagQuery)) ;;
  match xmlSearchResult.NamedEnd res with
  | Some _ => ret (inr tt)
  | None =>
      do _ <- match xmlSearchResult.NamedStart res with
              | Some se =>
                  do _ <- (if comma
                           then wrap_w "s.Writer.Write" (Writer_Write ",")
                           else ret tt) ;;
                  wrap_w "s.emitTag" (emitTag tableName se)
              | None => ret tt
              end ;;
      ret (inl true)
  end.

(** [func (s *streamer) streamTags(tableName string) error] *)
Definition streamTags (tableName : string) : M streamer unit :=
  forever pending (streamTags_body tableName) false.

(** The body of the loop of [stream].  The search error is formatted
    with [%v], the [streamTags] error with [%w].  A [nil]
    [table.NamedStart] would be dereferenced by [attributeByLocalName];
    a search for an opening alone never returns one. *)
Definition stream_body (_ : unit) : M streamer (unit + unit) :=
  do table <- wrap_v "search" (onDecoder (search tableQuery)) ;;
  match xmlSearchResult.NamedStart table with
  | None => fail (errorString "invalid memory address or nil pointer dereference")
  | Some se =>
      let (tableName, hasTableName) := attributeByLocalName "name" se in
      if negb hasTableName
      then fail (errorString "no table name specified by exiftool")
      else
        do _ <- wrap_w "s.streamTags" (streamTags tableName) ;;
        ret (inl tt)
  end.

(** [func (s *streamer) stream() (err error)] *)
Definition stream : M streamer unit := forever pending stream_body tt.

(** ** [StreamTags] *)

(** The first goroutine of [StreamTags] on the streamer [s]: the value it
    assigns to the shared [err] (if any) and whether it calls
    [et.cancel()]. *)
Definition decodeActivity (s : streamer)
  : result (option error * bool) * streamer :=
  match emitProlog s with
  | (Err prologErr, s1) =>
      (Ok (Some (Errorf_w "s.emitProlog" prologErr), false), s1)
  | (OutOfFuel, s1) => (OutOfFuel, s1)
  | (Ok _, s1) =>
      match stream s1 with
      | (OutOfFuel, s2) => (OutOfFuel, s2)
      | (Ok _, s2) => (Ok (None, false), s2)
      | (Err streamErr, s2) =>
          if errors_Is_EOF streamErr
          then match emitEpilog s2 with
               | (Err epilogErr, s3) =>
                   (Ok (Some (Errorf_w "s.emitEpilog" epilogErr), false), s3)
               | (Ok _, s3) => (Ok (None, false), s3)
               | (OutOfFuel, s3) => (OutOfFuel, s3)
               end
          else (Ok (Some (Errorf_w "stream" streamErr), true), s2)
      end
  end.

(** A streamer at the start of [StreamTags]: a fresh decoder over the
    subprocess's output and a sink that has received nothing. *)
Definition start (toks : list xml.Token) (rawErr : error)
  (quota : option (nat * error)) : streamer :=
  {| Decoder := {| xml.input := toks; xml.rawErr := rawErr; xml.stk := [] |};
     Writer := {| trace := []; quota := quota |} |}.

(** ** The input format: tables of tags *)

(** The document of the upstream format: tables at the top level, each
    with a name and its tags; a tag with its three attributes and its
    [desc] children. *)
Module doc.

Record Desc := { lang : string; text : string }.

Record Tag := {
  name : string;
  writable : bool;
  type_ : string;
  descs : list Desc
}.

Record Table := { tname : string; tags : list Tag }.

Definition attr (n v : string) : xml.Attr :=
  {| xml.AName := n; xml.AValue := v |}.

Definition open (n : string) (attrs : list xml.Attr) : xml.Token :=
  xml.TStart {| xml.Name := n; xml.Attrs := attrs |}.

Definition close (n : string) : xml.Token :=
  xml.TEnd {| xml.EName := n |}.

(** [<desc lang="..">text</desc>] *)
Definition render_desc (d : Desc) : list xml.Token :=
  [open "desc" [attr "lang" (lang d)]; xml.TCharData (text d); close "desc"].

(** [<tag name=".." writable=".." type="..">..</tag>] *)
Definition render_tag (t : Tag) : list xml.Token :=
  open "tag" [attr "name" (name t);
              attr "writable" (json.encodeBool (writable t));
              attr "type" (type_ t)]
  :: concat (map render_desc (descs t)) ++ [close "tag"].

(** [<table name="..">..</table>] *)
Definition render_table (tb : Table) : list xml.Token :=
  open "table" [attr "name" (tname tb)]
  :: concat (map render_tag (tags tb)) ++ [close "table"].

Definition render (tables : list Table) : list xml.Token :=
  concat (map render_table tables).

(** The record of a tag under the group [g]. *)
Definition record (g : string) (t : Tag) : tag :=
  let ds := map (fun d => {| Lang := lang d; Value := text d |}) (descs t) in
  {| Name := name t; Writable := writable t;
     Path := g +:+ ":" +:+ name t; Group := g;
     Description := ds; JSONDescription := Some (describe ds);
     Type_ := type_ t |}.

(** All tags of the document, in document order. *)
Definition all_tags (tables : list Table) : list Tag :=
  concat (map tags tables).

(** The group every record of the run carries: [streamTags] is entered
    at the first table and, its search never matching [</table>], stays
    in it to the end of the input. *)
Definition first_name (tables : list Table) : string :=
  match tables with
  | [] => ""
  | tb :: _ => tname tb
  end.

End doc.

(** ** JSON texts *)

(** The grammar of RFC 8259 as a relation between a value and the texts
    that denote it.  A string is kept as the characters between its
    quotes, escapes included. *)
Module JSON.

Local Unset Elimination Schemes.

Inductive value : Type :=
| Null
| Bool (b : bool)
| Number (lit : string)
| Str (body : string)
| Arr (vs : list value)
| Obj (ms : list (string * value)).

Local Set Elimination Schemes.

Definition ws_char (c : ascii) : bool :=
  existsb (Ascii.eqb c) [" "%char; "009"%char; "010"%char; "013"%char].

Fixpoint Ws (s : string) : bool :=
  match s with
  | EmptyString => true
  | String c s' => ws_char c && Ws s'
  end.

Definition digit (c : ascii) : bool :=
  (48 <=? N_of_ascii c)%N && (N_of_ascii c <=? 57)%N.

Definition hexdigit (c : ascii) : bool :=
  digit c
  || ((97 <=? N_of_ascii c)%N && (N_of_ascii c <=? 102)%N)
  || ((65 <=? N_of_ascii c)%N && (N_of_ascii c <=? 70)%N).

Fixpoint digits (s : string) : bool :=
  match s with
  | EmptyString => true
  | String c s' => digit c && digits s'
  end.

(** [int = "0" / digit1-9 *DIGIT] *)
Definition int_lit (s : string) : bool :=
  match s with
  | EmptyString => false
  | String c s' =>
      if Ascii.eqb c "0"%char then String.eqb s' "" else digit c && digits s'
  end.

(** [number = [ "-" ] int [ "." 1*DIGIT ] [ ("e" / "E") [sign] 1*DIGIT ]] *)
Definition IsNumber (s : string) : Prop :=
  exists sign i frac ex,
    s = sign +:+ i +:+ frac +:+ ex
    /\ (sign = "" \/ sign = "-")
    /\ int_lit i = true
    /\ (frac = "" \/ exists ds, frac = "." +:+ ds /\ ds <> "" /\ digits ds = true)
    /\ (ex = "" \/ exists e sg ds,
           ex = e +:+ sg +:+ ds /\ (e = "e" \/ e = "E")
           /\ (sg = "" \/ sg = "+" \/ sg = "-")
           /\ ds <> "" /\ digits ds = true).

(** An unescaped character of a string: anything from 0x20 on except
    the double quote and the backslash. *)
Definition plain (c : ascii) : bool :=
  (32 <=? N_of_ascii c)%N
  && negb (N_of_ascii c =? 34)%N && negb (N_of_ascii c =? 92)%N.

(** The characters a backslash may be followed by (other than [u]). *)
Definition escapable (c : ascii) : bool :=
  existsb (Ascii.eqb c)
    ["034"%char; "092"%char; "/"%char; "b"%char; "f"%char; "n"%char;
     "r"%char; "t"%char].

(** The characters between the quotes of a string. *)
Inductive Chars : string -> Prop :=
| chars_nil : Chars ""
| chars_plain c s : plain c = true -> Chars s -> Chars (String c s)
| chars_escape c s :
    escapable c = true -> Chars s -> Chars (String "092"%char (String c s))
| chars_u h1 h2 h3 h4 s :
    hexdigit h1 = true -> hexdigit h2 = true ->
    hexdigit h3 = true -> hexdigit h4 = true ->
    Chars s ->
    Chars (String "092"%char
             (String "u"%char (String h1 (String h2 (String h3 (String h4 s)))))).

Inductive Parses : value -> string -> Prop :=
| parses_null : Parses Null "null"
| parses_bool b : Parses (Bool b) (json.encodeBool b)
| parses_number s : IsNumber s -> Parses (Number s) s
| parses_string body :
    Chars body -> Parses (Str body) (json.dq +:+ body +:+ json.dq)
| parses_array_empty w :
    Ws w = true -> Parses (Arr []) ("[" +:+ w +:+ "]")
| parses_array v vs s :
    Elements (v :: vs) s -> Parses (Arr (v :: vs)) ("[" +:+ s +:+ "]")
| parses_object_empty w :
    Ws w = true -> Parses (Obj []) ("{" +:+ w +:+ "}")
| parses_object m ms s :
    Members (m :: ms) s -> Parses (Obj (m :: ms)) ("{" +:+ s +:+ "}")

(** [element = ws value ws] *)
with Element : value -> string -> Prop :=
| element w1 v s w2 :
    Ws w1 = true -> Parses v s -> Ws w2 = true ->
    Element v (w1 +:+ s +:+ w2)

(** [elements = element / element "," elements] *)
with Elements : list value -> string -> Prop :=
| elements_one v s : Element v s -> Elements [v] s
| elements_more v vs s1 s2 :
    Element v s1 -> Elements vs s2 -> Elements (v :: vs) (s1 +:+ "," +:+ s2)

(** [members = member / member "," members],
    [member = ws string ws ":" element] *)
with Members : list (string * value) -> string -> Prop :=
| members_one k v w1 w2 s :
    Ws w1 = true -> Chars k -> Ws w2 = true -> Element v s ->
    Members [(k, v)] (w1 +:+ json.dq +:+ k +:+ json.dq +:+ w2 +:+ ":" +:+ s)
| members_more k v ms w1 w2 s1 s2 :
    Ws w1 = true -> Chars k -> Ws w2 = true -> Element v s1 ->
    Members ms s2 ->
    Members ((k, v) :: ms)
      (w1 +:+ json.dq +:+ k +:+ json.dq +:+ w2 +:+ ":" +:+ s1 +:+ "," +:+ s2).

(** [JSON-text = ws value ws] *)
Definition Text (v : value) (s : string) : Prop := Element v s.

(** The value a record is written as: five members, in this order. *)
Definition of_entry (kv : string * string) : string * value :=
  (json.stringBody 0 0 kv.1, Str (json.stringBody 0 0 kv.2)).

Definition of_map (m : option (gmap string string)) : value :=
  match m with
  | None => Null
  | Some m => Obj (map of_entry (json.sortedEntries m))
  end.

Definition of_tag (t : tag) : value :=
  Obj [("writable", Bool (Writable t));
       ("path", Str (json.stringBody 0 0 (Path t)));
       ("group", Str (json.stringBody 0 0 (Group t)));
       ("description", of_map (JSONDescription t));
       ("type", Str (json.stringBody 0 0 (Type_ t)))].

(** The document: an object whose one member [tags] is the array of the
    records. *)
Definition of_tags (ts : list tag) : value :=
  Obj [("tags", Arr (map of_tag ts))].

End JSON.

(** ** The two goroutines of [StreamTags] *)

(** [StreamTags] starts two goroutines that share the result variable
    [err], and returns [err] once both are done.  The first runs
    [decodeActivity] and then, if that gave an error, assigns it to [err]
    and (for a stream error) calls [et.cancel()].  The second waits for
    the subprocess, then evaluates [waitErr != nil && err == nil], then
    assigns.  A run is a sequence of steps of the goroutines and of the
    subprocess. *)
Module conc.

(** The subprocess: running, or exited with what [et.cmd.Wait()] will
    return. *)
Inductive process : Type :=
| Running
| Exited (waitErr : option error).

(** Where the first goroutine is: still decoding; about to assign [e]
    to [err] (and then to cancel, if [c]); about to call [et.cancel()];
    done. *)
Inductive pc1 : Type :=
| Decoding
| Assign1 (e : error) (c : bool)
| Cancel1
| Done1.

(** Where the second goroutine is: in [et.cmd.Wait()]; about to
    evaluate the condition; about to assign; done. *)
Inductive pc2 : Type :=
| Waiting
| Check2 (waitErr : option error)
| Assign2 (waitErr : error)
| Done2.

Record state := {
  err : option error;
  g1 : pc1;
  g2 : pc2;
  proc : process;
  cancelled : bool
}.

(** A step: of the first goroutine, of the second, the subprocess ending
    by itself with some status, or the subprocess being killed because
    its context was cancelled. *)
Inductive label : Type :=
| Go1
| Go2
| Exit (status : option error)
| Kill.

Definition killed : error := errorString "signal: killed".

(** One step from [st]; [None] when the step is not enabled.  [o] is
    what [decodeActivity] gave. *)
Definition step (o : option error * bool) (l : label) (st : state)
  : option state :=
  match l with
  | Go1 =>
      match g1 st with
      | Decoding =>
          Some {| err := err st;
                  g1 := match o with
                        | (Some e, c) => Assign1 e c
                        | (None, _) => Done1
                        end;
                  g2 := g2 st; proc := proc st; cancelled := cancelled st |}
      | Assign1 e c =>
          Some {| err := Some e; g1 := if c then Cancel1 else Done1;
                  g2 := g2 st; proc := proc st; cancelled := cancelled st |}
      | Cancel1 =>
          Some {| err := err st; g1 := Done1; g2 := g2 st; proc := proc st;
                  cancelled := true |}
      | Done1 => None
      end
  | Go2 =>
      match g2 st with
      | Waiting =>
          match proc st with
          | Running => None
          | Exited w =>
              Some {| err := err st; g1 := g1 st; g2 := Check2 w;
                      proc := proc st; cancelled := cancelled st |}
          end
      | Check2 w =>
          Some {| err := err st; g1 := g1 st;
                  g2 := match w, err st with
                        | Some waitErr, None => Assign2 waitErr
                        | _, _ => Done2
                        end;
                  proc := proc st; cancelled := cancelled st |}
      | Assign2 waitErr =>
          Some {| err := Some (Errorf_w "et.cmd.Wait" waitErr);
                  g1 := g1 st; g2 := Done2; proc := proc st;
                  cancelled := cancelled st |}
      | Done2 => None
      end
  | Exit status =>
      match proc st with
      | Running =>
          Some {| err := err st; g1 := g1 st; g2 := g2 st;
                  proc := Exited status; cancelled := cancelled st |}
      | Exited _ => None
      end
  | Kill =>
      match proc st, cancelled st with
      | Running, true =>
          Some {| err := err st; g1 := g1 st; g2 := g2 st;
                  proc := Exited (Some killed); cancelled := cancelled st |}
      | _, _ => None
      end
  end.

Fixpoint run (o : option error * bool) (sched : list label) (st : state)
  : option state :=
  match sched with
  | [] => Some st
  | l :: sched' =>
      match step o l st with
      | Some st' => run o sched' st'
      | None => None
      end
  end.

Definition init : state :=
  {| err := None; g1 := Decoding; g2 := Waiting; proc := Running;
     cancelled := false |}.

(** [wg.Wait()] has returned: both goroutines are done. *)
Definition joined (st : state) : bool :=
  match g1 st, g2 st with
  | Done1, Done2 => true
  | _, _ => false
  end.

(** What [StreamTags] returns on the schedule [sched], if that schedule
    is a complete run. *)
Definition StreamTags (o : option error * bool) (sched : list label)
  : option (option error) :=
  match run o sched init with
  | Some st => if joined st then Some (err st) else None
  | None => None
  end.

(** The subprocess never ends by itself on this schedule: it ends only
    by being killed. *)
Definition only_killed (sched : list label) : bool :=
  forallb (fun l => match l with Exit _ => false | _ => true end) sched.

End conc.

(** ** Notions used in the statements *)

(** What a successful search returns: an opening named as the query asks,
    or (when the query asks for a closing at all) a closing named like the
    query's [NamedStart]; the token is one of the input. *)
Definition search_outcome (q : xmlQuery.t) (d : xml.Decoder)
  (r : xmlSearchResult.t) : Prop :=
  (exists v,
      r = {| xmlSearchResult.NamedStart := Some v;
             xmlSearchResult.NamedEnd := None |}
      /\ In (xml.TStart v) (xml.input d)
      /\ xml.Name v = xmlQuery.NamedStart q
      /\ xmlQuery.NamedStart q <> "")
  \/ (exists v,
         r = {| xmlSearchResult.NamedStart := None;
                xmlSearchResult.NamedEnd := Some v |}
         /\ In (xml.TEnd v) (xml.input d)
         /\ xml.EName v = xmlQuery.NamedStart q
         /\ xmlQuery.NamedEnd q <> "").

(** The reader's final error is [io.EOF] itself or no [io.EOF] at all. *)
Definition sane (d : xml.Decoder) : Prop :=
  xml.rawErr d = io_EOF \/ errors_Is_EOF (xml.rawErr d) = false.

(** [d] is [n] elements deeper than [base]. *)
Definition depth_is (base n : nat) (d : xml.Decoder) : Prop :=
  length (xml.stk d) = base + n.

(** What a call made inside an element leaves behind: on success the
    element is closed, and a failure is never [io.EOF]. *)
Definition closes {A} (base : nat) (out : result A * xml.Decoder) : Prop :=
  match out with
  | (Ok _, d') => sane d' /\ depth_is base 0 d'
  | (Err e, d') => sane d' /\ errors_Is_EOF e = false
  | (OutOfFuel, _) => False
  end.

Ltac unfold_go :=
  unfold bind, wrap_w, wrap_v, ret, fail, onDecoder, onWriter in *.

(** Why [stream] stopped, as its error tells: the search for a table or
    the search for a tag failed in [decoder.Token] with [tokErr]; a table
    had no [name]; the write of a comma or the encoding of a record failed
    in the sink; [DecodeElement] failed on a tag. *)
Inductive cause : Type :=
| TableSearch (tokErr : error)
| NoTableName
| TagSearch (tokErr : error)
| CommaWrite (writeErr : error)
| DecodeFailed (decodeErr : error)
| EncodeFailed (writeErr : error).

(** The error [stream] returns for each cause. *)
Definition error_of (c : cause) : error :=
  match c with
  | TableSearch e => Errorf_v "search" (Errorf_w "decoder.Token" e)
  | NoTableName => errorString "no table name specified by exiftool"
  | TagSearch e =>
      Errorf_w "s.streamTags" (Errorf_w "search" (Errorf_w "decoder.Token" e))
  | CommaWrite e =>
      Errorf_w "s.streamTags" (Errorf_w "s.Writer.Write" e)
  | DecodeFailed e =>
      Errorf_w "s.streamTags"
        (Errorf_w "s.emitTag" (Errorf_w "s.Decoder.DecodeElement" e))
  | EncodeFailed e =>
      Errorf_w "s.streamTags"
        (Errorf_w "s.emitTag" (Errorf_w "s.Encoder.Encode" e))
  end.

(** What holds of the streamer [s'] that [stream] leaves behind for a
    cause: the decoder gives the token error again, the sink refuses, the
    decoding error is no [io.EOF]. *)
Definition cause_at (c : cause) (s' : streamer) : Prop :=
  match c with
  | TableSearch e =>
      xml.Decoder_Token (Decoder s') = (Err e, Decoder s')
  | NoTableName => True
  | TagSearch e =>
      xml.Decoder_Token (Decoder s') = (Err e, Decoder s')
      /\ (e = io_EOF \/ errors_Is_EOF e = false)
  | CommaWrite e => quota (Writer s') = Some (0, e)
  | DecodeFailed e => errors_Is_EOF e = false
  | EncodeFailed e => quota (Writer s') = Some (0, e)
  end.

(** An event [streamTags] adds to the sink: a comma, or a record that
    [emitTag] filled in for the group [g]. *)
Definition tag_event (g : string) (ev : event) : Prop :=
  ev = EvWrite "," \/ exists t, ev = EvEncode (fill g t).

(** The sink of [s'] has what the sink of [s] had and, after it, events
    that satisfy [Q]: nothing written is taken back or changed. *)
Definition extends (Q : event -> Prop) (s s' : streamer) : Prop :=
  exists evs, trace (Writer s') = trace (Writer s) ++ evs /\ Forall Q evs.

(** The last thing the sink received is the epilogue. *)
Definition epilog_written (s : streamer) : Prop :=
  last (trace (Writer s)) = Some (EvWrite epilog).

(** The sink takes the next write. *)
Definition accepts (w : sink) : Prop := forall e, quota w <> Some (0, e).

(** The run of the first goroutine of [StreamTags] over the tokens [toks]
    (after which the reader gives [rawErr]) into a sink with [quota]: what
    the goroutine reports, and the streamer it leaves. *)
Definition run (toks : list xml.Token) (rawErr : error)
  (quota : option (nat * error)) : result (option error * bool) * streamer :=
  decodeActivity (start toks rawErr quota).

(** The records that reached the sink in that run. *)
Definition records_of_run (toks : list xml.Token) (rawErr : error)
  (quota : option (nat * error)) : list tag :=
  emitted (Writer (snd (run toks rawErr quota))).

(** The bytes the sink received in that run. *)
Definition output_of_run (toks : list xml.Token) (rawErr : error)
  (quota : option (nat * error)) : string :=
  written (Writer (snd (run toks rawErr quota))).

(** An event of a run of [StreamTags]. *)
Definition run_event (ev : event) : Prop :=
  ev = EvWrite prolog \/ ev = EvWrite epilog \/ exists g, tag_event g ev.

(** The [desc] children of a record with the language [l], in order. *)
Definition descs_in (l : string) (ds : list xmlDesc) : list xmlDesc :=
  filter (fun d => Lang d = l) ds.

(** What one round of the loop of [streamTags] leaves behind. *)
Definition streamTags_post (g : string) (s : streamer) {A}
  (out : result A * streamer) : Prop :=
  match out with
  | (Ok _, s') =>
      pending s' < pending s
      /\ (sane (Decoder s) -> sane (Decoder s'))
      /\ extends (tag_event g) s s'
  | (Err e, s') =>
      pending s' <= pending s
      /\ (sane (Decoder s) -> sane (Decoder s'))
      /\ extends (tag_event g) s s'
      /\ exists c, Errorf_w "s.streamTags" e = error_of c
                   /\ (sane (Decoder s) -> cause_at c s')
  | (OutOfFuel, _) => False
  end.

(** What [stream] leaves behind: it always ends in an error, for one of
    the causes; the sink has only grown, by commas and filled records. *)
Definition stream_post (s : streamer) {A} (out : result A * streamer) : Prop :=
  match out with
  | (Err e, s') =>
      pending s' <= pending s
      /\ (sane (Decoder s) -> sane (Decoder s'))
      /\ extends (fun ev => exists g, tag_event g ev) s s'
      /\ exists c, e = error_of c /\ (sane (Decoder s) -> cause_at c s')
  | (Ok _, _) => False
  | (OutOfFuel, _) => False
  end.

(** The stream of a run ended in the table search of [stream] meeting
    [io.EOF]. *)
Definition ended_at_table_search_EOF (toks : list xml.Token) (rawErr : error)
  (quota : option (nat * error)) : Prop :=
  exists s1 s2,
    emitProlog (start toks rawErr quota) = (Ok tt, s1)
    /\ stream s1 = (Err (error_of (TableSearch io_EOF)), s2).

(** A streamer in the middle of a clean input: the decoder has [toks]
    left before [io.EOF] and [stk] open, the sink has received [tr] and
    never fails. *)
Definition streaming (toks : list xml.Token) (stk : list string)
  (tr : list event) : streamer :=
  {| Decoder := {| xml.input := toks; xml.rawErr := io_EOF; xml.stk := stk |};
     Writer := {| trace := tr; quota := None |} |}.

(** The calls by which one [streamTags] sends the records [recs] to the
    sink, [comma] telling whether it sent one before. *)
Fixpoint events_of (comma : bool) (recs : list tag) : list event :=
  match recs with
  | [] => []
  | r :: recs' =>
      (if comma then [EvWrite ","] else []) ++ EvEncode r :: events_of true recs'
  end.

(** The records of a run over the document [tables]. *)
Definition records_of_doc (tables : list doc.Table) : list tag :=
  map (doc.record (doc.first_name tables)) (doc.all_tags tables).

(** The compact rendering of the document with the records [recs]: no
    space, no line feed. *)
Definition compact (recs : list tag) : string :=
  "{" +:+ json.dq +:+ "tags" +:+ json.dq +:+ ":["
  +:+ String.concat "," (map json.Marshal recs) +:+ "]}".

(** The document of the spec's example: the table [EXIF] with the tag
    [Make]. *)
Definition example_doc : list doc.Table :=
  [{| doc.tname := "EXIF";
      doc.tags := [{| doc.name := "Make"; doc.writable := true;
                      doc.type_ := "string";
                      doc.descs := [{| doc.lang := "en";
                                       doc.text := "Manufacturer" |}] |}] |}].

(** Two tables, [A] with the tag [x] and [B] with the tag [y]. *)
Definition two_tables : list doc.Table :=
  [{| doc.tname := "A";
      doc.tags := [{| doc.name := "x"; doc.writable := false;
                      doc.type_ := "int"; doc.descs := [] |}] |};
   {| doc.tname := "B";
      doc.tags := [{| doc.name := "y"; doc.writable := true;
                      doc.type_ := "string"; doc.descs := [] |}] |}].

(** [<table name="A"></table><table></table>]: the second table has no
    [name]. *)
Definition second_table_unnamed : list xml.Token :=
  doc.render [{| doc.tname := "A"; doc.tags := [] |}]
  ++ [doc.open "table" []; doc.close "table"].

(** [<taginfo></taginfo>]: a listing without any table. *)
Definition no_table : list xml.Token :=
  [doc.open "taginfo" []; doc.close "taginfo"].

(** A string in double quotes. *)
Definition quoted (s : string) : string := json.dq +:+ s +:+ json.dq.

(** The last character of a string. *)
Fixpoint last_char (s : string) : option ascii :=
  match s with
  | EmptyString => None
  | String c EmptyString => Some c
  | String _ s' => last_char s'
  end.

(** [<table name="A"><tag name="x">] and then the end of the output: the
    subprocess died in the middle of a tag. *)
Definition cut_in_tag : list xml.Token :=
  [doc.open "table" [doc.attr "name" "A"];
   doc.open "tag" [doc.attr "name" "x"]].

(** The schedule of the race: the subprocess ends by itself; the second
    goroutine returns from [Wait] and finds [err == nil]; the first
    goroutine assigns its error; the second assigns over it. *)
Definition race (status : error) : list conc.label :=
  [conc.Exit (Some status); conc.Go2; conc.Go2; conc.Go1; conc.Go1;
   conc.Go2; conc.Go1].

(** What holds at every point of a run in which the first goroutine has
    the error [e1] to report and the subprocess ends only by being
    killed: until the first goroutine has assigned its error and called
    [cancel], the subprocess runs and the second goroutine waits; after
    that, [err] is [e1] and the second goroutine never gets to assign. *)
Definition forced_inv (e1 : error) (st : conc.state) : Prop :=
  (conc.cancelled st = false
   /\ conc.proc st = conc.Running
   /\ conc.g2 st = conc.Waiting
   /\ (conc.g1 st = conc.Decoding /\ conc.err st = None
       \/ conc.g1 st = conc.Assign1 e1 true /\ conc.err st = None
       \/ conc.g1 st = conc.Cancel1 /\ conc.err st = Some e1))
  \/ (conc.cancelled st = true
      /\ conc.g1 st = conc.Done1
      /\ conc.err st = Some e1
      /\ (conc.g2 st = conc.Waiting
          \/ (exists w, conc.g2 st = conc.Check2 w)
          \/ conc.g2 st = conc.Done2)).

(** What holds at every point of a run in which the first goroutine has
    no error to report: [err] is [nil] until the second goroutine has
    looked at the status the subprocess ended with, and then is that
    status, wrapped. *)
Definition quiet_inv (st : conc.state) : Prop :=
  (conc.g1 st = conc.Decoding \/ conc.g1 st = conc.Done1)
  /\ match conc.g2 st with
     | conc.Waiting => conc.err st = None
     | conc.Check2 w => conc.proc st = conc.Exited w /\ conc.err st = None
     | conc.Assign2 e =>
         conc.proc st = conc.Exited (Some e) /\ conc.err st = None
     | conc.Done2 =>
         exists w, conc.proc st = conc.Exited w
                   /\ conc.err st = Errorf_w "et.cmd.Wait" <$> w
     end.

(** The [xmlDesc] decoded from a [desc] element of a document. *)
Definition of_desc (d : doc.Desc) : xmlDesc :=
  {| Lang := doc.lang d; Value := doc.text d |}.

(** The next [n] bytes of [s] are not ASCII. *)
Fixpoint all_high (n : nat) (s : string) : Prop :=
  match n, s with
  | S k, String c s' => (N_of_ascii c <? 128)%N = false /\ all_high k s'
  | _, _ => True
  end.

(** What [streamTags] writes for the records after the first: a comma,
    the record, a line feed. *)
Definition separated (r : tag) : string :=
  "," +:+ json.Marshal r +:+ json.nl.

(** What the compact rendering has for the records after the first. *)
Definition joined_tail (r : tag) : string := "," +:+ json.Marshal r.

(** Proves [JSON.Chars] of a string that is given in full. *)
Ltac chars :=
  solve [ repeat first
            [ apply JSON.chars_nil
            | apply JSON.chars_escape; [reflexivity|]
            | apply JSON.chars_u; [reflexivity|reflexivity|reflexivity|reflexivity|]
            | apply JSON.chars_plain; [reflexivity|] ] ].

(** A character a JSON value can end with: the last letter of [null],
    [true] or [false], a digit, a double quote, a closing bracket or
    brace. *)
Definition closing (c : ascii) : bool :=
  JSON.digit c
  || existsb (Ascii.eqb c) ["l"%char; "e"%char; "034"%char; "]"%char; "}"%char].


(** In the calls [tr] every comma comes directly after an encoded record;
    [after_record] tells whether the call before [tr] was one. *)
Fixpoint commas_after_records (after_record : bool) (tr : list event) : bool :=
  match tr with
  | [] => true
  | EvEncode _ :: tr' => commas_after_records true tr'
  | EvWrite p :: tr' =>
      (negb (String.eqb p ",") || after_record)
      && commas_after_records false tr'
  end.

(** Whether the last of the calls [tr] encoded a record ([b] if there is
    no call). *)
Definition ends_with_record (b : bool) (tr : list event) : bool :=
  match last tr with
  | None => b
  | Some (EvEncode _) => true
  | Some (EvWrite _) => false
  end.

(** What one round of the loop of [streamTags] adds to the sink. *)
Definition round_trace (comma : bool) (s : streamer)
  (out : result (bool + unit) * streamer) : Prop :=
  match out with
  | (Ok (inl comma'), s') =>
      comma' = true
      /\ exists v,
          trace (Writer s')
          = trace (Writer s) ++ (if comma then [EvWrite ","] else [])
            ++ [EvEncode v]
  | (Ok (inr _), s') => trace (Writer s') = trace (Writer s)
  | (Err _, s') =>
      trace (Writer s') = trace (Writer s)
      \/ (comma = true
          /\ trace (Writer s') = trace (Writer s) ++ [EvWrite ","])
  | (OutOfFuel, _) => False
  end.

(** The sink of a [streamTags] that is about to go round with [comma]. *)
Definition comma_inv (comma : bool) (s : streamer) : Prop :=
  commas_after_records false (trace (Writer s)) = true
  /\ (comma = true -> ends_with_record false (trace (Writer s)) = true).




(** ** Notions used in the further properties *)

(** Whether [search] returns at the token [tok] for the query [q]: the
    two [if]s of the opening case and of the closing case. *)
Definition matches (q : xmlQuery.t) (tok : xml.Token) : bool :=
  match tok with
  | xml.TStart v =>
      negb (String.eqb (xmlQuery.NamedStart q) "")
      && String.eqb (xml.Name v) (xmlQuery.NamedStart q)
  | xml.TEnd v =>
      negb (String.eqb (xmlQuery.NamedEnd q) "")
      && String.eqb (xml.EName v) (xmlQuery.NamedStart q)
  | _ => false
  end.

(** The result [search] builds at the token it returns at. *)
Definition found (tok : xml.Token) : xmlSearchResult.t :=
  match tok with
  | xml.TStart v =>
      {| xmlSearchResult.NamedStart := Some v; xmlSearchResult.NamedEnd := None |}
  | xml.TEnd v =>
      {| xmlSearchResult.NamedStart := None; xmlSearchResult.NamedEnd := Some v |}
  | _ =>
      {| xmlSearchResult.NamedStart := None; xmlSearchResult.NamedEnd := None |}
  end.

(** No attribute of [attrs] has the local name [name]. *)
Definition absent (name : string) (attrs : list xml.Attr) : Prop :=
  Forall (fun a => xml.AName a <> name) attrs.

(** The error of the panic a [nil] [table.NamedStart] would cause in
    [stream]. *)
Definition nilDereference : error :=
  errorString "invalid memory address or nil pointer dereference".

(** The calls of a run that got past the prologue: the prologue, then
    commas and records, then the epilogue or nothing. *)
Definition run_shape (tr : list event) : Prop :=
  exists evs tail,
    tr = EvWrite prolog :: evs ++ tail
    /\ Forall (fun ev => exists g, tag_event g ev) evs
    /\ (tail = [] \/ tail = [EvWrite epilog]).


(** The value of the last attribute of [attrs] with the local name
    [name]. *)
Definition lastAttr (name : string) (attrs : list xml.Attr) : option string :=
  xml.AValue <$> last (filter (fun a => xml.AName a = name) attrs).

(** [<tag>] without any attribute, closed at once. *)
Definition bare_tag : xml.StartElement :=
  {| xml.Name := "tag"; xml.Attrs := [] |}.


(** What holds at every point of every run of the two goroutines, [o]
    being what [decodeActivity] gave: the first goroutine is done only
    after it has assigned the error it had; [cancel] has been called only
    if that error came with the order to cancel; the second goroutine is
    done only after the subprocess has ended, and has assigned unless the
    status was [nil] or [err] was set; and [err] holds nothing but one of
    the two errors. *)
Definition result_inv (o : option error * bool) (st : conc.state) : Prop :=
  match conc.g1 st with
  | conc.Decoding => conc.cancelled st = false
  | conc.Assign1 e c => o = (Some e, c) /\ conc.cancelled st = false
  | conc.Cancel1 =>
      (exists e, o = (Some e, true))
      /\ conc.cancelled st = false /\ conc.err st <> None
  | conc.Done1 =>
      (fst o = None /\ conc.cancelled st = false)
      \/ (conc.err st <> None
          /\ (conc.cancelled st = true -> exists e, o = (Some e, true)))
  end
  /\ match conc.g2 st with
     | conc.Waiting => True
     | conc.Check2 w => conc.proc st = conc.Exited w
     | conc.Assign2 w => conc.proc st = conc.Exited (Some w)
     | conc.Done2 =>
         exists w, conc.proc st = conc.Exited w
                   /\ (w = None \/ conc.err st <> None)
     end
  /\ match conc.err st with
     | None => True
     | Some r =>
         fst o = Some r
         \/ exists waitErr,
             conc.proc st = conc.Exited (Some waitErr)
             /\ r = Errorf_w "et.cmd.Wait" waitErr
     end.

(** A complete run in which the stream fails and the subprocess is ended
    by the cancellation. *)
Definition cancel_then_kill : list conc.label :=
  [conc.Go1; conc.Go1; conc.Go1; conc.Kill; conc.Go2; conc.Go2].

(** A complete run in which the subprocess ends by itself with [status]
    after the first goroutine is done. *)
Definition decode_then_exit (status : option error) : list conc.label :=
  [conc.Go1; conc.Exit status; conc.Go2; conc.Go2; conc.Go2].


(** [err] is [target], or wraps it somewhere down its [Unwrap] chain. *)
Fixpoint unwraps_to (target err : error) : Prop :=
  err = target
  \/ match err with
     | wrapError _ err' => unwraps_to target err'
     | _ => False
     end.

(** The computation [f] only adds to the sink. *)
Definition grows {A} (f : M streamer A) : Prop :=
  forall s, exists evs,
    trace (Writer (snd (f s))) = trace (Writer s) ++ evs.

(** Two runs side by side, [su] into a sink that never fails and [sq]
    into a sink that takes [budget] calls in all and then fails with
    [e]. *)
Section Truncation.
Variable e : error.
Variable budget : nat.

(** The sink of [sq] has not failed yet: the two streamers agree, but for
    what is left of the budget. *)
Definition live (su sq : streamer) : Prop :=
  Decoder sq = Decoder su
  /\ trace (Writer sq) = trace (Writer su)
  /\ quota (Writer su) = None
  /\ quota (Writer sq) = Some (budget - length (trace (Writer sq)), e)
  /\ length (trace (Writer sq)) <= budget.

(** The sink of [sq] has failed: it holds the first [budget] calls of
    what the sink of [su] holds, and that one holds more. *)
Definition dead (su sq : streamer) : Prop :=
  quota (Writer sq) = Some (0, e)
  /\ length (trace (Writer sq)) = budget
  /\ exists more,
      more <> [] /\ trace (Writer su) = trace (Writer sq) ++ more.

(** The outcomes of one computation in the two runs: the same result and
    the sink still alive, or the failure of the sink, which the error of
    [sq] wraps. *)
Definition truncated {A} (outu outq : result A * streamer) : Prop :=
  (fst outq = fst outu /\ live (snd outu) (snd outq))
  \/ (exists err,
         fst outq = Err err /\ unwraps_to e err /\ dead (snd outu) (snd outq)).

Definition Truncates {A} (f : M streamer A) : Prop :=
  forall su sq, live su sq -> truncated (f su) (f sq).

End Truncation.


(** ** The HTTP handler of [handler/handler.go]

    [net/http], [context], [log] and [os/exec] as [Handler], [GetTags],
    [Listx], [Start] and [Close] use them. *)

Module http.

Definition StatusOK : nat := 200.
Definition StatusNotFound : nat := 404.
Definition StatusMethodNotAllowed : nat := 405.
Definition StatusInternalServerError : nat := 500.

(** Of a [*http.Request] the handler reads [r.Method] and [r.URL.Path]
    (and [r.Context()], which is part of the [world] below). *)
Record Request := { Method : string; URL_Path : string }.

(** An [http.ResponseWriter]: the header map, the status once it has
    been sent, and the body, which is the sink [StreamTags] writes to. *)
Record ResponseWriter := {
  header : gmap string string;
  status : option nat;
  body : sink
}.

(** [w.Header().Set(k, v)] *)
Definition Header_Set (k v : string) (w : ResponseWriter) : ResponseWriter :=
  {| header := <[k := v]> (header w); status := status w; body := body w |}.

(** [w.WriteHeader(code)]: the first call sends the status; a later call
    changes nothing. *)
Definition WriteHeader (code : nat) (w : ResponseWriter) : ResponseWriter :=
  match status w with
  | None => {| header := header w; status := Some code; body := body w |}
  | Some _ => w
  end.

(** [w.Write(p)]: sends the status 200 first if none was sent yet. *)
Definition Write (p : string) : M ResponseWriter unit := fun w =>
  let w := WriteHeader StatusOK w in
  let (r, b) := accept (EvWrite p) (body w) in
  (r, {| header := header w; status := status w; body := b |}).

(** [http.Error(w, msg, code)]; the result of its [fmt.Fprintln] is
    dropped. *)
Definition Error (msg : string) (code : nat) (w : ResponseWriter)
  : ResponseWriter :=
  let w := Header_Set "Content-Type" "text/plain; charset=utf-8" w in
  let w := Header_Set "X-Content-Type-Options" "nosniff" w in
  let w := WriteHeader code w in
  snd (Write (msg +:+ String "010"%char EmptyString) w).

(** The response writer a handler is called with: nothing set, nothing
    sent; [quota] tells when the connection will break. *)
Definition fresh (quota : option (nat * error)) : ResponseWriter :=
  {| header := ∅; status := None;
     body := {| trace := []; quota := quota |} |}.

End http.

Module context.

(** What [ctx.Err()] returns: [nil], [context.Canceled] or
    [context.DeadlineExceeded]. *)
Inductive Err : Type :=
| NoErr
| Canceled
| DeadlineExceeded.

(** [errors.Is(err, context.Canceled)] *)
Definition Is_Canceled (err : Err) : bool :=
  match err with
  | Canceled => true
  | _ => false
  end.

End context.

Module exec.

(** [exec.CommandContext(ctx, name, arg...)] *)
Record Cmd := { Name : string; Args : list string }.

(** The calls on the operating system that succeeded. *)
Inductive call : Type :=
| CreatePipe
| StartProcess (c : Cmd)
| ClosePipe.

End exec.

(** What the read end of the pipe delivers to the decoder: the tokens,
    and the error that ends them, [io.EOF] when the output of the
    subprocess was read to its end, another error when a read fails (as
    it does on a pipe that [cmd.Wait] has closed in the second goroutine
    before the first one had read everything). *)
Record output := { tokens : list xml.Token; ending : error }.

(** [type ExifTool struct]: the command, and the read end of the pipe
    ([None] is [nil]) with what will come out of it. *)
Record ExifTool := { cmd : exec.Cmd; stdout : option output }.

(** What one call of the handler meets: what [StdoutPipe] and
    [cmd.Start] return, what the pipe delivers of the output of the
    subprocess, how the goroutines of [StreamTags] and the subprocess
    take turns, and what [r.Context().Err()] is once [StreamTags] has
    returned. *)
Record world := {
  pipeErr : option error;
  startErr : option error;
  listing : output;
  schedule : list conc.label;
  ctxErr : context.Err
}.

(** What the handler acts on: the response, the log, the operating
    system. *)
Record host := {
  resp : http.ResponseWriter;
  logs : list string;
  calls : list exec.call
}.

Definition respond (f : http.ResponseWriter -> http.ResponseWriter)
  (h : host) : host :=
  {| resp := f (resp h); logs := logs h; calls := calls h |}.

(** [log.Printf]: the line, without its time stamp. *)
Definition log_Printf (line : string) (h : host) : host :=
  {| resp := resp h; logs := logs h ++ [line]; calls := calls h |}.

Definition syscall (c : exec.call) (h : host) : host :=
  {| resp := resp h; logs := logs h; calls := calls h ++ [c] |}.

(** [func Listx(ctx context.Context) *ExifTool] *)
Definition Listx : ExifTool :=
  {| cmd := {| exec.Name := "exiftool"; exec.Args := ["-listx"] |};
     stdout := None |}.

(** [func (et *ExifTool) Start() error] *)
Definition ExifTool_Start (W : world) (et : ExifTool) (h : host)
  : option error * ExifTool * host :=
  match pipeErr W with
  | Some err =>
      (Some (Errorf_w "et.cmd.StdoutPipe" err),
       {| cmd := cmd et; stdout := None |}, h)
  | None =>
      let et := {| cmd := cmd et; stdout := Some (listing W) |} in
      let h := syscall exec.CreatePipe h in
      match startErr W with
      | Some err => (Some (Errorf_w "et.cmd.Start" err), et, h)
      | None => (None, et, syscall (exec.StartProcess (cmd et)) h)
      end
  end.

(** [func (et *ExifTool) Close()] *)
Definition ExifTool_Close (et : ExifTool) (h : host) : host :=
  match stdout et with
  | Some _ => syscall exec.ClosePipe h
  | None => h
  end.

(** [xml.NewDecoder(et.stdout)] *)
Definition NewDecoder (out : output) : xml.Decoder :=
  {| xml.input := tokens out; xml.rawErr := ending out; xml.stk := [] |}.

(** [func (et *ExifTool) StreamTags(w io.Writer) (err error)]: the first
    goroutine runs [decodeActivity] over the pipe into [w]; the two
    goroutines and the subprocess take turns as the world's schedule
    says.  [None]: the schedule is no complete run (or the pipe is
    [nil]). *)
Definition ExifTool_StreamTags (W : world) (et : ExifTool) (w : sink)
  : option (option error * sink) :=
  match stdout et with
  | None => None
  | Some out =>
      match decodeActivity {| Decoder := NewDecoder out; Writer := w |} with
      | (Ok o, s') =>
          match conc.StreamTags o (schedule W) with
          | Some err => Some (err, Writer s')
          | None => None
          end
      | _ => None
      end
  end.

(** [func GetTags(w http.ResponseWriter, r *http.Request)]; the deferred
    [et.Close()] runs on every return after [Listx]. *)
Definition GetTags (W : world) (r : http.Request) (h : host) : option host :=
  if negb (String.eqb (http.Method r) "GET")
  then Some (respond (http.Error "Method Not Allowed"
                        http.StatusMethodNotAllowed) h)
  else
    let et := Listx in
    let '(err, et, h) := ExifTool_Start W et h in
    match err with
    | Some err =>
        let h := log_Printf ("et.Start: " +:+ Error err) h in
        let h := respond (http.Error "Internal Server Error"
                            http.StatusInternalServerError) h in
        Some (ExifTool_Close et h)
    | None =>
        let h := respond (http.WriteHeader http.StatusOK) h in
        match ExifTool_StreamTags W et (http.body (resp h)) with
        | None => None
        | Some (err, b) =>
            let h := respond (fun w => {| http.header := http.header w;
                                          http.status := http.status w;
                                          http.body := b |}) h in
            let h := match err with
                     | Some err =>
                         if negb (context.Is_Canceled (ctxErr W))
                         then log_Printf ("et.StreamTags: " +:+ Error err) h
                         else h
                     | None => h
                     end in
            Some (ExifTool_Close et h)
        end
    end.

(** [func Handler(w http.ResponseWriter, r *http.Request)] *)
Definition Handler (W : world) (r : http.Request) (h : host) : option host :=
  if String.eqb (http.URL_Path r) "/tags"
  then GetTags W r h
  else Some (respond (http.Error "Not Found" http.StatusNotFound) h).

(** The host a request arrives at. *)
Definition arrival (quota : option (nat * error)) : host :=
  {| resp := http.fresh quota; logs := []; calls := [] |}.

(** The status the handler decides on, from the request and from what
    [Start] meets. *)
Definition decided_status (W : world) (r : http.Request) : nat :=
  if negb (String.eqb (http.URL_Path r) "/tags") then http.StatusNotFound
  else if negb (String.eqb (http.Method r) "GET")
  then http.StatusMethodNotAllowed
  else match pipeErr W, startErr W with
       | None, None => http.StatusOK
       | _, _ => http.StatusInternalServerError
       end.

(** The header [http.Error] sets. *)
Definition error_header : gmap string string :=
  <["X-Content-Type-Options" := "nosniff"]>
    (<["Content-Type" := "text/plain; charset=utf-8"]> ∅).

(** The request [GET /tags]. *)
Definition get_tags : http.Request :=
  {| http.Method := "GET"; http.URL_Path := "/tags" |}.

(** A complete run in which the first goroutine finishes, the subprocess
    ends with the status [nil] and the second goroutine sees it. *)
Definition clean_exit : list conc.label :=
  [conc.Go1; conc.Exit None; conc.Go2; conc.Go2].

(** A world in which [exiftool] starts, the pipe delivers the whole
    listing [tables], and the subprocess ends with the status [nil] after
    the first goroutine is done. *)
Definition calm (tables : list doc.Table) : world :=
  {| pipeErr := None; startErr := None;
     listing := {| tokens := doc.render tables; ending := io_EOF |};
     schedule := clean_exit;
     ctxErr := context.NoErr |}.


(** Two decoders at the same place of their inputs, with the same
    elements open, the second with more input to come. *)
Definition behind (dA dB : xml.Decoder) : Prop :=
  xml.stk dB = xml.stk dA
  /\ exists more, xml.input dB = xml.input dA ++ more.

(** On the shorter input the computation [f] does what it does on the
    longer one, until it fails. *)
Definition Sim {A} (f : M xml.Decoder A) : Prop :=
  forall dA dB,
    behind dA dB ->
    (fst (f dA) = fst (f dB) /\ behind (snd (f dA)) (snd (f dB)))
    \/ exists e, fst (f dA) = Err e.

(** The same for two streamers with the same sink. *)
Definition follows (sA sB : streamer) : Prop :=
  behind (Decoder sA) (Decoder sB) /\ Writer sB = Writer sA.

(** The outcomes of one computation on the shorter and on the longer
    input: the same result, or the first has failed and the sink of the
    second holds what the sink of the first holds, and maybe more. *)
Definition outrun {A} (outA outB : result A * streamer) : Prop :=
  (fst outA = fst outB /\ follows (snd outA) (snd outB))
  \/ ((exists e, fst outA = Err e)
      /\ exists evs,
          trace (Writer (snd outB)) = trace (Writer (snd outA)) ++ evs).

Definition Follows {A} (f : M streamer A) : Prop :=
  forall sA sB, follows sA sB -> outrun (f sA) (f sB).


(** A token the program looks at: all but comments, processing
    instructions and directives. *)
Definition significant (tok : xml.Token) : bool :=
  match tok with
  | xml.TOther => false
  | _ => true
  end.

(** The decoder [dB] is the decoder [dA] without the tokens that are not
    significant. *)
Definition stripped (dA dB : xml.Decoder) : Prop :=
  xml.input dB = List.filter significant (xml.input dA)
  /\ xml.stk dB = xml.stk dA
  /\ xml.rawErr dB = xml.rawErr dA.

(** [f] does the same on both. *)
Definition Strip {A} (f : M xml.Decoder A) : Prop :=
  forall dA dB,
    stripped dA dB ->
    fst (f dA) = fst (f dB) /\ stripped (snd (f dA)) (snd (f dB)).

Definition stripped_s (sA sB : streamer) : Prop :=
  stripped (Decoder sA) (Decoder sB) /\ Writer sB = Writer sA.

Definition Strips {A} (f : M streamer A) : Prop :=
  forall sA sB,
    stripped_s sA sB ->
    fst (f sA) = fst (f sB) /\ stripped_s (snd (f sA)) (snd (f sB)).


(** The listing as [exiftool -listx] writes it: the tables inside one
    root element. *)
Definition rooted (root : string) (attrs : list xml.Attr)
  (tables : list doc.Table) : list xml.Token :=
  doc.open root attrs :: doc.render tables ++ [doc.close root].

(** ** The records and the elements of the input they are made from *)

(** The [desc] children of an element, read off the tokens that follow
    its opening tag: for every child named [desc], in the order of the
    input, the value of its last [lang] attribute (empty without one) and
    the character data directly inside it.  Other children, and the
    elements inside a child, are passed over.  [depth] counts the
    elements that are open inside the element, [cur] is the [desc] child
    at hand. *)
Fixpoint children_of (depth : nat) (cur : option xmlDesc)
  (toks : list xml.Token) : list xmlDesc :=
  match toks with
  | [] => []
  | xml.TStart c :: rest =>
      match depth with
      | 0 =>
          children_of 1
            (if String.eqb (xml.Name c) "desc"
             then Some {| Lang := default "" (lastAttr "lang" (xml.Attrs c));
                          Value := "" |}
             else None)
            rest
      | S _ => children_of (S depth) cur rest
      end
  | xml.TEnd _ :: rest =>
      match depth with
      | 0 => []
      | 1 => from_option (fun d => [d]) [] cur ++ children_of 0 None rest
      | S depth' => children_of depth' cur rest
      end
  | xml.TCharData t :: rest =>
      match depth, cur with
      | 1, Some d =>
          children_of 1 (Some {| Lang := Lang d; Value := Value d +:+ t |})
            rest
      | _, _ => children_of depth cur rest
      end
  | xml.TOther :: rest => children_of depth cur rest
  end.

Definition desc_children (toks : list xml.Token) : list xmlDesc :=
  children_of 0 None toks.

(** The record [v] is made from the element that opens at index [i] of
    the input [toks]: a [tag] element, of which [v] has the attributes
    and the [desc] children, filled in under the [name] of a [table]
    element that opens before it. *)
Definition made_from (toks : list xml.Token) (v : tag) (i : nat) : Prop :=
  exists se t g,
    toks !! i = Some (xml.TStart se)
    /\ xml.Name se = "tag"
    /\ v = fill g t
    /\ Name t = default "" (lastAttr "name" (xml.Attrs se))
    /\ Type_ t = default "" (lastAttr "type" (xml.Attrs se))
    /\ match lastAttr "writable" (xml.Attrs se) with
       | None => Writable t = false
       | Some x => decode.copyValue_bool x = Ok (Writable t)
       end
    /\ Description t = desc_children (drop (S i) toks)
    /\ exists j tb,
        j < i
        /\ toks !! j = Some (xml.TStart tb)
        /\ xml.Name tb = "table"
        /\ attributeByLocalName "name" tb = (g, true).

(** The table of the group [g] has opened before the point the decoder
    of [s] is at. *)
Definition table_seen (toks : list xml.Token) (g : string) (s : streamer)
  : Prop :=
  exists pre j tb,
    toks = pre ++ xml.input (Decoder s)
    /\ j < length pre
    /\ toks !! j = Some (xml.TStart tb)
    /\ xml.Name tb = "table"
    /\ attributeByLocalName "name" tb = (g, true).

(** The streamer [s] in a run over [toks]: its decoder has a rest of
    [toks] before it, and the records in its sink are made from elements
    it has passed, one after the other. *)
Definition traced (toks : list xml.Token) (s : streamer) : Prop :=
  exists pre poss,
    toks = pre ++ xml.input (Decoder s)
    /\ Forall2 (made_from toks) (emitted (Writer s)) poss
    /\ StronglySorted lt poss
    /\ Forall (fun i => i < length pre) poss.

(** * Properties *)

(** ** Loops *)

Section Loops.
Context {St A B : Type}.
Variable mu : St -> nat.
Variable body : A -> M St (A + B).

(** Every iteration that goes round again has lowered the measure. *)
Hypothesis body_decreases :
  forall a s a' s', body a s = (Ok (inl a'), s') -> mu s' < mu s.

Lemma loop_fuel n m a s :
  mu s < n -> mu s < m -> loop body n a s = loop body m a s.
Proof.
  revert m a s. induction n as [|n IH]; intros m a s Hn Hm; [lia|].
  destruct m as [|m]; [lia|].
  simpl. unfold bind.
  destruct (body a s) as [[[a'|b]|e|] s'] eqn:Hb; try reflexivity.
  apply body_decreases in Hb. apply IH; lia.
Qed.

(** The loop equation: [forever] is the Go loop, with no bound left. *)
Lemma forever_unfold a s :
  forever mu body a s =
  match body a s with
  | (Ok (inl a'), s') => forever mu body a' s'
  | (Ok (inr b), s') => (Ok b, s')
  | (Err e, s') => (Err e, s')
  | (OutOfFuel, s') => (OutOfFuel, s')
  end.
Proof.
  unfold forever at 1. simpl. unfold bind.
  destruct (body a s) as [[[a'|b]|e|] s'] eqn:Hb; try reflexivity.
  unfold forever. apply body_decreases in Hb. apply loop_fuel; lia.
Qed.

(** Induction along the iterations of a loop. *)
Lemma forever_ind (P : A -> St -> result B * St -> Prop) :
  (forall a s,
      match body a s with
      | (Ok (inl a'), s') =>
          P a' s' (forever mu body a' s') -> P a s (forever mu body a' s')
      | (Ok (inr b), s') => P a s (Ok b, s')
      | (Err e, s') => P a s (Err e, s')
      | (OutOfFuel, s') => P a s (OutOfFuel, s')
      end) ->
  forall a s, P a s (forever mu body a s).
Proof.
  intros Hstep a s. remember (mu s) as k eqn:Hk.
  revert a s Hk. induction k as [k IH] using lt_wf_ind. intros a s ->.
  rewrite forever_unfold. specialize (Hstep a s).
  destruct (body a s) as [[[a'|b]|e|] s'] eqn:Hb; try exact Hstep.
  apply Hstep. eapply IH; [|reflexivity]. eauto.
Qed.

(** A loop whose body never exhausts a bound never does so itself. *)
Lemma forever_total :
  (forall a s s', body a s <> (OutOfFuel, s')) ->
  forall a s s', forever mu body a s <> (OutOfFuel, s').
Proof.
  intros Hb a s.
  apply (forever_ind (fun _ _ r => forall s', r <> (OutOfFuel, s'))).
  clear a s. intros a s. specialize (Hb a s).
  destruct (body a s) as [[[a'|b]|e|] s'].
  - intros IH. exact IH.
  - intros s'' H. discriminate H.
  - intros s'' H. discriminate H.
  - exfalso. exact (Hb s' eq_refl).
Qed.

(** A loop whose body never raises the measure does not raise it. *)
Lemma forever_le :
  (forall a s r s', body a s = (r, s') -> mu s' <= mu s) ->
  forall a s r s', forever mu body a s = (r, s') -> mu s' <= mu s.
Proof.
  intros Hb a s.
  apply (forever_ind (fun _ s0 out => forall r s', out = (r, s') -> mu s' <= mu s0)).
  clear a s. intros a s.
  destruct (body a s) as [[[a'|b]|e|] s'] eqn:E.
  - intros IH r s'' H. apply IH in H. apply Hb in E. lia.
  - intros r s'' H. inversion H; subst. eapply Hb; eauto.
  - intros r s'' H. inversion H; subst. eapply Hb; eauto.
  - intros r s'' H. inversion H; subst. eapply Hb; eauto.
Qed.

(** A loop whose body lowers the measure whenever it succeeds has
    lowered it when it returns a value. *)
Lemma forever_lt :
  (forall a s r s', body a s = (Ok r, s') -> mu s' < mu s) ->
  forall a s b s', forever mu body a s = (Ok b, s') -> mu s' < mu s.
Proof.
  intros Hb a s.
  apply (forever_ind (fun _ s0 out => forall b s', out = (Ok b, s') -> mu s' < mu s0)).
  clear a s. intros a s.
  destruct (body a s) as [[[a'|b]|e|] s'] eqn:E.
  - intros IH r s'' H. apply IH in H. apply Hb in E. lia.
  - intros r s'' H. inversion H; subst. eapply Hb; eauto.
  - intros r s'' H. inversion H.
  - intros r s'' H. inversion H.
Qed.

End Loops.

(** ** The decoder *)

Lemma Token_cases d :
  match xml.Decoder_Token d with
  | (Ok (xml.TStart se), d') =>
      exists rest, xml.input d = xml.TStart se :: rest
        /\ d' = {| xml.input := rest; xml.rawErr := xml.rawErr d;
                   xml.stk := xml.Name se :: xml.stk d |}
  | (Ok (xml.TEnd ee), d') =>
      exists rest st, xml.input d = xml.TEnd ee :: rest
        /\ xml.stk d = xml.EName ee :: st
        /\ d' = {| xml.input := rest; xml.rawErr := xml.rawErr d;
                   xml.stk := st |}
  | (Ok tok, d') =>
      exists rest, xml.input d = tok :: rest
        /\ d' = {| xml.input := rest; xml.rawErr := xml.rawErr d;
                   xml.stk := xml.stk d |}
  | (Err e, d') =>
      (exists msg, e = xml.syntaxError msg /\ xml.input d' = []
         /\ xml.stk d' = xml.stk d /\ xml.rawErr d' = xml.syntaxError msg)
      \/ d' = d /\ xml.input d = [] /\ e = xml.rawErr d
         /\ (e = io_EOF -> xml.stk d = [])
      \/ d' = d /\ xml.input d = [] /\ xml.rawErr d = io_EOF
         /\ e = xml.syntaxError "unexpected EOF"
  | (OutOfFuel, _) => False
  end.
Proof.
  unfold xml.Decoder_Token, xml.broken.
  destruct d as [inp re st]; simpl.
  destruct inp as [|[se|ee|data|] rest]; simpl.
  - destruct re; destruct st; simpl; first
      [ right; left; repeat split; congruence
      | right; right; repeat split; congruence ].
  - eauto.
  - destruct st as [|top st]; simpl.
    + left. eexists. repeat split.
    + destruct (String.eqb_spec top (xml.EName ee)) as [->|Hne].
      * eauto.
      * left. eexists. repeat split.
  - eauto.
  - eauto.
Qed.

Lemma Token_ok_lt d tok d' :
  xml.Decoder_Token d = (Ok tok, d') -> xml.remaining d' < xml.remaining d.
Proof.
  intros H. pose proof (Token_cases d) as C. rewrite H in C.
  unfold xml.remaining.
  destruct tok;
    [ destruct C as (rest & -> & ->)
    | destruct C as (rest & st & -> & _ & ->)
    | destruct C as (rest & -> & ->)
    | destruct C as (rest & -> & ->) ]; simpl; lia.
Qed.

Lemma Token_le d r d' :
  xml.Decoder_Token d = (r, d') -> xml.remaining d' <= xml.remaining d.
Proof.
  intros H. destruct r as [tok|e|].
  - apply Token_ok_lt in H. lia.
  - pose proof (Token_cases d) as C. rewrite H in C. unfold xml.remaining.
    destruct C as [(msg & _ & -> & _)|[(-> & _)|(-> & _)]]; simpl; lia.
  - pose proof (Token_cases d) as C. rewrite H in C. destruct C.
Qed.

Lemma Token_total d d' : xml.Decoder_Token d <> (OutOfFuel, d').
Proof.
  intros H. pose proof (Token_cases d) as C. rewrite H in C. exact C.
Qed.

(** ** [search] *)

Lemma search_is_loop q : search q = forever xml.remaining (search_body q) tt.
Proof. reflexivity. Qed.

Lemma search_body_ok_lt q a d r d' :
  search_body q a d = (Ok r, d') -> xml.remaining d' < xml.remaining d.
Proof.
  unfold search_body. unfold_go.
  destruct (xml.Decoder_Token d) as [[tok|e|] d1] eqn:T; try discriminate.
  apply Token_ok_lt in T. intros H.
  assert (d' = d1) as ->; [|exact T].
  destruct tok; repeat match type of H with
                       | context [if ?b then _ else _] => destruct b
                       end; congruence.
Qed.

Lemma search_body_dec q a d a' d' :
  search_body q a d = (Ok (inl a'), d') -> xml.remaining d' < xml.remaining d.
Proof. apply search_body_ok_lt. Qed.

(** The loop of [search], one token at a time. *)
Lemma search_unfold q d :
  search q d =
  match xml.Decoder_Token d with
  | (Err e, d') => (Err (Errorf_w "decoder.Token" e), d')
  | (OutOfFuel, d') => (OutOfFuel, d')
  | (Ok (xml.TStart v), d') =>
      if String.eqb (xmlQuery.NamedStart q) "" then search q d'
      else if String.eqb (xml.Name v) (xmlQuery.NamedStart q)
      then (Ok {| xmlSearchResult.NamedStart := Some v;
                  xmlSearchResult.NamedEnd := None |}, d')
      else search q d'
  | (Ok (xml.TEnd v), d') =>
      if String.eqb (xmlQuery.NamedEnd q) "" then search q d'
      else if String.eqb (xml.EName v) (xmlQuery.NamedStart q)
      then (Ok {| xmlSearchResult.NamedStart := None;
                  xmlSearchResult.NamedEnd := Some v |}, d')
      else search q d'
  | (Ok _, d') => search q d'
  end.
Proof.
  rewrite search_is_loop.
  rewrite forever_unfold by apply search_body_dec.
  unfold search_body at 1. unfold_go.
  destruct (xml.Decoder_Token d) as [[tok|e|] d1]; try reflexivity.
  destruct tok; repeat match goal with
                       | |- context [if ?b then _ else _] => destruct b
                       end; reflexivity.
Qed.

Lemma search_ok_lt q d r d' :
  search q d = (Ok r, d') -> xml.remaining d' < xml.remaining d.
Proof.
  rewrite search_is_loop. apply forever_lt.
  - apply search_body_dec.
  - apply search_body_ok_lt.
Qed.

Lemma search_le q d r d' :
  search q d = (r, d') -> xml.remaining d' <= xml.remaining d.
Proof.
  rewrite search_is_loop. apply forever_le.
  - apply search_body_dec.
  - clear. intros a d r d'. unfold search_body. unfold_go.
    destruct (xml.Decoder_Token d) as [[tok|e|] d1] eqn:T;
      apply Token_le in T; intros H.
    + assert (d' = d1) as ->; [|exact T].
      destruct tok; repeat match type of H with
                           | context [if ?b then _ else _] => destruct b
                           end; congruence.
    + congruence.
    + congruence.
Qed.

Lemma search_total q d d' : search q d <> (OutOfFuel, d').
Proof.
  rewrite search_is_loop. apply forever_total.
  - apply search_body_dec.
  - clear. intros a d d'. unfold search_body. unfold_go.
    destruct (xml.Decoder_Token d) as [[tok|e|] d1] eqn:T.
    + destruct tok; repeat match goal with
                           | |- context [if ?b then _ else _] => destruct b
                           end; congruence.
    + congruence.
    + exfalso. eapply Token_total; eauto.
Qed.

Lemma search_outcome_later q d d1 tok r :
  xml.Decoder_Token d = (Ok tok, d1) ->
  search_outcome q d1 r -> search_outcome q d r.
Proof.
  intros T H. pose proof (Token_cases d) as C. rewrite T in C.
  assert (forall x, In x (xml.input d1) -> In x (xml.input d)) as Hin.
  { destruct tok;
      [ destruct C as (rest & -> & ->)
      | destruct C as (rest & st & -> & _ & ->)
      | destruct C as (rest & -> & ->)
      | destruct C as (rest & -> & ->) ]; simpl; auto. }
  destruct H as [(v & ? & ? & ?)|(v & ? & ? & ?)]; [left|right];
    exists v; auto.
Qed.

Lemma Token_ok_in d tok d1 :
  xml.Decoder_Token d = (Ok tok, d1) -> In tok (xml.input d).
Proof.
  intros T. pose proof (Token_cases d) as C. rewrite T in C.
  destruct tok;
    [ destruct C as (rest & -> & _)
    | destruct C as (rest & st & -> & _)
    | destruct C as (rest & -> & _)
    | destruct C as (rest & -> & _) ]; simpl; auto.
Qed.

Lemma search_ok_outcome q d r d' :
  search q d = (Ok r, d') -> search_outcome q d r.
Proof.
  remember (xml.remaining d) as k eqn:Hk. revert d Hk.
  induction k as [k IH] using lt_wf_ind. intros d -> H.
  rewrite search_unfold in H.
  destruct (xml.Decoder_Token d) as [[tok|e|] d1] eqn:T; try discriminate.
  pose proof (Token_ok_lt _ _ _ T) as Hlt.
  pose proof (Token_ok_in _ _ _ T) as Hin.
  assert (search q d1 = (Ok r, d') -> search_outcome q d r) as Hrec.
  { intros H1. eapply search_outcome_later; eauto. }
  destruct tok as [v|v|data|]; auto.
  - destruct (String.eqb_spec (xmlQuery.NamedStart q) ""); auto.
    destruct (String.eqb_spec (xml.Name v) (xmlQuery.NamedStart q)); auto.
    inversion H; subst. left. exists v. auto.
  - destruct (String.eqb_spec (xmlQuery.NamedEnd q) ""); auto.
    destruct (String.eqb_spec (xml.EName v) (xmlQuery.NamedStart q)); auto.
    inversion H; subst. right. exists v. auto.
Qed.

(** Of [NamedEnd] the search reads nothing but whether it is empty. *)
Lemma search_NamedEnd_flag q q' d :
  xmlQuery.NamedStart q' = xmlQuery.NamedStart q ->
  (xmlQuery.NamedEnd q' = "" <-> xmlQuery.NamedEnd q = "") ->
  search q' d = search q d.
Proof.
  intros Hs He.
  remember (xml.remaining d) as k eqn:Hk. revert d Hk.
  induction k as [k IH] using lt_wf_ind. intros d ->.
  rewrite (search_unfold q), (search_unfold q').
  destruct (xml.Decoder_Token d) as [[tok|e|] d1] eqn:T; try reflexivity.
  pose proof (Token_ok_lt _ _ _ T) as Hlt.
  assert (search q' d1 = search q d1) as Hrec by (eapply IH; eauto).
  rewrite Hs, Hrec.
  destruct tok as [v|v|data|]; try reflexivity.
  destruct (String.eqb_spec (xmlQuery.NamedEnd q) "") as [E|E];
    destruct (String.eqb_spec (xmlQuery.NamedEnd q') "") as [E'|E'];
    try reflexivity; tauto.
Qed.

(** C7.  A successful search result has exactly one of its two fields set:
    either [NamedStart], to an opening token of the input whose name is the
    query's [NamedStart], or [NamedEnd], to a closing token of the input
    whose name is again the query's [NamedStart] (and then the query's
    [NamedEnd] is not empty).  The query's [NamedEnd] only enables the
    closing branch: every query with the same [NamedStart] and a [NamedEnd]
    that is empty or not like this one's gives the same search. *)
Theorem search_result_exclusive (q : xmlQuery.t) (d d' : xml.Decoder)
  (r : xmlSearchResult.t) :
  search q d = (Ok r, d') ->
  ((exists v,
       xmlSearchResult.NamedStart r = Some v
       /\ xmlSearchResult.NamedEnd r = None
       /\ In (xml.TStart v) (xml.input d)
       /\ xml.Name v = xmlQuery.NamedStart q)
   \/ (exists v,
          xmlSearchResult.NamedStart r = None
          /\ xmlSearchResult.NamedEnd r = Some v
          /\ In (xml.TEnd v) (xml.input d)
          /\ xml.EName v = xmlQuery.NamedStart q
          /\ xmlQuery.NamedEnd q <> ""))
  /\ (forall q',
         xmlQuery.NamedStart q' = xmlQuery.NamedStart q ->
         (xmlQuery.NamedEnd q' = "" <-> xmlQuery.NamedEnd q = "") ->
         search q' d = (Ok r, d')).
Proof.
  intros H. split.
  - destruct (search_ok_outcome _ _ _ _ H)
      as [(v & -> & Hin & Hn & _)|(v & -> & Hin & Hn & He)].
    + left. exists v. auto.
    + right. exists v. auto.
  - intros q' Hs He. rewrite <- H. apply search_NamedEnd_flag; assumption.
Qed.

(** The tag search of [streamTags] at [</table></tag>] inside [<tag>]:
    the closing of the table is passed over, the closing of the tag is
    what the search returns as its [NamedEnd]. *)
Lemma search_result_exclusive_witness :
  let d := {| xml.input := [doc.close "table"; doc.close "tag"];
              xml.rawErr := io_EOF; xml.stk := ["table"; "tag"] |} in
  let r := {| xmlSearchResult.NamedStart := None;
              xmlSearchResult.NamedEnd := Some {| xml.EName := "tag" |} |} in
  let d' := {| xml.input := []; xml.rawErr := io_EOF; xml.stk := [] |} in
  search tagQuery d = (Ok r, d')
  /\ search {| xmlQuery.NamedStart := "tag"; xmlQuery.NamedEnd := "x" |} d
     = (Ok r, d').
Proof.
  intros d r d'.
  assert (search tagQuery d = (Ok r, d')) as H by (vm_compute; reflexivity).
  split; [exact H|].
  apply (proj2 (search_result_exclusive tagQuery d d' r H)).
  - reflexivity.
  - simpl. split; discriminate.
Defined.

(** ** The decoder inside an element *)

Lemma Token_sane d r d' :
  sane d -> xml.Decoder_Token d = (r, d') -> sane d'.
Proof.
  intros Hs H. pose proof (Token_cases d) as C. rewrite H in C.
  unfold sane in *. destruct r as [tok|e|].
  - destruct tok;
      [ destruct C as (rest & _ & ->)
      | destruct C as (rest & st & _ & _ & ->)
      | destruct C as (rest & _ & ->)
      | destruct C as (rest & _ & ->) ]; exact Hs.
  - destruct C as [(msg & _ & _ & _ & ->)|[(-> & _)|(-> & _)]]; auto.
  - destruct C.
Qed.

Lemma Token_err_inside d e d' :
  sane d -> xml.stk d <> [] -> xml.Decoder_Token d = (Err e, d') ->
  errors_Is_EOF e = false.
Proof.
  intros Hs Hne H. pose proof (Token_cases d) as C. rewrite H in C.
  destruct C as [(msg & -> & _)|[(_ & _ & -> & Hstk)|(_ & _ & _ & ->)]];
    try reflexivity.
  destruct Hs as [Hs|Hs]; [|exact Hs]. exfalso. auto.
Qed.

Lemma Token_depth d tok d' :
  xml.Decoder_Token d = (Ok tok, d') ->
  match tok with
  | xml.TStart _ => length (xml.stk d') = S (length (xml.stk d))
  | xml.TEnd _ => S (length (xml.stk d')) = length (xml.stk d)
  | _ => length (xml.stk d') = length (xml.stk d)
  end.
Proof.
  intros H. pose proof (Token_cases d) as C. rewrite H in C.
  destruct tok;
    [ destruct C as (rest & _ & ->)
    | destruct C as (rest & st & _ & -> & ->)
    | destruct C as (rest & _ & ->)
    | destruct C as (rest & _ & ->) ]; reflexivity.
Qed.

Lemma Skip_body_dec k d k' d' :
  xml.Skip_body k d = (Ok (inl k'), d') -> xml.remaining d' < xml.remaining d.
Proof.
  unfold xml.Skip_body. unfold_go.
  destruct (xml.Decoder_Token d) as [[tok|e|] d1] eqn:T; try discriminate.
  apply Token_ok_lt in T. intros H.
  assert (d' = d1) as ->; [|exact T].
  destruct tok; try destruct k; congruence.
Qed.

Lemma Skip_body_le k d r d' :
  xml.Skip_body k d = (r, d') -> xml.remaining d' <= xml.remaining d.
Proof.
  unfold xml.Skip_body. unfold_go.
  destruct (xml.Decoder_Token d) as [[tok|e|] d1] eqn:T;
    apply Token_le in T; intros H.
  - assert (d' = d1) as ->; [|exact T].
    destruct tok; try destruct k; congruence.
  - congruence.
  - congruence.
Qed.

Lemma Skip_le d r d' :
  xml.Decoder_Skip d = (r, d') -> xml.remaining d' <= xml.remaining d.
Proof.
  unfold xml.Decoder_Skip. apply forever_le.
  - apply Skip_body_dec.
  - apply Skip_body_le.
Qed.

(** [Skip] called [k] elements below the one to close. *)
Lemma Skip_loop_closes k d base :
  sane d -> depth_is base (S k) d ->
  closes base (forever xml.remaining xml.Skip_body k d).
Proof.
  revert base.
  apply (forever_ind xml.remaining xml.Skip_body Skip_body_dec
           (fun k d out => forall base,
                sane d -> depth_is base (S k) d -> closes base out)).
  clear k d. intros k d. unfold xml.Skip_body. unfold_go.
  destruct (xml.Decoder_Token d) as [[tok|e|] d1] eqn:T.
  - pose proof (Token_depth _ _ _ T) as Hd.
    destruct tok as [v|v|data|].
    + intros IH base Hs Hk. apply IH; [eapply Token_sane; eauto|].
      unfold depth_is in *. lia.
    + destruct k as [|k].
      * intros base Hs Hk. simpl. split; [eapply Token_sane; eauto|].
        unfold depth_is in *. lia.
      * intros IH base Hs Hk. apply IH; [eapply Token_sane; eauto|].
        unfold depth_is in *. lia.
    + intros IH base Hs Hk. apply IH; [eapply Token_sane; eauto|].
      unfold depth_is in *. lia.
    + intros IH base Hs Hk. apply IH; [eapply Token_sane; eauto|].
      unfold depth_is in *. lia.
  - intros base Hs Hk. simpl. split; [eapply Token_sane; eauto|].
    eapply Token_err_inside; eauto.
    unfold depth_is in Hk. destruct (xml.stk d); [simpl in Hk; lia|discriminate].
  - exfalso. eapply Token_total; eauto.
Qed.

Lemma Skip_closes d base :
  sane d -> depth_is base 1 d -> closes base (xml.Decoder_Skip d).
Proof. apply Skip_loop_closes. Qed.

Lemma Skip_total d d' : xml.Decoder_Skip d <> (OutOfFuel, d').
Proof.
  unfold xml.Decoder_Skip. apply forever_total.
  - apply Skip_body_dec.
  - clear. intros k d d'. unfold xml.Skip_body. unfold_go.
    destruct (xml.Decoder_Token d) as [[tok|e|] d1] eqn:T.
    + destruct tok; try destruct k; congruence.
    + congruence.
    + exfalso. eapply Token_total; eauto.
Qed.

Lemma chardata_body_le data d r d' :
  xml.chardata_body data d = (r, d') -> xml.remaining d' <= xml.remaining d.
Proof.
  unfold xml.chardata_body. unfold_go.
  destruct (xml.Decoder_Token d) as [[tok|e|] d1] eqn:T;
    apply Token_le in T; intros H; [|congruence|congruence].
  destruct tok; try (assert (d' = d1) as -> by congruence; exact T).
  destruct (xml.Decoder_Skip d1) as [[[]|e|] d2] eqn:K;
    apply Skip_le in K; assert (d' = d2) as -> by congruence; lia.
Qed.

Lemma chardata_body_dec data d data' d' :
  xml.chardata_body data d = (Ok (inl data'), d') ->
  xml.remaining d' < xml.remaining d.
Proof.
  unfold xml.chardata_body. unfold_go.
  destruct (xml.Decoder_Token d) as [[tok|e|] d1] eqn:T; try discriminate.
  apply Token_ok_lt in T. intros H.
  destruct tok; try (assert (d' = d1) as -> by congruence; exact T).
  destruct (xml.Decoder_Skip d1) as [[[]|e|] d2] eqn:K;
    apply Skip_le in K; assert (d' = d2) as -> by congruence; lia.
Qed.

Lemma chardata_le d r d' :
  xml.unmarshal_chardata d = (r, d') -> xml.remaining d' <= xml.remaining d.
Proof.
  unfold xml.unmarshal_chardata. apply forever_le.
  - apply chardata_body_dec.
  - apply chardata_body_le.
Qed.

Lemma chardata_total d d' : xml.unmarshal_chardata d <> (OutOfFuel, d').
Proof.
  unfold xml.unmarshal_chardata. apply forever_total.
  - apply chardata_body_dec.
  - clear. intros data d d'. unfold xml.chardata_body. unfold_go.
    destruct (xml.Decoder_Token d) as [[tok|e|] d1] eqn:T.
    + destruct tok; try congruence.
      destruct (xml.Decoder_Skip d1) as [[[]|e|] d2] eqn:K; try congruence.
      exfalso. eapply Skip_total; eauto.
    + congruence.
    + exfalso. eapply Token_total; eauto.
Qed.

Lemma chardata_loop_closes data d base :
  sane d -> depth_is base 1 d ->
  closes base (forever xml.remaining xml.chardata_body data d).
Proof.
  revert base.
  apply (forever_ind xml.remaining xml.chardata_body chardata_body_dec
           (fun _ d out => forall base,
                sane d -> depth_is base 1 d -> closes base out)).
  clear data d. intros data d. unfold xml.chardata_body. unfold_go.
  destruct (xml.Decoder_Token d) as [[tok|e|] d1] eqn:T.
  - pose proof (Token_depth _ _ _ T) as Hd.
    assert (sane d -> sane d1) as Hs1 by (intros; eapply Token_sane; eauto).
    destruct tok as [v|v|t|].
    + destruct (xml.Decoder_Skip d1) as [[[]|e|] d2] eqn:K.
      * intros IH base Hs Hk.
        pose proof (Skip_closes d1 (base + 1) (Hs1 Hs)) as C.
        rewrite K in C. simpl in C.
        destruct C as [Hs2 Hd2]; [unfold depth_is in *; lia|].
        apply IH; [exact Hs2|]. unfold depth_is in *. lia.
      * intros base Hs Hk.
        pose proof (Skip_closes d1 (base + 1) (Hs1 Hs)) as C.
        rewrite K in C. simpl in C. apply C. unfold depth_is in *. lia.
      * exfalso. eapply Skip_total; eauto.
    + intros base Hs Hk. simpl. split; [auto|]. unfold depth_is in *. lia.
    + intros IH base Hs Hk. apply IH; [auto|]. unfold depth_is in *. lia.
    + intros IH base Hs Hk. apply IH; [auto|]. unfold depth_is in *. lia.
  - intros base Hs Hk. simpl. split; [eapply Token_sane; eauto|].
    eapply Token_err_inside; eauto.
    unfold depth_is in Hk. destruct (xml.stk d); [simpl in Hk; lia|discriminate].
  - exfalso. eapply Token_total; eauto.
Qed.

Lemma chardata_closes d base :
  sane d -> depth_is base 1 d -> closes base (xml.unmarshal_chardata d).
Proof. apply chardata_loop_closes. Qed.

Lemma unmarshalPath_tag_le c v d r d' :
  decode.unmarshalPath_tag c v d = (r, d') ->
  xml.remaining d' <= xml.remaining d.
Proof.
  unfold decode.unmarshalPath_tag, decode.unmarshal_xmlDesc. unfold_go.
  repeat match goal with
         | |- context [if ?b then _ else _] => destruct b
         end;
    try (destruct (xml.unmarshal_chardata d) as [[x|e|] d2] eqn:K;
         apply chardata_le in K; intros H;
         assert (d' = d2) as -> by congruence; exact K).
  - intros H. assert (d' = d) as -> by congruence. lia.
  - destruct (xml.Decoder_Skip d) as [[x|e|] d2] eqn:K;
      apply Skip_le in K; intros H;
      assert (d' = d2) as -> by congruence; exact K.
Qed.

Lemma unmarshalPath_tag_total c v d d' :
  decode.unmarshalPath_tag c v d <> (OutOfFuel, d').
Proof.
  unfold decode.unmarshalPath_tag, decode.unmarshal_xmlDesc. unfold_go.
  repeat match goal with
         | |- context [if ?b then _ else _] => destruct b
         end;
    try congruence;
    try match goal with
        | |- context [xml.unmarshal_chardata d] =>
            destruct (xml.unmarshal_chardata d) as [[x|e|] d2] eqn:K;
            try congruence; exfalso; eapply chardata_total; solve [eauto]
        end.
  destruct (xml.Decoder_Skip d) as [[x|e|] d2] eqn:K;
    try congruence; exfalso; eapply Skip_total; eauto.
Qed.

Lemma unmarshalPath_tag_closes c v d base :
  sane d -> depth_is base 1 d ->
  closes base (decode.unmarshalPath_tag c v d).
Proof.
  intros Hs Hd.
  pose proof (chardata_closes d base Hs Hd) as C1.
  pose proof (Skip_closes d base Hs Hd) as C2.
  unfold decode.unmarshalPath_tag, decode.unmarshal_xmlDesc. unfold_go.
  repeat match goal with
         | |- context [if ?b then _ else _] => destruct b
         end;
    try (destruct (xml.unmarshal_chardata d) as [[x|e|] d2]; exact C1).
  - simpl. auto.
  - destruct (xml.Decoder_Skip d) as [[x|e|] d2]; exact C2.
Qed.

Lemma children_body_le v d r d' :
  decode.children_body v d = (r, d') -> xml.remaining d' <= xml.remaining d.
Proof.
  unfold decode.children_body. unfold_go.
  destruct (xml.Decoder_Token d) as [[tok|e|] d1] eqn:T;
    apply Token_le in T; intros H; [|congruence|congruence].
  destruct tok; try (assert (d' = d1) as -> by congruence; exact T).
  destruct (decode.unmarshalPath_tag se v d1) as [[x|e|] d2] eqn:K;
    apply unmarshalPath_tag_le in K;
    assert (d' = d2) as -> by congruence; lia.
Qed.

Lemma children_body_dec v d v' d' :
  decode.children_body v d = (Ok (inl v'), d') ->
  xml.remaining d' < xml.remaining d.
Proof.
  unfold decode.children_body. unfold_go.
  destruct (xml.Decoder_Token d) as [[tok|e|] d1] eqn:T; try discriminate.
  apply Token_ok_lt in T. intros H.
  destruct tok; try (assert (d' = d1) as -> by congruence; exact T).
  destruct (decode.unmarshalPath_tag se v d1) as [[x|e|] d2] eqn:K;
    apply unmarshalPath_tag_le in K;
    assert (d' = d2) as -> by congruence; lia.
Qed.

Lemma children_loop_closes v d base :
  sane d -> depth_is base 1 d ->
  closes base (decode.unmarshalChildren_tag v d).
Proof.
  revert base. unfold decode.unmarshalChildren_tag.
  apply (forever_ind xml.remaining decode.children_body children_body_dec
           (fun _ d out => forall base,
                sane d -> depth_is base 1 d -> closes base out)).
  clear v d. intros v d. unfold decode.children_body. unfold_go.
  destruct (xml.Decoder_Token d) as [[tok|e|] d1] eqn:T.
  - pose proof (Token_depth _ _ _ T) as Hd.
    assert (sane d -> sane d1) as Hs1 by (intros; eapply Token_sane; eauto).
    destruct tok as [c|c|t|].
    + destruct (decode.unmarshalPath_tag c v d1) as [[x|e|] d2] eqn:K.
      * intros IH base Hs Hk.
        pose proof (unmarshalPath_tag_closes c v d1 (base + 1) (Hs1 Hs)) as C.
        rewrite K in C. simpl in C.
        destruct C as [Hs2 Hd2]; [unfold depth_is in *; lia|].
        apply IH; [exact Hs2|]. unfold depth_is in *. lia.
      * intros base Hs Hk.
        pose proof (unmarshalPath_tag_closes c v d1 (base + 1) (Hs1 Hs)) as C.
        rewrite K in C. simpl in C. apply C. unfold depth_is in *. lia.
      * exfalso. eapply unmarshalPath_tag_total; eauto.
    + intros base Hs Hk. simpl. split; [auto|]. unfold depth_is in *. lia.
    + intros IH base Hs Hk. apply IH; [auto|]. unfold depth_is in *. lia.
    + intros IH base Hs Hk. apply IH; [auto|]. unfold depth_is in *. lia.
  - intros base Hs Hk. simpl. split; [eapply Token_sane; eauto|].
    eapply Token_err_inside; eauto.
    unfold depth_is in Hk. destruct (xml.stk d); [simpl in Hk; lia|discriminate].
  - exfalso. eapply Token_total; eauto.
Qed.

Lemma unmarshalAttrs_tag_err attrs v e :
  decode.unmarshalAttrs_tag attrs v = Err e -> errors_Is_EOF e = false.
Proof.
  revert v. induction attrs as [|a attrs IH]; intros v; simpl; [discriminate|].
  repeat match goal with
         | |- context [if ?b then _ else _] => destruct b
         end; eauto.
  unfold decode.copyValue_bool.
  destruct (String.eqb (xml.AValue a) ""); eauto.
  destruct (decode.ParseBool _); eauto.
  intros H. inversion H. reflexivity.
Qed.

Lemma unmarshalAttrs_tag_total attrs v :
  decode.unmarshalAttrs_tag attrs v <> OutOfFuel.
Proof.
  revert v. induction attrs as [|a attrs IH]; intros v; simpl; [discriminate|].
  repeat match goal with
         | |- context [if ?b then _ else _] => destruct b
         end; eauto.
  unfold decode.copyValue_bool.
  destruct (String.eqb (xml.AValue a) ""); eauto.
  destruct (decode.ParseBool _); eauto.
Qed.

Lemma DecodeElement_le se d r d' :
  decode.DecodeElement se d = (r, d') -> xml.remaining d' <= xml.remaining d.
Proof.
  unfold decode.DecodeElement.
  destruct (decode.unmarshalAttrs_tag _ _) as [v|e|].
  - unfold decode.unmarshalChildren_tag. apply forever_le.
    + apply children_body_dec.
    + apply children_body_le.
  - intros H. inversion H. lia.
  - intros H. inversion H. lia.
Qed.

Lemma DecodeElement_total se d d' :
  decode.DecodeElement se d <> (OutOfFuel, d').
Proof.
  unfold decode.DecodeElement.
  destruct (decode.unmarshalAttrs_tag _ _) as [v|e|] eqn:A.
  - unfold decode.unmarshalChildren_tag. apply forever_total.
    + apply children_body_dec.
    + clear. intros v d d'. unfold decode.children_body. unfold_go.
      destruct (xml.Decoder_Token d) as [[tok|e|] d1] eqn:T.
      * destruct tok; try congruence.
        destruct (decode.unmarshalPath_tag se v d1) as [[x|e|] d2] eqn:K;
          try congruence.
        exfalso. eapply unmarshalPath_tag_total; eauto.
      * congruence.
      * exfalso. eapply Token_total; eauto.
  - congruence.
  - exfalso. eapply unmarshalAttrs_tag_total; eauto.
Qed.

(** [DecodeElement] on an element just opened reads to its end, and an
    error of it is never [io.EOF]. *)
Lemma DecodeElement_closes se d base :
  sane d -> depth_is base 1 d -> closes base (decode.DecodeElement se d).
Proof.
  intros Hs Hd. unfold decode.DecodeElement.
  destruct (decode.unmarshalAttrs_tag _ _) as [v|e|] eqn:A.
  - apply children_loop_closes; assumption.
  - simpl. split; [assumption|]. eapply unmarshalAttrs_tag_err; eauto.
  - exfalso. eapply unmarshalAttrs_tag_total; eauto.
Qed.

(** ** The sink and [emitTag] *)

Lemma accept_cases ev w :
  match accept ev w with
  | (Ok _, w') => trace w' = trace w ++ [ev] /\ accepts w
  | (Err e, w') => w' = w /\ quota w = Some (0, e)
  | (OutOfFuel, _) => False
  end.
Proof.
  unfold accept, accepts. destruct (quota w) as [[[|n] e]|]; simpl; auto;
    split; auto; intros e'; discriminate.
Qed.

Lemma Token_err_again d e d' :
  xml.Decoder_Token d = (Err e, d') -> xml.Decoder_Token d' = (Err e, d').
Proof.
  intros H. pose proof (Token_cases d) as C. rewrite H in C.
  destruct C as [(msg & -> & Hi & _ & Hr)|[(-> & _)|(-> & _)]]; auto.
  unfold xml.Decoder_Token. rewrite Hi, Hr. destruct d'; reflexivity.
Qed.

Lemma Token_err_sane d e d' :
  sane d -> xml.Decoder_Token d = (Err e, d') ->
  e = io_EOF \/ errors_Is_EOF e = false.
Proof.
  intros Hs H. pose proof (Token_cases d) as C. rewrite H in C.
  destruct C as [(msg & -> & _)|[(_ & _ & -> & _)|(_ & _ & _ & ->)]]; auto.
Qed.

(** What [search] leaves behind. *)
Lemma search_cases q d :
  match search q d with
  | (Ok r, d') =>
      xml.remaining d' < xml.remaining d
      /\ (sane d -> sane d')
      /\ (xmlSearchResult.NamedStart r <> None -> xml.stk d' <> [])
      /\ (xmlQuery.NamedEnd q = "" -> xmlSearchResult.NamedStart r <> None)
  | (Err e, d') =>
      xml.remaining d' <= xml.remaining d
      /\ (sane d -> sane d')
      /\ exists e0, e = Errorf_w "decoder.Token" e0
                    /\ xml.Decoder_Token d' = (Err e0, d')
                    /\ (sane d -> e0 = io_EOF \/ errors_Is_EOF e0 = false)
  | (OutOfFuel, _) => False
  end.
Proof.
  remember (xml.remaining d) as k eqn:Hk. revert d Hk.
  induction k as [k IH] using lt_wf_ind. intros d ->.
  rewrite search_unfold.
  destruct (xml.Decoder_Token d) as [[tok|e|] d1] eqn:T.
  - pose proof (Token_ok_lt _ _ _ T) as Hlt.
    assert (sane d -> sane d1) as Hs1 by (intros; eapply Token_sane; eauto).
    assert (match search q d1 with
            | (Ok r, d') =>
                xml.remaining d' < xml.remaining d
                /\ (sane d -> sane d')
                /\ (xmlSearchResult.NamedStart r <> None -> xml.stk d' <> [])
                /\ (xmlQuery.NamedEnd q = "" ->
                    xmlSearchResult.NamedStart r <> None)
            | (Err e, d') =>
                xml.remaining d' <= xml.remaining d
                /\ (sane d -> sane d')
                /\ exists e0, e = Errorf_w "decoder.Token" e0
                              /\ xml.Decoder_Token d' = (Err e0, d')
                              /\ (sane d ->
                                  e0 = io_EOF \/ errors_Is_EOF e0 = false)
            | (OutOfFuel, _) => False
            end) as Hrec.
    { specialize (IH _ Hlt d1 eq_refl).
      destruct (search q d1) as [[r|e|] d2]; [| |exact IH].
      - destruct IH as (? & ? & ? & ?). repeat split; auto. lia.
      - destruct IH as (? & ? & e0 & ? & ? & ?). repeat split; auto; [lia|].
        exists e0. auto. }
    pose proof (Token_depth _ _ _ T) as Hd.
    destruct tok as [v|v|data|]; auto.
    + destruct (String.eqb_spec (xmlQuery.NamedStart q) ""); auto.
      destruct (String.eqb_spec (xml.Name v) (xmlQuery.NamedStart q)); auto.
      simpl. repeat split; auto; try discriminate.
      intros _ E. rewrite E in Hd. discriminate.
    + destruct (String.eqb_spec (xmlQuery.NamedEnd q) ""); auto.
      destruct (String.eqb_spec (xml.EName v) (xmlQuery.NamedStart q)); auto.
      simpl. repeat split; auto; try contradiction.
  - repeat split.
    + eapply Token_le; eauto.
    + intros; eapply Token_sane; eauto.
    + exists e. repeat split.
      * eapply Token_err_again; eauto.
      * intros; eapply Token_err_sane; eauto.
  - eapply Token_total; eauto.
Qed.

(** What [emitTag] does: it decodes the element, fills the record in and
    hands it to the encoder; or it fails in one of the two calls. *)
Lemma emitTag_cases g se s :
  match emitTag g se s with
  | (Ok _, s') =>
      exists t,
        decode.DecodeElement se (Decoder s) = (Ok t, Decoder s')
        /\ trace (Writer s') = trace (Writer s) ++ [EvEncode (fill g t)]
        /\ accepts (Writer s)
  | (Err e, s') =>
      (exists e0,
          e = Errorf_w "s.Decoder.DecodeElement" e0
          /\ decode.DecodeElement se (Decoder s) = (Err e0, Decoder s')
          /\ Writer s' = Writer s)
      \/ (exists t w,
             e = Errorf_w "s.Encoder.Encode" w
             /\ decode.DecodeElement se (Decoder s) = (Ok t, Decoder s')
             /\ Writer s' = Writer s
             /\ quota (Writer s) = Some (0, w))
  | (OutOfFuel, _) => False
  end.
Proof.
  unfold emitTag, Encoder_Encode. unfold_go.
  destruct (decode.DecodeElement se (Decoder s)) as [[t|e|] d1] eqn:D; simpl.
  - pose proof (accept_cases (EvEncode (fill g t)) (Writer s)) as C.
    destruct (accept (EvEncode (fill g t)) (Writer s)) as [[[]|e|] w1]; simpl.
    + destruct C. exists t. auto.
    + destruct C as [-> Hq]. right. exists t, e. auto.
    + exact C.
  - left. exists e. auto.
  - eapply DecodeElement_total; eauto.
Qed.

(** ** [streamTags] and [stream] *)

Lemma extends_refl Q s s' : Writer s' = Writer s -> extends Q s s'.
Proof.
  intros H. exists []. rewrite H, app_nil_r. split; [reflexivity|constructor].
Qed.

Lemma extends_trans Q s1 s2 s3 :
  extends Q s1 s2 -> extends Q s2 s3 -> extends Q s1 s3.
Proof.
  intros (e1 & H1 & F1) (e2 & H2 & F2). exists (e1 ++ e2).
  rewrite H2, H1, app_assoc. split; [reflexivity|].
  apply Forall_app. auto.
Qed.

Lemma extends_weaken (Q Q' : event -> Prop) s s' :
  (forall ev, Q ev -> Q' ev) -> extends Q s s' -> extends Q' s s'.
Proof.
  intros HQ (evs & H & F). exists evs. split; [exact H|].
  eapply Forall_impl; eauto.
Qed.

Lemma emitTag_post g se s s1 :
  pending s1 < pending s ->
  (sane (Decoder s) -> sane (Decoder s1)) ->
  extends (tag_event g) s s1 ->
  xml.stk (Decoder s1) <> [] ->
  streamTags_post g s (wrap_w "s.emitTag" (emitTag g se) s1).
Proof.
  intros Hlt Hs Hext Hne. unfold wrap_w.
  pose proof (emitTag_cases g se s1) as T.
  pose proof (DecodeElement_le se (Decoder s1)) as Hle.
  pose proof (DecodeElement_closes se (Decoder s1)
                (length (xml.stk (Decoder s1)) - 1)) as Hcl.
  assert (depth_is (length (xml.stk (Decoder s1)) - 1) 1 (Decoder s1)) as Hdep.
  { unfold depth_is. destruct (xml.stk (Decoder s1)); [congruence|].
    simpl. lia. }
  destruct (emitTag g se s1) as [[[]|e|] s2]; simpl.
  - destruct T as (t & HD & Ht & _). apply Hle in HD as Hle'.
    rewrite HD in Hcl. simpl in Hcl.
    repeat split.
    + unfold pending in *. lia.
    + intros Hsane. apply Hcl; auto.
    + eapply extends_trans; [exact Hext|].
      exists [EvEncode (fill g t)]. split; [exact Ht|].
      constructor; [right; eauto|constructor].
  - destruct T as [(e0 & -> & HD & HW)|(t & w & -> & HD & HW & Hq)];
      apply Hle in HD as Hle'; rewrite HD in Hcl; simpl in Hcl.
    + repeat split.
      * unfold pending in *. lia.
      * intros Hsane. apply Hcl; auto.
      * eapply extends_trans; [exact Hext|]. apply extends_refl. exact HW.
      * exists (DecodeFailed e0). split; [reflexivity|].
        intros Hsane. simpl. apply Hcl; auto.
    + repeat split.
      * unfold pending in *. lia.
      * intros Hsane. apply Hcl; auto.
      * eapply extends_trans; [exact Hext|]. apply extends_refl. exact HW.
      * exists (EncodeFailed w). split; [reflexivity|].
        intros _. simpl. rewrite HW. exact Hq.
  - exact T.
Qed.

Lemma streamTags_body_post g comma s :
  streamTags_post g s (streamTags_body g comma s).
Proof.
  unfold streamTags_body. unfold bind at 1. unfold wrap_w at 1. unfold onDecoder.
  pose proof (search_cases tagQuery (Decoder s)) as S.
  destruct (search tagQuery (Decoder s)) as [[res|e|] d1] eqn:E; simpl.
  - destruct S as (Hlt & Hs & Hstk & _).
    destruct (xmlSearchResult.NamedEnd res) as [ee|]; simpl.
    { unfold ret. repeat split; auto. apply extends_refl. reflexivity. }
    destruct (xmlSearchResult.NamedStart res) as [se|]; simpl;
      [|unfold bind, ret; repeat split; auto; apply extends_refl; reflexivity].
    assert (xml.stk d1 <> []) as Hne by (apply Hstk; discriminate).
    clear Hstk.
    assert (forall s1 : streamer,
               pending s1 < pending s ->
               (sane (Decoder s) -> sane (Decoder s1)) ->
               extends (tag_event g) s s1 ->
               xml.stk (Decoder s1) <> [] ->
               streamTags_post g s
                 (bind (wrap_w "s.emitTag" (emitTag g se))
                       (fun _ => ret (inl true) : M streamer (bool + unit)) s1))
      as Hemit.
    { intros s1 H1 H2 H3 H4.
      pose proof (emitTag_post g se s s1 H1 H2 H3 H4) as P.
      unfold bind, ret.
      destruct (wrap_w "s.emitTag" (emitTag g se) s1) as [[[]|e|] s2];
        exact P. }
    destruct comma.
    + unfold bind at 1. unfold bind at 1. unfold wrap_w at 1.
      unfold Writer_Write, onWriter. simpl.
      pose proof (accept_cases (EvWrite ",") (Writer s)) as C.
      destruct (accept (EvWrite ",") (Writer s)) as [[[]|e|] w1]; simpl.
      * destruct C as [C _]. apply Hemit; simpl; auto.
        exists [EvWrite ","]. simpl. split; [exact C|].
        constructor; [left; reflexivity|constructor].
      * destruct C as [-> Hq]. unfold pending. simpl. repeat split; auto; [lia| |].
        -- apply extends_refl. reflexivity.
        -- exists (CommaWrite e). split; [reflexivity|]. intros _. exact Hq.
      * exact C.
    + unfold bind at 1. unfold bind at 1. unfold ret at 1.
      apply Hemit; simpl; auto. apply extends_refl. reflexivity.
  - destruct S as (Hle & Hs & e0 & -> & HT & He0). repeat split; auto.
    + apply extends_refl. reflexivity.
    + exists (TagSearch e0). split; [reflexivity|].
      intros Hsane. simpl. auto.
  - exact S.
Qed.

Lemma streamTags_body_dec g comma s comma' s' :
  streamTags_body g comma s = (Ok (inl comma'), s') -> pending s' < pending s.
Proof.
  intros H. pose proof (streamTags_body_post g comma s) as P.
  rewrite H in P. apply P.
Qed.

Lemma streamTags_loop_post g comma s :
  streamTags_post g s (forever pending (streamTags_body g) comma s).
Proof.
  apply (forever_ind pending (streamTags_body g) (streamTags_body_dec g)
           (fun _ s out => streamTags_post g s out)).
  clear comma s. intros comma s.
  pose proof (streamTags_body_post g comma s) as P.
  destruct (streamTags_body g comma s) as [[[c'|[]]|e|] s1]; try exact P.
  destruct P as (Hlt & Hs & Hext).
  destruct (forever pending (streamTags_body g) c' s1) as [[[]|e|] s2]; simpl.
  - intros (Hlt' & Hs' & Hext'). repeat split; auto; [lia|].
    eapply extends_trans; eauto.
  - intros (Hle' & Hs' & Hext' & c & Hc & Hat). repeat split; auto; [lia| |].
    + eapply extends_trans; eauto.
    + exists c. auto.
  - auto.
Qed.

Lemma streamTags_post_holds g s : streamTags_post g s (streamTags g s).
Proof. apply streamTags_loop_post. Qed.

Lemma stream_body_cases a s :
  match stream_body a s with
  | (Ok (inl _), s') =>
      pending s' < pending s
      /\ (sane (Decoder s) -> sane (Decoder s'))
      /\ extends (fun ev => exists g, tag_event g ev) s s'
  | (Ok (inr _), _) => False
  | out => stream_post s out
  end.
Proof.
  unfold stream_body. unfold_go.
  pose proof (search_cases tableQuery (Decoder s)) as S.
  destruct (search tableQuery (Decoder s)) as [[res|e|] d1] eqn:E; simpl.
  - destruct S as (Hlt & Hs & _ & Hstart).
    destruct (xmlSearchResult.NamedStart res) as [se|];
      [|exfalso; apply Hstart; reflexivity].
    destruct (attributeByLocalName "name" se) as [tableName hasTableName].
    destruct hasTableName; simpl.
    + pose proof (streamTags_post_holds tableName
                    {| Decoder := d1; Writer := Writer s |}) as P.
      destruct (streamTags tableName {| Decoder := d1; Writer := Writer s |})
        as [[[]|e|] s2]; simpl in *.
      * destruct P as (Hlt' & Hs' & Hext). unfold pending in *. simpl in *.
        repeat split; auto; [lia|].
        destruct Hext as (evs & Ht & F). exists evs. split; [exact Ht|].
        eapply Forall_impl; [exact F|]. simpl. eauto.
      * destruct P as (Hle' & Hs' & Hext & c & Hc & Hat).
        unfold pending in *. simpl in *.
        repeat split; auto; [lia| |].
        -- destruct Hext as (evs & Ht & F). exists evs. split; [exact Ht|].
           eapply Forall_impl; [exact F|]. simpl. eauto.
        -- exists c. auto.
      * exact P.
    + unfold pending. simpl. repeat split; auto; [lia| |].
      * apply extends_refl. reflexivity.
      * exists NoTableName. split; [reflexivity|]. simpl. auto.
  - destruct S as (Hle & Hs & e0 & -> & HT & He0). unfold pending. simpl.
    repeat split; auto.
    + apply extends_refl. reflexivity.
    + exists (TableSearch e0). split; [reflexivity|]. simpl. auto.
  - exact S.
Qed.

Lemma stream_body_dec a s a' s' :
  stream_body a s = (Ok (inl a'), s') -> pending s' < pending s.
Proof.
  intros H. pose proof (stream_body_cases a s) as P. rewrite H in P. apply P.
Qed.

Lemma stream_post_holds s : stream_post s (stream s).
Proof.
  unfold stream.
  apply (forever_ind pending stream_body stream_body_dec
           (fun _ s out => stream_post s out)).
  clear s. intros a s.
  pose proof (stream_body_cases a s) as P.
  destruct (stream_body a s) as [[[a'|b]|e|] s1]; try exact P.
  destruct P as (Hlt & Hs & Hext).
  destruct (forever pending stream_body a' s1) as [[[]|e|] s2]; simpl; auto.
  intros (Hle' & Hs' & Hext' & c & Hc & Hat). repeat split; auto; [lia| |].
  - eapply extends_trans; eauto.
  - exists c. auto.
Qed.

(** ** The goroutine that decodes *)

Lemma emitProlog_cases s :
  match emitProlog s with
  | (Ok _, s') =>
      Decoder s' = Decoder s
      /\ trace (Writer s') = trace (Writer s) ++ [EvWrite prolog]
  | (Err e, s') =>
      s' = s /\ exists w, e = Errorf_w "s.Writer.Write" w
                          /\ quota (Writer s) = Some (0, w)
  | (OutOfFuel, _) => False
  end.
Proof.
  unfold emitProlog, Writer_Write. unfold_go.
  pose proof (accept_cases (EvWrite prolog) (Writer s)) as C.
  destruct (accept (EvWrite prolog) (Writer s)) as [[[]|e|] w1]; simpl.
  - destruct C. auto.
  - destruct C as [-> Hq]. split; [destruct s; reflexivity|]. eauto.
  - exact C.
Qed.

Lemma emitEpilog_cases s :
  match emitEpilog s with
  | (Ok _, s') =>
      Decoder s' = Decoder s
      /\ trace (Writer s') = trace (Writer s) ++ [EvWrite epilog]
      /\ accepts (Writer s)
  | (Err e, s') =>
      s' = s /\ exists w, e = Errorf_w "s.Writer.Write" w
                          /\ quota (Writer s) = Some (0, w)
  | (OutOfFuel, _) => False
  end.
Proof.
  unfold emitEpilog, Writer_Write. unfold_go.
  pose proof (accept_cases (EvWrite epilog) (Writer s)) as C.
  destruct (accept (EvWrite epilog) (Writer s)) as [[[]|e|] w1]; simpl.
  - destruct C. auto.
  - destruct C as [-> Hq]. split; [destruct s; reflexivity|]. eauto.
  - exact C.
Qed.

(** The goroutine always comes to an end, and the sink has only grown. *)
Lemma decodeActivity_extends s :
  exists o s', decodeActivity s = (Ok o, s') /\ extends run_event s s'.
Proof.
  unfold decodeActivity.
  pose proof (emitProlog_cases s) as P.
  destruct (emitProlog s) as [[[]|e|] s1]; [| |destruct P].
  2:{ destruct P as [-> _]. eexists _, _. split; [reflexivity|].
      apply extends_refl. reflexivity. }
  destruct P as [_ Ht1].
  assert (extends run_event s s1) as E1.
  { exists [EvWrite prolog]. split; [exact Ht1|].
    constructor; [left; reflexivity|constructor]. }
  pose proof (stream_post_holds s1) as Q.
  destruct (stream s1) as [[[]|e|] s2]; [destruct Q| |destruct Q].
  destruct Q as (_ & _ & E2 & _).
  assert (extends run_event s s2) as E12.
  { eapply extends_trans; [exact E1|].
    eapply extends_weaken; [|exact E2]. intros ev H. right. right. exact H. }
  destruct (errors_Is_EOF e).
  - pose proof (emitEpilog_cases s2) as R.
    destruct (emitEpilog s2) as [[[]|e'|] s3]; [| |destruct R].
    + destruct R as (_ & Ht3 & _). eexists _, _. split; [reflexivity|].
      eapply extends_trans; [exact E12|].
      exists [EvWrite epilog]. split; [exact Ht3|].
      constructor; [right; left; reflexivity|constructor].
    + destruct R as [-> _]. eexists _, _. split; [reflexivity|exact E12].
  - eexists _, _. split; [reflexivity|exact E12].
Qed.

Lemma run_events toks rawErr quota :
  Forall run_event (trace (Writer (snd (run toks rawErr quota)))).
Proof.
  unfold run.
  destruct (decodeActivity_extends (start toks rawErr quota))
    as (o & s' & -> & evs & Ht & F).
  simpl in *. rewrite Ht. exact F.
Qed.

Lemma emitted_fill w :
  Forall run_event (trace w) ->
  Forall (fun v => exists g t, v = fill g t) (emitted w).
Proof.
  unfold emitted. induction 1 as [|ev evs Hev _ IH]; simpl; [constructor|].
  destruct ev as [p|v]; simpl; [exact IH|].
  constructor; [|exact IH].
  destruct Hev as [H|[H|(g & [H|(t & H)])]]; try discriminate.
  inversion H. eauto.
Qed.

(** ** The [description] map *)

Lemma describe_snoc ds d :
  describe (ds ++ [d]) = <[Lang d := Value d]> (describe ds).
Proof. unfold describe. rewrite fold_left_app. reflexivity. Qed.

Lemma describe_lookup ds l :
  describe ds !! l = Value <$> last (descs_in l ds).
Proof.
  unfold descs_in.
  induction ds as [|d ds IH] using rev_ind; [reflexivity|].
  rewrite describe_snoc, filter_app.
  destruct (decide (Lang d = l)) as [E|E].
  - rewrite filter_cons_True, filter_nil by exact E.
    rewrite last_snoc. simpl. rewrite E. apply lookup_insert_eq.
  - rewrite filter_cons_False, filter_nil, app_nil_r by exact E.
    rewrite lookup_insert_ne by exact E. exact IH.
Qed.

Lemma describe_dom ds :
  dom (describe ds) = list_to_set (Lang <$> ds).
Proof.
  induction ds as [|d ds IH] using rev_ind; [apply dom_empty_L|].
  rewrite describe_snoc, dom_insert_L, IH, fmap_app. simpl.
  rewrite list_to_set_snoc_L. apply (comm_L _).
Qed.

Lemma describe_size ds :
  size (describe ds) = length (remove_dups (Lang <$> ds)).
Proof.
  rewrite <- size_dom, describe_dom.
  rewrite <- (size_list_to_set (C := gset string) (remove_dups (Lang <$> ds)))
    by apply NoDup_remove_dups.
  f_equal. apply set_eq. intros x.
  rewrite !elem_of_list_to_set, elem_of_remove_dups. reflexivity.
Qed.

Lemma sortedEntries_length (m : gmap string string) :
  length (json.sortedEntries m) = size m.
Proof.
  unfold json.sortedEntries.
  rewrite (Permutation_length (merge_sort_Permutation json.key_le _)).
  apply length_map_to_list.
Qed.

(** ** The epilogue *)

(** The error tells the cause, except that the [%v] of the table search
    keeps only the text of the token error. *)
Lemma error_of_inj c c' :
  error_of c' = error_of c ->
  match c with
  | TableSearch _ => True
  | _ => c' = c
  end.
Proof.
  destruct c, c'; simpl; unfold Errorf_w, Errorf_v; simpl; intros H;
    try exact I; try reflexivity; try discriminate H;
    inversion H; subst; try reflexivity.
Qed.

Lemma last_Forall {A} (Q : A -> Prop) l x :
  Forall Q l -> last l = Some x -> Q x.
Proof.
  induction l as [|y l IH] using rev_ind; [discriminate|].
  rewrite last_snoc, Forall_app. intros [_ H] E. inversion E; subst.
  inversion H. assumption.
Qed.

(** While [stream] runs the epilogue is not in the sink. *)
Lemma stream_no_epilog s1 s2 e s :
  emitProlog s = (Ok tt, s1) -> trace (Writer s) = [] ->
  stream s1 = (Err e, s2) -> ~ epilog_written s2.
Proof.
  intros P Hnil R Hw. unfold epilog_written in Hw.
  pose proof (emitProlog_cases s) as C. rewrite P in C. destruct C as [_ Ht].
  pose proof (stream_post_holds s1) as Q. rewrite R in Q.
  destruct Q as (_ & _ & (evs & Ht2 & F) & _).
  rewrite Ht2, Ht, Hnil in Hw. simpl in Hw.
  assert (Forall (fun ev => ev <> EvWrite epilog) (EvWrite prolog :: evs)) as F'.
  { constructor; [discriminate|].
    eapply Forall_impl; [exact F|]. simpl.
    intros ev (g & [->|(t & ->)]); discriminate. }
  exact (last_Forall _ _ _ F' Hw eq_refl).
Qed.

(** The rule of the epilogue, as the code has it.  After the prologue, let
    [stream] stop for the
    cause [c] and leave the streamer [s2].  If the cause is that the tag
    search of [streamTags] met [io.EOF], the run reports no error and, the
    sink accepting, ends with the epilogue written after what [s2] had.  If
    the cause is a table without a name, a tag whose subtree does not
    decode, or a tag search that met another error than [io.EOF], the run
    reports the stream error, cancels the subprocess, leaves [s2] as it is
    and the epilogue is not in the sink. *)
Theorem epilog_rule (toks : list xml.Token) (rawErr : error)
  (quota : option (nat * error)) (c : cause) (s1 s2 : streamer) :
  rawErr = io_EOF \/ errors_Is_EOF rawErr = false ->
  emitProlog (start toks rawErr quota) = (Ok tt, s1) ->
  stream s1 = (Err (error_of c), s2) ->
  (c = TagSearch io_EOF ->
   accepts (Writer s2) ->
   exists s3,
     run toks rawErr quota = (Ok (None, false), s3)
     /\ Decoder s3 = Decoder s2
     /\ trace (Writer s3) = trace (Writer s2) ++ [EvWrite epilog]
     /\ epilog_written s3)
  /\ (c = NoTableName
      \/ (exists e, c = DecodeFailed e)
      \/ (exists e, c = TagSearch e /\ e <> io_EOF) ->
      run toks rawErr quota
      = (Ok (Some (Errorf_w "stream" (error_of c)), true), s2)
      /\ ~ epilog_written s2).
Proof.
  intros Hsane P R.
  pose proof (emitProlog_cases (start toks rawErr quota)) as C.
  rewrite P in C. destruct C as [Hd1 _].
  pose proof (stream_post_holds s1) as Q. rewrite R in Q.
  destruct Q as (_ & _ & _ & c' & Hc' & Hat).
  assert (sane (Decoder s1)) as Hs1 by (rewrite Hd1; exact Hsane).
  specialize (Hat Hs1). symmetry in Hc'. apply error_of_inj in Hc'.
  unfold run, decodeActivity. rewrite P, R. split.
  - intros -> Hacc. simpl.
    pose proof (emitEpilog_cases s2) as E.
    destruct (emitEpilog s2) as [[[]|e|] s3]; [| |destruct E].
    + destruct E as (Hd & Ht & _). exists s3. repeat split; auto.
      unfold epilog_written. rewrite Ht. apply last_snoc.
    + destruct E as (_ & w & _ & Hq). exfalso. exact (Hacc w Hq).
  - intros Hc.
    assert (errors_Is_EOF (error_of c) = false) as ->.
    { destruct Hc as [->|[(e & ->)|(e & -> & Hne)]]; subst c'; simpl in *.
      - reflexivity.
      - exact Hat.
      - destruct Hat as [_ [He|He]]; [contradiction|exact He]. }
    split; [reflexivity|].
    eapply stream_no_epilog; eauto.
Qed.

(** [<table name="A"></table>] and then the end of the input: the tag
    search passes over [</table>] and meets [io.EOF]; the epilogue is
    written. *)
Lemma epilog_rule_witness :
  let toks := doc.render [{| doc.tname := "A"; doc.tags := [] |}] in
  let s1 := {| Decoder := {| xml.input := toks; xml.rawErr := io_EOF;
                             xml.stk := [] |};
               Writer := {| trace := [EvWrite prolog]; quota := None |} |} in
  let s2 := {| Decoder := {| xml.input := []; xml.rawErr := io_EOF;
                             xml.stk := [] |};
               Writer := {| trace := [EvWrite prolog]; quota := None |} |} in
  (io_EOF = io_EOF \/ errors_Is_EOF io_EOF = false)
  /\ emitProlog (start toks io_EOF None) = (Ok tt, s1)
  /\ stream s1 = (Err (error_of (TagSearch io_EOF)), s2)
  /\ exists s3,
      run toks io_EOF None = (Ok (None, false), s3)
      /\ Decoder s3 = Decoder s2
      /\ trace (Writer s3) = trace (Writer s2) ++ [EvWrite epilog]
      /\ epilog_written s3.
Proof.
  intros toks s1 s2.
  assert (emitProlog (start toks io_EOF None) = (Ok tt, s1)) as H1
    by (vm_compute; reflexivity).
  assert (stream s1 = (Err (error_of (TagSearch io_EOF)), s2)) as H2
    by (vm_compute; reflexivity).
  split; [left; reflexivity|]. split; [exact H1|]. split; [exact H2|].
  apply (proj1 (epilog_rule toks io_EOF None (TagSearch io_EOF) s1 s2
                  (or_introl eq_refl) H1 H2) eq_refl).
  intros e. discriminate.
Defined.

(** C1 on the code: the rule fails in both directions.  Whenever the
    stream ends in the table search of [stream] meeting [io.EOF], the
    epilogue is not written: the error of that search is formatted with
    [%v], so [errors.Is] does not find [io.EOF] in it.  The listing
    [<taginfo></taginfo>] ends that way.  And on [<table name="A"></table>]
    the epilogue is written although the stream did not end in the table
    search: [search] passes over [</table>], so it is the tag search of
    [streamTags] that meets the end of the input. *)
Theorem epilog_rule_fails_both_ways :
  (forall toks rawErr quota,
     ended_at_table_search_EOF toks rawErr quota ->
     ~ epilog_written (snd (run toks rawErr quota))
     /\ fst (run toks rawErr quota)
        = Ok (Some (Errorf_w "stream" (error_of (TableSearch io_EOF))), true))
  /\ ended_at_table_search_EOF no_table io_EOF None
  /\ (let toks := doc.render [{| doc.tname := "A"; doc.tags := [] |}] in
      epilog_written (snd (run toks io_EOF None))
      /\ fst (run toks io_EOF None) = Ok (None, false)
      /\ ~ ended_at_table_search_EOF toks io_EOF None).
Proof.
  split; [|split].
  - intros toks rawErr quota (s1 & s2 & P & R).
    unfold run, decodeActivity. rewrite P, R. cbn [errors_Is_EOF error_of
      Errorf_v Errorf_w fst snd].
    split; [|reflexivity].
    eapply stream_no_epilog; [exact P|reflexivity|exact R].
  - exists (snd (emitProlog (start no_table io_EOF None))).
    exists (snd (stream (snd (emitProlog (start no_table io_EOF None))))).
    split; vm_compute; reflexivity.
  - intros toks. split; [vm_compute; reflexivity|].
    split; [vm_compute; reflexivity|].
    intros (s1 & s2 & H1 & H2).
    vm_compute in H1. inversion H1; subst s1. clear H1.
    vm_compute in H2. discriminate H2.
Qed.

(** ** The run over a document *)

Lemma forever_same_body {St A B} (mu : St -> nat) (body : A -> M St (A + B))
  a s s' :
  (forall a s a' s', body a s = (Ok (inl a'), s') -> mu s' < mu s) ->
  body a s = body a s' ->
  forever mu body a s = forever mu body a s'.
Proof.
  intros Hdec H. rewrite !(forever_unfold mu body Hdec), H. reflexivity.
Qed.

Lemma chardata_desc text rest re st :
  xml.unmarshal_chardata
    {| xml.input := xml.TCharData text :: doc.close "desc" :: rest;
       xml.rawErr := re; xml.stk := "desc" :: st |}
  = (Ok text, {| xml.input := rest; xml.rawErr := re; xml.stk := st |}).
Proof.
  unfold xml.unmarshal_chardata.
  rewrite forever_unfold by apply chardata_body_dec. cbn -[forever].
  rewrite forever_unfold by apply chardata_body_dec. cbn -[forever].
  reflexivity.
Qed.

Lemma children_descs ds v rest re st :
  decode.unmarshalChildren_tag v
    {| xml.input := concat (map doc.render_desc ds) ++ doc.close "tag" :: rest;
       xml.rawErr := re; xml.stk := "tag" :: st |}
  = (Ok (set_Description (Description v ++ map of_desc ds) v),
     {| xml.input := rest; xml.rawErr := re; xml.stk := st |}).
Proof.
  unfold decode.unmarshalChildren_tag.
  revert v. induction ds as [|d ds IH]; intros v.
  - rewrite forever_unfold by apply children_body_dec. cbn -[forever].
    rewrite app_nil_r. destruct v; reflexivity.
  - rewrite forever_unfold by apply children_body_dec.
    cbn -[xml.unmarshal_chardata forever].
    unfold decode.unmarshal_xmlDesc, bind. rewrite chardata_desc.
    cbn -[forever]. rewrite IH. cbn. rewrite <- app_assoc. reflexivity.
Qed.

Lemma copyValue_encodeBool b :
  decode.copyValue_bool (json.encodeBool b) = Ok b.
Proof. destruct b; reflexivity. Qed.

Lemma DecodeElement_tag g (t : doc.Tag) rest re st :
  exists v,
    decode.DecodeElement
      {| xml.Name := "tag";
         xml.Attrs := [doc.attr "name" (doc.name t);
                       doc.attr "writable" (json.encodeBool (doc.writable t));
                       doc.attr "type" (doc.type_ t)] |}
      {| xml.input := concat (map doc.render_desc (doc.descs t))
                      ++ doc.close "tag" :: rest;
         xml.rawErr := re; xml.stk := "tag" :: st |}
    = (Ok v, {| xml.input := rest; xml.rawErr := re; xml.stk := st |})
    /\ fill g v = doc.record g t.
Proof.
  unfold decode.DecodeElement. cbn -[decode.unmarshalChildren_tag].
  rewrite copyValue_encodeBool. rewrite children_descs.
  eexists. split; [reflexivity|]. reflexivity.
Qed.

Lemma emitTag_tag g (t : doc.Tag) rest st tr :
  emitTag g
    {| xml.Name := "tag";
       xml.Attrs := [doc.attr "name" (doc.name t);
                     doc.attr "writable" (json.encodeBool (doc.writable t));
                     doc.attr "type" (doc.type_ t)] |}
    (streaming (concat (map doc.render_desc (doc.descs t))
                ++ doc.close "tag" :: rest) ("tag" :: st) tr)
  = (Ok tt, streaming rest st (tr ++ [EvEncode (doc.record g t)])).
Proof.
  destruct (DecodeElement_tag g t rest io_EOF st) as (v & HD & Hf).
  unfold emitTag, bind, wrap_w, onDecoder, streaming. cbn [Decoder Writer].
  rewrite HD. unfold Encoder_Encode, onWriter, accept. simpl.
  rewrite Hf. reflexivity.
Qed.

Lemma search_tag (t : doc.Tag) rest re st :
  search tagQuery
    {| xml.input := doc.render_tag t ++ rest; xml.rawErr := re; xml.stk := st |}
  = (Ok {| xmlSearchResult.NamedStart :=
             Some {| xml.Name := "tag";
                     xml.Attrs := [doc.attr "name" (doc.name t);
                                   doc.attr "writable"
                                     (json.encodeBool (doc.writable t));
                                   doc.attr "type" (doc.type_ t)] |};
           xmlSearchResult.NamedEnd := None |},
     {| xml.input := concat (map doc.render_desc (doc.descs t))
                     ++ doc.close "tag" :: rest;
        xml.rawErr := re; xml.stk := "tag" :: st |}).
Proof.
  rewrite search_unfold. cbn. rewrite <- app_assoc. reflexivity.
Qed.

Lemma streamTags_body_tag g comma (t : doc.Tag) rest st tr :
  streamTags_body g comma (streaming (doc.render_tag t ++ rest) st tr)
  = (Ok (inl true),
     streaming rest st (tr ++ events_of comma [doc.record g t])).
Proof.
  unfold streamTags_body. unfold bind at 1. unfold wrap_w at 1.
  unfold onDecoder. unfold streaming at 1. cbn [Decoder Writer].
  rewrite search_tag. cbn -[emitTag].
  pose proof (emitTag_tag g t rest st) as E. unfold streaming in E.
  destruct comma; cbn -[emitTag].
  - unfold bind, wrap_w, Writer_Write, onWriter, accept. cbn -[emitTag].
    rewrite E. cbn. unfold streaming. rewrite <- app_assoc. reflexivity.
  - unfold bind, wrap_w, ret. rewrite E. reflexivity.
Qed.

Lemma events_of_app comma l1 l2 :
  events_of comma (l1 ++ l2)
  = events_of comma l1
    ++ events_of (comma || negb (bool_decide (l1 = []))) l2.
Proof.
  revert comma. induction l1 as [|r l1 IH]; intros comma; simpl.
  - rewrite orb_false_r. reflexivity.
  - rewrite IH. simpl. rewrite orb_true_r.
    rewrite <- app_assoc. reflexivity.
Qed.

(** [streamTags] over the tags of a table. *)
Lemma streamTags_loop_tags g comma (ts : list doc.Tag) rest st tr :
  forever pending (streamTags_body g) comma
    (streaming (concat (map doc.render_tag ts) ++ rest) st tr)
  = forever pending (streamTags_body g)
      (comma || negb (bool_decide (ts = [])))
      (streaming rest st (tr ++ events_of comma (map (doc.record g) ts))).
Proof.
  revert comma tr. induction ts as [|t ts IH]; intros comma tr.
  - simpl. rewrite orb_false_r, app_nil_r. reflexivity.
  - rewrite forever_unfold by apply streamTags_body_dec.
    cbn [map concat]. rewrite <- app_assoc.
    rewrite streamTags_body_tag. rewrite IH.
    cbn [map events_of]. rewrite orb_true_r. simpl orb.
    cbn [events_of]. rewrite <- !app_assoc. simpl. reflexivity.
Qed.

(** The tag search passes over [</table>] and over [<table ..>]: neither
    is named [tag]. *)
Lemma streamTags_close_table g comma rest st tr :
  forever pending (streamTags_body g) comma
    (streaming (doc.close "table" :: rest) ("table" :: st) tr)
  = forever pending (streamTags_body g) comma (streaming rest st tr).
Proof.
  apply forever_same_body; [apply streamTags_body_dec|].
  unfold streamTags_body, bind, wrap_w, onDecoder, streaming.
  cbn [Decoder Writer]. rewrite search_unfold. cbn. reflexivity.
Qed.

Lemma streamTags_open_table g comma attrs rest st tr :
  forever pending (streamTags_body g) comma
    (streaming (doc.open "table" attrs :: rest) st tr)
  = forever pending (streamTags_body g) comma
      (streaming rest ("table" :: st) tr).
Proof.
  apply forever_same_body; [apply streamTags_body_dec|].
  unfold streamTags_body, bind, wrap_w, onDecoder, streaming.
  cbn [Decoder Writer]. rewrite search_unfold. cbn. reflexivity.
Qed.

(** At the clean end of the input the tag search fails with [io.EOF],
    wrapped with [%w] all the way. *)
Lemma streamTags_at_EOF g comma tr :
  forever pending (streamTags_body g) comma (streaming [] [] tr)
  = (Err (Errorf_w "search" (Errorf_w "decoder.Token" io_EOF)),
     streaming [] [] tr).
Proof.
  rewrite forever_unfold by apply streamTags_body_dec. reflexivity.
Qed.

(** Once inside the first table, [streamTags] stays in its loop through
    all the tables that follow, to the end of the input. *)
Lemma streamTags_rest_of_doc g (tables : list doc.Table) :
  forall comma (ts : list doc.Tag) tr,
    forever pending (streamTags_body g) comma
      (streaming (concat (map doc.render_tag ts)
                  ++ doc.close "table" :: doc.render tables) ["table"] tr)
    = (Err (Errorf_w "search" (Errorf_w "decoder.Token" io_EOF)),
       streaming [] []
         (tr ++ events_of comma
                  (map (doc.record g) (ts ++ doc.all_tags tables)))).
Proof.
  induction tables as [|tb tables IH]; intros comma ts tr.
  - rewrite streamTags_loop_tags, streamTags_close_table.
    cbn [doc.render map concat]. rewrite streamTags_at_EOF.
    unfold doc.all_tags. cbn [map concat]. rewrite app_nil_r. reflexivity.
  - rewrite streamTags_loop_tags, streamTags_close_table.
    unfold doc.render. cbn [map concat]. unfold doc.render_table at 1.
    cbn [app]. rewrite streamTags_open_table.
    rewrite <- app_assoc. cbn [app].
    fold (doc.render tables). rewrite IH.
    unfold doc.all_tags. cbn [map concat]. fold (doc.all_tags tables).
    rewrite (map_app _ ts), events_of_app, app_assoc.
    rewrite map_app.
    replace (bool_decide (map (doc.record g) ts = []))
      with (bool_decide (ts = [])); [reflexivity|].
    destruct ts; reflexivity.
Qed.

Lemma stream_doc (tb : doc.Table) (tables : list doc.Table) tr :
  stream (streaming (doc.render (tb :: tables)) [] tr)
  = (Err (error_of (TagSearch io_EOF)),
     streaming [] [] (tr ++ events_of false (records_of_doc (tb :: tables)))).
Proof.
  unfold stream. rewrite forever_unfold by apply stream_body_dec.
  unfold stream_body at 1. unfold bind at 1. unfold wrap_v at 1.
  unfold onDecoder. unfold streaming at 1. cbn [Decoder Writer].
  rewrite search_unfold. unfold doc.render. cbn [map concat].
  unfold doc.render_table at 1. cbn -[forever streamTags].
  unfold bind, wrap_w, streamTags.
  rewrite <- app_assoc. cbn [app]. fold (doc.render tables).
  pose proof (streamTags_rest_of_doc (doc.tname tb) tables false
                (doc.tags tb) tr) as H.
  unfold streaming at 1 in H. rewrite H. reflexivity.
Qed.

(** The run over a document with at least one table: no error, and the
    sink has the prologue, the records of all the tables under the name of
    the first, and the epilogue. *)
Lemma run_doc (tb : doc.Table) (tables : list doc.Table) :
  run (doc.render (tb :: tables)) io_EOF None
  = (Ok (None, false),
     streaming [] []
       (EvWrite prolog
        :: events_of false (records_of_doc (tb :: tables))
        ++ [EvWrite epilog])).
Proof.
  unfold run, decodeActivity.
  change (emitProlog (start (doc.render (tb :: tables)) io_EOF None))
    with (Ok tt, streaming (doc.render (tb :: tables)) [] [EvWrite prolog]).
  cbv iota beta. rewrite stream_doc. reflexivity.
Qed.

(** ** Strings *)

Lemma append_nil_r (s : string) : s +:+ "" = s.
Proof.
  induction s as [|c s IH]; [reflexivity|].
  change (String c (s +:+ "") = String c s). f_equal. exact IH.
Qed.

Lemma append_assoc (a b c : string) : (a +:+ b) +:+ c = a +:+ (b +:+ c).
Proof.
  induction a as [|x a IH]; [reflexivity|].
  change (String x ((a +:+ b) +:+ c) = String x (a +:+ (b +:+ c))).
  f_equal. exact IH.
Qed.

Lemma length_append (a b : string) :
  String.length (a +:+ b) = String.length a + String.length b.
Proof.
  induction a as [|x a IH]; [reflexivity|].
  change (S (String.length (a +:+ b)) = S (String.length a + String.length b)).
  f_equal. exact IH.
Qed.

Lemma concat_empty_cons (x : string) (l : list string) :
  String.concat "" (x :: l) = x +:+ String.concat "" l.
Proof. destruct l; [symmetry; apply append_nil_r|reflexivity]. Qed.

Lemma concat_empty_app (l1 l2 : list string) :
  String.concat "" (l1 ++ l2) = String.concat "" l1 +:+ String.concat "" l2.
Proof.
  induction l1 as [|x l1 IH]; [reflexivity|].
  rewrite <- app_comm_cons, !concat_empty_cons, IH, append_assoc. reflexivity.
Qed.

(** ** The encoder writes JSON *)

Lemma Chars_app a b : JSON.Chars a -> JSON.Chars b -> JSON.Chars (a +:+ b).
Proof.
  induction 1 as [|c s Hc _ IH|c s Hc _ IH|h1 h2 h3 h4 s H1 H2 H3 H4 _ IH];
    intros Hb.
  - exact Hb.
  - apply (JSON.chars_plain c (s +:+ b)); auto.
  - apply (JSON.chars_escape c (s +:+ b)); auto.
  - apply (JSON.chars_u h1 h2 h3 h4 (s +:+ b)); auto.
Qed.

Lemma htmlSafe_plain c : json.htmlSafe (N_of_ascii c) = true -> JSON.plain c = true.
Proof.
  destruct c as [[] [] [] [] [] [] [] []]; vm_compute; congruence.
Qed.

Lemma high_plain c : (N_of_ascii c <? 128)%N = false -> JSON.plain c = true.
Proof.
  destruct c as [[] [] [] [] [] [] [] []]; vm_compute; congruence.
Qed.

Lemma escapeByte_Chars c :
  (N_of_ascii c <? 128)%N = true -> json.htmlSafe (N_of_ascii c) = false ->
  JSON.Chars (json.escapeByte (N_of_ascii c)).
Proof.
  destruct c as [[] [] [] [] [] [] [] []]; vm_compute; intros H1 H2;
    try discriminate H1; try discriminate H2; chars.
Qed.

Lemma lead_lo b sz lo hi : json.lead b = Some (sz, lo, hi) -> (128 <= lo)%N.
Proof.
  unfold json.lead.
  repeat match goal with
         | |- context [if ?x then _ else _] => destruct x
         end; intros H; inversion H; lia.
Qed.

Lemma cont_high c : json.cont (N_of_ascii c) = true -> (N_of_ascii c <? 128)%N = false.
Proof.
  unfold json.cont. rewrite andb_true_iff, N.leb_le, N.ltb_ge. tauto.
Qed.

(** The bytes of a rune after its first are continuation bytes. *)
Lemma DecodeRune_high c rest r size :
  json.DecodeRuneInString (String c rest) = (r, size) ->
  all_high (size - 1) rest.
Proof.
  unfold json.DecodeRuneInString.
  destruct (N_of_ascii c <? 128)%N; [intros H; inversion H; exact I|].
  destruct (json.lead (N_of_ascii c)) as [[[sz lo] hi]|] eqn:L;
    [|intros H; inversion H; exact I].
  apply lead_lo in L.
  destruct (_ <? sz)%nat; [intros H; inversion H; exact I|].
  destruct rest as [|c1 r1]; [intros H; inversion H; exact I|].
  destruct ((N_of_ascii c1 <? lo) || (hi <? N_of_ascii c1))%N eqn:R1;
    [intros H; inversion H; exact I|].
  apply orb_false_iff in R1. destruct R1 as [R1 _]. apply N.ltb_ge in R1.
  assert ((N_of_ascii c1 <? 128)%N = false) as H1 by (apply N.ltb_ge; lia).
  destruct (sz <=? 2)%nat; [intros H; inversion H; simpl; auto|].
  destruct r1 as [|c2 r2]; [intros H; inversion H; exact I|].
  destruct (json.cont (N_of_ascii c2)) eqn:R2;
    [|intros H; inversion H; exact I].
  apply cont_high in R2. simpl negb. cbv iota.
  destruct (sz <=? 3)%nat; [intros H; inversion H; simpl; auto|].
  destruct r2 as [|c3 r3]; [intros H; inversion H; exact I|].
  destruct (json.cont (N_of_ascii c3)) eqn:R3;
    [|intros H; inversion H; exact I].
  apply cont_high in R3. simpl negb. cbv iota.
  intros H; inversion H; simpl; auto.
Qed.

Lemma stringBody_Chars s :
  forall ncopy ndrop, all_high ncopy s ->
                      JSON.Chars (json.stringBody ncopy ndrop s).
Proof.
  induction s as [|c rest IH]; intros ncopy ndrop Hh; [constructor|].
  destruct ncopy as [|k].
  - destruct ndrop as [|k].
    + cbn [json.stringBody].
      destruct (N_of_ascii c <? 128)%N eqn:A.
      * destruct (json.htmlSafe (N_of_ascii c)) eqn:S.
        -- apply JSON.chars_plain; [apply htmlSafe_plain; exact S|].
           apply IH. exact I.
        -- apply Chars_app; [apply escapeByte_Chars; assumption|].
           apply IH. exact I.
      * destruct (json.DecodeRuneInString (String c rest)) as [r size] eqn:D.
        apply DecodeRune_high in D.
        destruct ((r =? json.RuneError)%N && (size =? 1)%nat).
        -- apply (Chars_app (json.bs +:+ "ufffd")); [chars|]. apply IH. exact I.
        -- destruct ((r =? 8232) || (r =? 8233))%N eqn:U.
           ++ apply orb_true_iff in U.
              destruct U as [U|U]; apply N.eqb_eq in U; subst r.
              ** apply (Chars_app (json.bs +:+ "u2028")); [chars|].
                 apply IH. exact I.
              ** apply (Chars_app (json.bs +:+ "u2029")); [chars|].
                 apply IH. exact I.
           ++ apply JSON.chars_plain; [apply high_plain; exact A|].
              apply IH. exact D.
    + cbn [json.stringBody]. apply IH. exact I.
  - cbn [json.stringBody]. destruct Hh as [Hc Hk].
    apply JSON.chars_plain; [apply high_plain; exact Hc|].
    apply IH. exact Hk.
Qed.

Lemma encodeString_Parses s :
  JSON.Parses (JSON.Str (json.stringBody 0 0 s)) (json.encodeString s).
Proof.
  unfold json.encodeString. apply JSON.parses_string.
  apply stringBody_Chars. destruct s; exact I.
Qed.

Lemma element_of v s : JSON.Parses v s -> JSON.Element v s.
Proof.
  intros H. replace s with ("" +:+ s +:+ "") by (unfold json.encodeEntry, json.fieldName, json.encodeString;
        rewrite ?append_assoc, ?append_nil_r; reflexivity).
  apply JSON.element; auto.
Qed.

Lemma element_nl v s : JSON.Parses v s -> JSON.Element v (s +:+ json.nl).
Proof.
  intros H. change (JSON.Element v ("" +:+ s +:+ json.nl)).
  apply JSON.element; auto.
Qed.

Lemma member_one k v s :
  JSON.Chars k -> JSON.Parses v s ->
  JSON.Members [(k, v)] (json.fieldName k +:+ s).
Proof.
  intros Hk Hv.
  replace (json.fieldName k +:+ s)
    with ("" +:+ json.dq +:+ k +:+ json.dq +:+ "" +:+ ":" +:+ s) by (unfold json.encodeEntry, json.fieldName, json.encodeString;
        rewrite ?append_assoc, ?append_nil_r; reflexivity).
  apply JSON.members_one; auto. apply element_of. exact Hv.
Qed.

Lemma member_more k v s ms s2 :
  JSON.Chars k -> JSON.Parses v s -> JSON.Members ms s2 ->
  JSON.Members ((k, v) :: ms) (json.fieldName k +:+ s +:+ "," +:+ s2).
Proof.
  intros Hk Hv Hms.
  replace (json.fieldName k +:+ s +:+ "," +:+ s2)
    with ("" +:+ json.dq +:+ k +:+ json.dq +:+ "" +:+ ":" +:+ s +:+ "," +:+ s2)
    by (unfold json.encodeEntry, json.fieldName, json.encodeString;
        rewrite ?append_assoc, ?append_nil_r; reflexivity).
  apply JSON.members_more; auto. apply element_of. exact Hv.
Qed.

Lemma entry_fieldName kv :
  json.encodeEntry kv
  = json.fieldName (json.stringBody 0 0 kv.1) +:+ json.encodeString kv.2.
Proof.
  unfold json.encodeEntry, json.fieldName, json.encodeString.
  rewrite ?append_assoc, ?append_nil_r. reflexivity.
Qed.

Lemma entries_Members kv l :
  JSON.Members (map JSON.of_entry (kv :: l))
    (String.concat "," (map json.encodeEntry (kv :: l))).
Proof.
  revert kv. induction l as [|kv' l IH]; intros kv.
  - cbn [map String.concat]. rewrite entry_fieldName.
    apply member_one; [|apply encodeString_Parses].
    apply stringBody_Chars. destruct (kv.1); exact I.
  - specialize (IH kv').
    change (String.concat "," (map json.encodeEntry (kv :: kv' :: l)))
      with (json.encodeEntry kv +:+ ","
            +:+ String.concat "," (map json.encodeEntry (kv' :: l))).
    rewrite entry_fieldName, append_assoc.
    apply (member_more _ (JSON.Str (json.stringBody 0 0 kv.2)));
      [|apply encodeString_Parses|exact IH].
    apply stringBody_Chars. destruct (kv.1); exact I.
Qed.

Lemma encodeMap_Parses m : JSON.Parses (JSON.of_map m) (json.encodeMap m).
Proof.
  destruct m as [m|]; [|apply JSON.parses_null].
  unfold JSON.of_map, json.encodeMap.
  destruct (json.sortedEntries m) as [|kv l].
  - apply (JSON.parses_object_empty ""). reflexivity.
  - apply JSON.parses_object. apply entries_Members.
Qed.

(** A record is written as an object with the five members [writable],
    [path], [group], [description], [type], in this order. *)
Lemma Marshal_Parses v : JSON.Parses (JSON.of_tag v) (json.Marshal v).
Proof.
  unfold json.Marshal, JSON.of_tag.
  replace ("{" +:+ json.fieldName "writable" +:+ json.encodeBool (Writable v)
           +:+ "," +:+ json.fieldName "path" +:+ json.encodeString (Path v)
           +:+ "," +:+ json.fieldName "group" +:+ json.encodeString (Group v)
           +:+ "," +:+ json.fieldName "description"
           +:+ json.encodeMap (JSONDescription v)
           +:+ "," +:+ json.fieldName "type" +:+ json.encodeString (Type_ v)
           +:+ "}")
    with ("{" +:+ (json.fieldName "writable" +:+ json.encodeBool (Writable v)
                   +:+ "," +:+ (json.fieldName "path"
                   +:+ json.encodeString (Path v)
                   +:+ "," +:+ (json.fieldName "group"
                   +:+ json.encodeString (Group v)
                   +:+ "," +:+ (json.fieldName "description"
                   +:+ json.encodeMap (JSONDescription v)
                   +:+ "," +:+ (json.fieldName "type"
                   +:+ json.encodeString (Type_ v)))))) +:+ "}")
    by (rewrite ?append_assoc; reflexivity).
  apply JSON.parses_object.
  apply member_more; [chars|apply JSON.parses_bool|].
  apply member_more; [chars|apply encodeString_Parses|].
  apply member_more; [chars|apply encodeString_Parses|].
  apply member_more; [chars|apply encodeMap_Parses|].
  apply member_one; [chars|apply encodeString_Parses].
Qed.

Lemma bytes_events_true rs :
  String.concat "" (map bytes (events_of true rs))
  = String.concat "" (map separated rs).
Proof.
  induction rs as [|r rs IH]; [reflexivity|].
  cbn [events_of app map]. rewrite !concat_empty_cons, IH.
  unfold separated. cbn [bytes]. rewrite ?append_assoc. reflexivity.
Qed.

Lemma bytes_events_false r rs :
  String.concat "" (map bytes (events_of false (r :: rs)))
  = json.Marshal r +:+ json.nl +:+ String.concat "" (map separated rs).
Proof.
  cbn [events_of app map]. rewrite concat_empty_cons, bytes_events_true.
  cbn [bytes]. rewrite ?append_assoc. reflexivity.
Qed.

Lemma separated_Elements r rs :
  JSON.Elements (map JSON.of_tag (r :: rs))
    (json.Marshal r +:+ json.nl +:+ String.concat "" (map separated rs)).
Proof.
  revert r. induction rs as [|r' rs IH]; intros r.
  - cbn [map String.concat]. rewrite append_nil_r.
    apply JSON.elements_one, element_nl, Marshal_Parses.
  - specialize (IH r').
    cbn [map]. rewrite concat_empty_cons. unfold separated at 1.
    replace (json.Marshal r +:+ json.nl
             +:+ ("," +:+ json.Marshal r' +:+ json.nl)
             +:+ String.concat "" (map separated rs))
      with ((json.Marshal r +:+ json.nl) +:+ ","
            +:+ (json.Marshal r' +:+ json.nl
                 +:+ String.concat "" (map separated rs)))
      by (rewrite ?append_assoc; reflexivity).
    apply JSON.elements_more; [|exact IH].
    apply element_nl, Marshal_Parses.
Qed.

(** The document [streamTags] has written once the epilogue is there. *)
Lemma document_Text recs :
  JSON.Text (JSON.of_tags recs)
    (prolog +:+ String.concat "" (map bytes (events_of false recs))
     +:+ epilog).
Proof.
  unfold JSON.Text, JSON.of_tags. apply element_of.
  assert (forall arr,
             prolog +:+ arr +:+ epilog
             = "{" +:+ (json.fieldName "tags" +:+ (" " +:+ ("[" +:+ arr +:+ "]") +:+ ""))
               +:+ "}") as E.
  { intros arr. unfold prolog, epilog, json.fieldName.
    rewrite ?append_assoc, ?append_nil_r. reflexivity. }
  rewrite E. apply JSON.parses_object.
  replace (json.fieldName "tags" +:+ (" " +:+ ("[" +:+ String.concat "" (map bytes (events_of false recs)) +:+ "]") +:+ ""))
    with ("" +:+ json.dq +:+ "tags" +:+ json.dq +:+ "" +:+ ":"
          +:+ (" " +:+ ("[" +:+ String.concat "" (map bytes (events_of false recs)) +:+ "]") +:+ ""))
    by (unfold json.encodeEntry, json.fieldName, json.encodeString;
        rewrite ?append_assoc, ?append_nil_r; reflexivity).
  apply JSON.members_one; [reflexivity|chars|reflexivity|].
  apply JSON.element; [reflexivity| |reflexivity].
  destruct recs as [|r rs].
  - apply (JSON.parses_array_empty ""). reflexivity.
  - rewrite bytes_events_false. apply JSON.parses_array.
    apply separated_Elements.
Qed.

Lemma output_doc (tb : doc.Table) (tables : list doc.Table) :
  output_of_run (doc.render (tb :: tables)) io_EOF None
  = prolog
    +:+ String.concat ""
          (map bytes (events_of false (records_of_doc (tb :: tables))))
    +:+ epilog.
Proof.
  unfold output_of_run. rewrite run_doc. unfold written, streaming.
  cbn [snd Writer trace map].
  rewrite concat_empty_cons, map_app, concat_empty_app. reflexivity.
Qed.

Lemma emitted_events_of comma recs tr :
  emitted {| trace := tr ++ events_of comma recs; quota := None |}
  = emitted {| trace := tr; quota := None |} ++ recs.
Proof.
  unfold emitted. cbn [trace]. rewrite omap_app. f_equal.
  revert comma. induction recs as [|r recs IH]; intros comma; [reflexivity|].
  cbn [events_of]. rewrite omap_app.
  destruct comma; cbn; rewrite IH; reflexivity.
Qed.

Lemma records_doc (tb : doc.Table) (tables : list doc.Table) :
  records_of_run (doc.render (tb :: tables)) io_EOF None
  = records_of_doc (tb :: tables).
Proof.
  unfold records_of_run. rewrite run_doc. unfold streaming.
  cbn [snd Writer].
  change (EvWrite prolog :: events_of false (records_of_doc (tb :: tables))
          ++ [EvWrite epilog])
    with (([EvWrite prolog] ++ events_of false (records_of_doc (tb :: tables)))
          ++ [EvWrite epilog]).
  unfold emitted at 1. cbn [trace]. rewrite omap_app. cbn [omap].
  rewrite app_nil_r.
  apply (emitted_events_of false (records_of_doc (tb :: tables)) [EvWrite prolog]).
Qed.

Lemma concat_comma r rs :
  String.concat "," (map json.Marshal (r :: rs))
  = json.Marshal r +:+ String.concat "" (map joined_tail rs).
Proof.
  revert r. induction rs as [|r' rs IH]; intros r.
  - cbn. rewrite append_nil_r. reflexivity.
  - change (String.concat "," (map json.Marshal (r :: r' :: rs)))
      with (json.Marshal r +:+ ","
            +:+ String.concat "," (map json.Marshal (r' :: rs))).
    rewrite IH. cbn [map]. rewrite concat_empty_cons.
    unfold joined_tail at 2. rewrite ?append_assoc. reflexivity.
Qed.

Lemma separated_length rs :
  String.length (String.concat "" (map separated rs))
  = String.length (String.concat "" (map joined_tail rs)) + length rs.
Proof.
  induction rs as [|r rs IH]; [reflexivity|].
  cbn [map length]. rewrite !concat_empty_cons, !length_append, IH.
  unfold separated, joined_tail. rewrite !length_append.
  change (String.length json.nl) with 1. lia.
Qed.

(** ** Commas *)

Lemma commas_after_records_app b tr1 tr2 :
  commas_after_records b (tr1 ++ tr2)
  = commas_after_records b tr1
    && commas_after_records (ends_with_record b tr1) tr2.
Proof.
  revert b. induction tr1 as [|ev tr1 IH]; intros b; [reflexivity|].
  assert (ends_with_record b (ev :: tr1)
          = ends_with_record
              (match ev with EvEncode _ => true | _ => false end) tr1) as E.
  { unfold ends_with_record.
    destruct tr1 as [|ev' tr1]; [destruct ev; reflexivity|].
    change (last (ev :: ev' :: tr1)) with (last (ev' :: tr1)).
    destruct (last (ev' :: tr1)) eqn:L; [reflexivity|].
    apply last_None in L. discriminate L. }
  rewrite E. destruct ev as [p|v]; cbn [app commas_after_records].
  - rewrite IH, andb_assoc. reflexivity.
  - rewrite IH. reflexivity.
Qed.

Lemma ends_with_record_snoc b tr ev :
  ends_with_record b (tr ++ [ev])
  = match ev with EvEncode _ => true | EvWrite _ => false end.
Proof. unfold ends_with_record. rewrite last_snoc. reflexivity. Qed.

Lemma streamTags_round_trace g comma s :
  round_trace comma s (streamTags_body g comma s).
Proof.
  unfold streamTags_body. unfold bind at 1. unfold wrap_w at 1. unfold onDecoder.
  pose proof (search_cases tagQuery (Decoder s)) as S.
  destruct (search tagQuery (Decoder s)) as [[res|e|] d1] eqn:E; simpl;
    [|left; reflexivity|exact S].
  apply search_ok_outcome in E.
  destruct E as [(se & -> & _)|(ee & -> & _)]; simpl; [|reflexivity].
  assert (forall s1 : streamer,
             trace (Writer s1)
             = trace (Writer s) ++ (if comma then [EvWrite ","] else []) ->
             round_trace comma s
               (bind (wrap_w "s.emitTag" (emitTag g se))
                  (fun _ => ret (inl true) : M streamer (bool + unit)) s1))
    as Hemit.
  { intros s1 H1. unfold bind, wrap_w, ret.
    pose proof (emitTag_cases g se s1) as T.
    destruct (emitTag g se s1) as [[[]|e|] s2]; cbn [round_trace].
    - destruct T as (t & _ & Ht & _). split; [reflexivity|].
      exists (fill g t). rewrite Ht, H1, <- app_assoc. reflexivity.
    - assert (trace (Writer s2) = trace (Writer s1)) as HW.
      { destruct T as [(e0 & _ & _ & HW)|(t & w & _ & _ & HW & _)];
          rewrite HW; reflexivity. }
      rewrite HW, H1. destruct comma; [right; auto|left; apply app_nil_r].
    - exact T. }
  destruct comma.
  - unfold bind at 1. unfold bind at 1. unfold wrap_w at 1.
    unfold Writer_Write, onWriter. simpl.
    pose proof (accept_cases (EvWrite ",") (Writer s)) as C.
    destruct (accept (EvWrite ",") (Writer s)) as [[[]|e|] w1]; simpl.
    + destruct C as [C _]. apply Hemit. exact C.
    + destruct C as [-> _]. left. reflexivity.
    + exact C.
  - unfold bind at 1. unfold bind at 1. unfold ret at 1.
    apply Hemit. simpl. symmetry. apply app_nil_r.
Qed.

Lemma streamTags_commas g comma s :
  comma_inv comma s ->
  commas_after_records false
    (trace (Writer (snd (forever pending (streamTags_body g) comma s))))
  = true.
Proof.
  apply (forever_ind pending (streamTags_body g) (streamTags_body_dec g)
           (fun comma s out =>
              comma_inv comma s ->
              commas_after_records false (trace (Writer (snd out))) = true)).
  clear comma s. intros comma s.
  pose proof (streamTags_round_trace g comma s) as R.
  destruct (streamTags_body g comma s) as [[[c'|[]]|e|] s1];
    cbn [round_trace snd] in *.
  - destruct R as (-> & v & Hv). intros IH [Hok Hend]. apply IH.
    unfold comma_inv. rewrite Hv, app_assoc.
    rewrite ends_with_record_snoc, commas_after_records_app.
    split; [|reflexivity]. cbn [commas_after_records]. rewrite andb_true_r.
    destruct comma; [|rewrite app_nil_r; exact Hok].
    rewrite commas_after_records_app, Hok, (Hend eq_refl). reflexivity.
  - intros [Hok _]. rewrite R. exact Hok.
  - intros [Hok Hend]. destruct R as [->|(-> & ->)]; [exact Hok|].
    rewrite commas_after_records_app, Hok, (Hend eq_refl). reflexivity.
  - destruct R.
Qed.

Lemma stream_commas s :
  commas_after_records false (trace (Writer s)) = true ->
  commas_after_records false (trace (Writer (snd (stream s)))) = true.
Proof.
  unfold stream.
  apply (forever_ind pending stream_body stream_body_dec
           (fun _ s out =>
              commas_after_records false (trace (Writer s)) = true ->
              commas_after_records false (trace (Writer (snd out))) = true)).
  clear s. intros a s.
  assert (forall out : result (unit + unit) * streamer,
             stream_body a s = out ->
             commas_after_records false (trace (Writer s)) = true ->
             commas_after_records false (trace (Writer (snd out))) = true) as H.
  { intros out <-. unfold stream_body. unfold bind at 1. unfold wrap_v at 1.
    unfold onDecoder.
    destruct (search tableQuery (Decoder s)) as [[res|e|] d1]; cbn [snd Writer];
      auto.
    destruct (xmlSearchResult.NamedStart res) as [se|]; cbn [fail snd Writer];
      auto.
    destruct (attributeByLocalName "name" se) as [tableName hasTableName].
    destruct hasTableName; cbn [negb fail snd Writer]; auto.
    intros Hok. unfold bind, wrap_w, ret.
    pose proof (streamTags_commas tableName false
                  {| Decoder := d1; Writer := Writer s |}) as C.
    unfold streamTags.
    destruct (forever pending (streamTags_body tableName) false _)
      as [[[]|e|] s2]; cbn [snd] in *; apply C; split; auto; discriminate. }
  destruct (stream_body a s) as [[[a'|b]|e|] s1] eqn:B.
  - intros IH Hok. apply IH. exact (H _ eq_refl Hok).
  - exact (H _ eq_refl).
  - exact (H _ eq_refl).
  - exact (H _ eq_refl).
Qed.

(** On every run, a comma is written only directly after a record (and so
    after the line feed that ends the record). *)
Lemma run_commas toks rawErr quota :
  commas_after_records false
    (trace (Writer (snd (run toks rawErr quota)))) = true.
Proof.
  unfold run, decodeActivity.
  pose proof (emitProlog_cases (start toks rawErr quota)) as P.
  destruct (emitProlog (start toks rawErr quota)) as [[[]|e|] s1];
    [| |destruct P].
  2:{ destruct P as [-> _]. reflexivity. }
  destruct P as [_ Ht1]. cbn [start Writer trace app] in Ht1.
  pose proof (stream_commas s1) as Q. rewrite Ht1 in Q.
  specialize (Q eq_refl).
  destruct (stream s1) as [[[]|e|] s2]; cbn [snd] in *; auto.
  destruct (errors_Is_EOF e); cbn [snd]; auto.
  pose proof (emitEpilog_cases s2) as R.
  destruct (emitEpilog s2) as [[[]|e'|] s3]; cbn [snd]; [| |destruct R].
  - destruct R as (_ & Ht3 & _). rewrite Ht3, commas_after_records_app, Q.
    reflexivity.
  - destruct R as [-> _]. exact Q.
Qed.



(** The bytes of the spec's example, with the line feed of the encoder
    before the epilogue. *)
Example example_output :
  output_of_run (doc.render example_doc) io_EOF None
  = "{" +:+ quoted "tags" +:+ ": [{"
    +:+ quoted "writable" +:+ ":true,"
    +:+ quoted "path" +:+ ":" +:+ quoted "EXIF:Make" +:+ ","
    +:+ quoted "group" +:+ ":" +:+ quoted "EXIF" +:+ ","
    +:+ quoted "description" +:+ ":{" +:+ quoted "en" +:+ ":"
    +:+ quoted "Manufacturer" +:+ "},"
    +:+ quoted "type" +:+ ":" +:+ quoted "string" +:+ "}"
    +:+ json.nl +:+ "]}".
Proof. vm_compute. reflexivity. Qed.

(** ** A text that stops after the prologue is not JSON *)

Lemma last_char_app (a b : string) :
  b <> "" -> last_char (a +:+ b) = last_char b.
Proof.
  intros Hb. induction a as [|c a IH]; [reflexivity|].
  change (last_char (String c (a +:+ b)) = last_char b).
  cbn [last_char]. destruct (a +:+ b) eqn:E; [|exact IH].
  destruct a; [|discriminate E]. contradiction.
Qed.

Lemma last_char_nonempty s : s <> "" -> exists c, last_char s = Some c.
Proof.
  induction s as [|c s IH]; [congruence|]. intros _.
  destruct s as [|c' s]; [exists c; reflexivity|].
  destruct IH as (x & Hx); [discriminate|]. exists x. exact Hx.
Qed.

Lemma last_char_app_nil (a : string) : last_char (a +:+ "") = last_char a.
Proof. rewrite append_nil_r. reflexivity. Qed.

Lemma digits_last s :
  JSON.digits s = true -> s <> "" ->
  exists c, last_char s = Some c /\ JSON.digit c = true.
Proof.
  induction s as [|c s IH]; [congruence|]. intros H _.
  cbn [JSON.digits] in H. apply andb_true_iff in H. destruct H as [Hc Hs].
  destruct s as [|c' s]; [exists c; auto|].
  destruct (IH Hs) as (x & Hx & Hd); [discriminate|]. exists x. auto.
Qed.

Lemma int_lit_last i :
  JSON.int_lit i = true ->
  exists c, last_char i = Some c /\ JSON.digit c = true.
Proof.
  destruct i as [|c s]; [discriminate|]. unfold JSON.int_lit.
  destruct (Ascii.eqb_spec c "0"%char) as [->|_].
  - intros H. apply String.eqb_eq in H. subst s. exists "0"%char. auto.
  - intros H. apply digits_last; [exact H|discriminate].
Qed.

Lemma number_last s :
  JSON.IsNumber s -> exists c, last_char s = Some c /\ JSON.digit c = true.
Proof.
  intros (sign & i & frac & ex & -> & _ & Hi & Hf & He).
  assert (i <> "") as Hine by (destruct i; [discriminate Hi|discriminate]).
  destruct He as [->|(e & sg & ds & -> & He & _ & Hne & Hd)].
  - rewrite append_nil_r.
    destruct Hf as [->|(ds & -> & Hne & Hd)].
    + rewrite append_nil_r, last_char_app by exact Hine.
      apply int_lit_last. exact Hi.
    + rewrite <- !append_assoc, last_char_app by exact Hne.
      apply digits_last; assumption.
  - rewrite <- !append_assoc, last_char_app by exact Hne.
    apply digits_last; assumption.
Qed.

Lemma Parses_last v s :
  JSON.Parses v s -> exists c, last_char s = Some c /\ closing c = true.
Proof.
  destruct 1 as [|b|s Hn|body _|w _|v vs s _|w _|m ms s _].
  - exists "l"%char. auto.
  - exists "e"%char. destruct b; auto.
  - destruct (number_last s Hn) as (c & Hc & Hd). exists c. split; [exact Hc|].
    unfold closing. rewrite Hd. reflexivity.
  - exists "034"%char.
    rewrite <- append_assoc, last_char_app by discriminate. auto.
  - exists "]"%char. rewrite <- append_assoc, last_char_app by discriminate. auto.
  - exists "]"%char. rewrite <- append_assoc, last_char_app by discriminate. auto.
  - exists "}"%char. rewrite <- append_assoc, last_char_app by discriminate. auto.
  - exists "}"%char. rewrite <- append_assoc, last_char_app by discriminate. auto.
Qed.

Lemma Ws_last w :
  JSON.Ws w = true -> w <> "" ->
  exists c, last_char w = Some c /\ JSON.ws_char c = true.
Proof.
  induction w as [|c w IH]; [congruence|]. intros H _.
  cbn [JSON.Ws] in H. apply andb_true_iff in H. destruct H as [Hc Hw].
  destruct w as [|c' w]; [exists c; auto|].
  destruct (IH Hw) as (x & Hx & Hd); [discriminate|]. exists x. auto.
Qed.

(** A JSON text ends with the end of a value or with white space. *)
Lemma Text_last v s :
  JSON.Text v s ->
  exists c, last_char s = Some c
            /\ (closing c = true \/ JSON.ws_char c = true).
Proof.
  unfold JSON.Text. destruct 1 as [w1 v s w2 _ Hp Hw2].
  destruct (Parses_last v s Hp) as (c & Hc & Hcl).
  destruct w2 as [|x w2].
  - rewrite append_nil_r, last_char_app by (destruct s; discriminate).
    exists c. auto.
  - rewrite <- append_assoc, last_char_app by discriminate.
    destruct (Ws_last (String x w2) Hw2) as (y & Hy & Hws); [discriminate|].
    exists y. auto.
Qed.

Lemma prolog_not_JSON v : ~ JSON.Text v prolog.
Proof.
  intros H. apply Text_last in H. destruct H as (c & Hc & H).
  inversion Hc; subst c. destruct H as [H|H]; discriminate H.
Qed.

(** ** Where the code departs from the spec *)

(** Without any table the search for a table meets the end of the input;
    [stream] formats that error with [%v], so [errors.Is(streamErr,
    io.EOF)] is false. *)
Lemma stream_no_table toks rawErr tr quota :
  (forall se, In (xml.TStart se) toks -> xml.Name se <> "table") ->
  exists e s',
    stream {| Decoder := {| xml.input := toks; xml.rawErr := rawErr;
                            xml.stk := [] |};
              Writer := {| trace := tr; quota := quota |} |}
    = (Err (error_of (TableSearch e)), s')
    /\ Writer s' = {| trace := tr; quota := quota |}.
Proof.
  intros Hno. unfold stream.
  rewrite forever_unfold by apply stream_body_dec.
  unfold stream_body at 1. unfold bind at 1. unfold wrap_v at 1.
  unfold onDecoder. cbn [Decoder Writer].
  pose proof (search_cases tableQuery
                {| xml.input := toks; xml.rawErr := rawErr; xml.stk := [] |})
    as S.
  destruct (search tableQuery _) as [[r|e|] d1] eqn:E; [| |destruct S].
  - exfalso. apply search_ok_outcome in E.
    destruct E as [(v & _ & Hin & Hn & _)|(v & _ & _ & _ & Hne)].
    + exact (Hno v Hin Hn).
    + apply Hne. reflexivity.
  - destruct S as (_ & _ & e0 & -> & _). exists e0. eexists.
    split; reflexivity.
Qed.

(** C2 on the code: for [<taginfo></taginfo>], a listing without any
    table, the run reports the error of the table search and cancels; the
    sink has the prologue only, not [{"tags": []}]. *)
Theorem no_table_leaves_prologue_only :
  exists s',
    run no_table io_EOF None
    = (Ok (Some (wrapError "stream: search: decoder.Token: EOF"
                   (errorString "search: decoder.Token: EOF")), true), s')
    /\ written (Writer s') = prolog
    /\ written (Writer s') <> prolog +:+ epilog
    /\ ~ epilog_written s'
    /\ forall v, ~ JSON.Text v (written (Writer s')).
Proof.
  eexists. split; [vm_compute; reflexivity|].
  split; [reflexivity|]. split; [discriminate|]. split.
  - unfold epilog_written. cbn. discriminate.
  - apply prolog_not_JSON.
Qed.

(** The same for every input without a table opening, whatever the reader
    ends with: an error is reported and the sink has the prologue only. *)
Lemma run_no_table toks rawErr :
  (forall se, In (xml.TStart se) toks -> xml.Name se <> "table") ->
  exists e s',
    run toks rawErr None
    = (Ok (Some (Errorf_w "stream" (error_of (TableSearch e))), true), s')
    /\ written (Writer s') = prolog.
Proof.
  intros Hno. unfold run, decodeActivity.
  change (emitProlog (start toks rawErr None))
    with (Ok tt, {| Decoder := {| xml.input := toks; xml.rawErr := rawErr;
                                  xml.stk := [] |};
                    Writer := {| trace := [EvWrite prolog]; quota := None |} |}).
  cbv iota beta.
  destruct (stream_no_table toks rawErr [EvWrite prolog] None Hno)
    as (e & s' & -> & HW).
  exists e, s'. split; [reflexivity|]. unfold written. rewrite HW. reflexivity.
Qed.

(** C3 on the code: for two tables [A] (with the tag [x]) and [B] (with
    the tag [y]), the record of [y] carries the group [A] and the path
    [A:y]. *)
Theorem later_table_keeps_first_group :
  map Group (records_of_run (doc.render two_tables) io_EOF None) = ["A"; "A"]
  /\ map Path (records_of_run (doc.render two_tables) io_EOF None)
     = ["A:x"; "A:y"]
  /\ map Name (records_of_run (doc.render two_tables) io_EOF None)
     = ["x"; "y"].
Proof.
  unfold two_tables. rewrite records_doc. repeat split.
Qed.

(** The same for every document: each record carries the name of the
    first table. *)
Lemma every_record_in_first_group (tb : doc.Table) (tables : list doc.Table) :
  Forall (fun v => Group v = doc.tname tb)
         (records_of_run (doc.render (tb :: tables)) io_EOF None).
Proof.
  rewrite records_doc. unfold records_of_doc. apply Forall_map.
  apply Forall_forall. intros t _. reflexivity.
Qed.

(** C4 on the code: for the document with no table the sink has the
    prologue only; its last character is the opening bracket, so it is not
    of the form [{"tags": [...]}] and no JSON text. *)
Theorem empty_document_not_closed :
  output_of_run (doc.render []) io_EOF None = prolog
  /\ fst (run (doc.render []) io_EOF None)
     = Ok (Some (Errorf_w "stream" (error_of (TableSearch io_EOF))), true)
  /\ (forall body, output_of_run (doc.render []) io_EOF None
                   <> body +:+ epilog)
  /\ forall v, ~ JSON.Text v (output_of_run (doc.render []) io_EOF None).
Proof.
  split; [reflexivity|]. split; [reflexivity|]. split.
  - intros body E. apply (f_equal last_char) in E.
    rewrite last_char_app in E by discriminate. discriminate E.
  - apply prolog_not_JSON.
Qed.

(** C6 on the code: for [<table name="A"></table><table></table>] the run
    reports no error, and the epilogue is written: the table without a
    name is passed over by the tag search of [streamTags]. *)
Theorem unnamed_later_table_not_reported :
  exists s',
    run second_table_unnamed io_EOF None = (Ok (None, false), s')
    /\ written (Writer s') = prolog +:+ epilog
    /\ epilog_written s'.
Proof.
  eexists. split; [vm_compute; reflexivity|].
  split; reflexivity.
Qed.

(** A first table without a name is reported, and nothing but the
    prologue reaches the sink. *)
Example unnamed_first_table_reported :
  exists s',
    run [doc.open "table" []; doc.close "table"] io_EOF None
    = (Ok (Some (Errorf_w "stream" (error_of NoTableName)), true), s')
    /\ written (Writer s') = prolog.
Proof.
  eexists. split; [vm_compute; reflexivity|reflexivity].
Qed.

(** ** The two goroutines *)

Lemma run_inv (Inv : conc.state -> Prop) (ok : conc.label -> bool) o :
  (forall l st st', ok l = true -> Inv st -> conc.step o l st = Some st' ->
                    Inv st') ->
  forall sched st st',
    forallb ok sched = true -> Inv st -> conc.run o sched st = Some st' ->
    Inv st'.
Proof.
  intros Hstep. induction sched as [|l sched IH]; intros st st' Hok Hi Hr.
  - inversion Hr; subst. exact Hi.
  - simpl in Hok. apply andb_true_iff in Hok. destruct Hok as [Hl Hok].
    simpl in Hr. destruct (conc.step o l st) as [st1|] eqn:E; [|discriminate].
    exact (IH st1 st' Hok (Hstep l st st1 Hl Hi E) Hr).
Qed.

Lemma forced_step e1 l st st' :
  match l with conc.Exit _ => false | _ => true end = true ->
  forced_inv e1 st -> conc.step (Some e1, true) l st = Some st' ->
  forced_inv e1 st'.
Proof.
  intros Hl Hi Hs. destruct st as [err g1 g2 proc cancelled].
  unfold forced_inv in *. simpl in *.
  destruct Hi as [(-> & -> & -> & Hg)|(-> & -> & -> & Hg)].
  - destruct l; try discriminate Hl; simpl in Hs.
    + destruct Hg as [(-> & ->)|[(-> & ->)|(-> & ->)]];
        inversion Hs; subst; simpl; auto 10.
    + discriminate Hs.
    + discriminate Hs.
  - destruct l; try discriminate Hl; simpl in Hs.
    + discriminate Hs.
    + destruct Hg as [ -> | [ (w & ->) | -> ] ].
      * destruct proc; inversion Hs; subst; simpl. right. eauto 10.
      * inversion Hs; subst; simpl. right.
        destruct w; auto 10.
      * discriminate Hs.
    + destruct proc; inversion Hs; subst; simpl. right. auto 10.
Qed.

(** X9.  When the stream has failed with an error that makes the first
    goroutine cancel, and the subprocess ends only by being killed, the
    error of the stream is the one [StreamTags] returns, on every
    complete schedule. *)
Lemma forced_termination_keeps_stream_error e1 sched r :
  conc.only_killed sched = true ->
  conc.StreamTags (Some e1, true) sched = Some r -> r = Some e1.
Proof.
  unfold conc.StreamTags, conc.only_killed. intros Hk H.
  destruct (conc.run (Some e1, true) sched conc.init) as [st|] eqn:R;
    [|discriminate].
  assert (forced_inv e1 conc.init) as H0 by (left; simpl; auto 10).
  assert (forced_inv e1 st) as Hi.
  { apply (run_inv (forced_inv e1) _ (Some e1, true)
             (forced_step e1) sched conc.init st Hk H0 R). }
  unfold conc.joined in H.
  destruct Hi as [(_ & _ & Hg2 & _)|(_ & _ & He & _)].
  - rewrite Hg2 in H. destruct (conc.g1 st); discriminate.
  - destruct (conc.g1 st); try discriminate.
    destruct (conc.g2 st); try discriminate.
    inversion H. congruence.
Qed.

Lemma quiet_step c l st st' :
  (fun _ : conc.label => true) l = true ->
  quiet_inv st -> conc.step (None, c) l st = Some st' -> quiet_inv st'.
Proof.
  intros _ Hi Hs. destruct st as [err g1 g2 proc cancelled].
  unfold quiet_inv in *. simpl in *. destruct Hi as [Hg1 Hg2].
  destruct l; simpl in Hs.
  - destruct Hg1 as [ -> | -> ]; inversion Hs; subst; simpl; auto.
  - destruct g2 as [|w|e|].
    + destruct proc; inversion Hs; subst; simpl; auto.
    + destruct Hg2 as (-> & ->). inversion Hs; subst; simpl.
      destruct w; simpl; eauto.
    + destruct Hg2 as (-> & ->). inversion Hs; subst; simpl. eauto.
    + discriminate Hs.
  - destruct proc; inversion Hs; subst; simpl. split; [exact Hg1|].
    destruct g2; try exact Hg2.
    + destruct Hg2 as [Hp _]. discriminate Hp.
    + destruct Hg2 as [Hp _]. discriminate Hp.
    + destruct Hg2 as (w & Hp & _). discriminate Hp.
  - destruct proc, cancelled; inversion Hs; subst; simpl. split; [exact Hg1|].
    destruct g2; try exact Hg2.
    + destruct Hg2 as [Hp _]. discriminate Hp.
    + destruct Hg2 as [Hp _]. discriminate Hp.
    + destruct Hg2 as (w & Hp & _). discriminate Hp.
Qed.

(** X10.  When the first goroutine has no error, what [StreamTags]
    returns is the status of the subprocess: its error, wrapped as
    [et.cmd.Wait: %w], or [nil]. *)
Lemma no_stream_error_returns_wait_status c sched st :
  conc.run (None, c) sched conc.init = Some st -> conc.joined st = true ->
  exists w, conc.proc st = conc.Exited w
            /\ conc.err st = Errorf_w "et.cmd.Wait" <$> w.
Proof.
  intros R J.
  assert (forallb (fun _ : conc.label => true) sched = true) as Hall
    by (clear; induction sched; simpl; auto).
  assert (quiet_inv conc.init) as H0 by (split; simpl; auto).
  assert (quiet_inv st) as [_ Hi].
  { apply (run_inv quiet_inv (fun _ => true) (None, c)
             (quiet_step c) sched conc.init st Hall H0 R). }
  unfold conc.joined in J.
  destruct (conc.g1 st); try discriminate.
  destruct (conc.g2 st); try discriminate. exact Hi.
Qed.

(** C5 on the code: the subprocess dies in the middle of a tag with exit
    status 1.  The first goroutine has the decoding error to report; on the
    schedule [race], in which the second goroutine finds [err == nil]
    before the first assigns, [StreamTags] returns the error of
    [et.cmd.Wait] and not the one of the stream. *)
Theorem wait_error_can_overwrite_stream_error :
  exists streamErr s',
    run cut_in_tag io_EOF None = (Ok (Some streamErr, true), s')
    /\ conc.StreamTags (Some streamErr, true)
         (race (errorString "exit status 1"))
       = Some (Some (Errorf_w "et.cmd.Wait" (errorString "exit status 1")))
    /\ Some (Errorf_w "et.cmd.Wait" (errorString "exit status 1"))
       <> Some streamErr.
Proof.
  eexists _, _. split; [vm_compute; reflexivity|].
  split; [reflexivity|discriminate].
Qed.

(** ** The library models on samples *)

Example encodeString_escapes_html :
  json.encodeString "a<b&c>" = quoted "a\u003cb\u0026c\u003e".
Proof. reflexivity. Qed.

Example encodeString_escapes_controls :
  json.encodeString (json.dq +:+ json.bs +:+ json.nl +:+ String "001"%char "")
  = quoted (json.bs +:+ json.dq +:+ "\\\n\u0001").
Proof. reflexivity. Qed.

Example encodeString_line_separator :
  json.encodeString (String "226"%char (String "128"%char (String "168"%char "x")))
  = quoted "\u2028x".
Proof. reflexivity. Qed.

Example encodeString_invalid_utf8 :
  json.encodeString (String "195"%char "x") = quoted "\ufffdx".
Proof. reflexivity. Qed.

Example encodeString_keeps_utf8 :
  json.encodeString (String "195"%char (String "169"%char "x"))
  = quoted (String "195"%char (String "169"%char "x")).
Proof. reflexivity. Qed.

Example encodeMap_sorts_and_overwrites :
  json.encodeMap
    (Some (describe [{| Lang := "fr"; Value := "b" |};
                     {| Lang := "en"; Value := "a" |};
                     {| Lang := "fr"; Value := "c" |}]))
  = "{" +:+ quoted "en" +:+ ":" +:+ quoted "a" +:+ ","
    +:+ quoted "fr" +:+ ":" +:+ quoted "c" +:+ "}".
Proof. vm_compute. reflexivity. Qed.

Example Token_checks_nesting :
  fst (xml.Decoder_Token
         {| xml.input := [doc.close "b"]; xml.rawErr := io_EOF;
            xml.stk := ["a"] |})
  = Err (xml.syntaxError "element <a> closed by </b>").
Proof. reflexivity. Qed.

Example Token_EOF_inside_element :
  fst (xml.Decoder_Token
         {| xml.input := []; xml.rawErr := io_EOF; xml.stk := ["a"] |})
  = Err (xml.syntaxError "unexpected EOF").
Proof. reflexivity. Qed.

Example Token_EOF_at_top :
  fst (xml.Decoder_Token
         {| xml.input := []; xml.rawErr := io_EOF; xml.stk := [] |})
  = Err io_EOF.
Proof. reflexivity. Qed.

Example copyValue_bool_trims : decode.copyValue_bool " true " = Ok true.
Proof. reflexivity. Qed.

(** Unicode white space is trimmed as well: a no-break space (U+00A0)
    after the value, a next line (U+0085) and an ideographic space
    (U+3000) before it. *)
Example copyValue_bool_trims_nbsp :
  decode.copyValue_bool ("true" +:+ String "194" (String "160" ""))
  = Ok true.
Proof. reflexivity. Qed.

Example copyValue_bool_trims_unicode :
  decode.copyValue_bool
    (String "194" (String "133" "")
     +:+ String "227" (String "128" (String "128" ""))
     +:+ "false"
     +:+ String "226" (String "128" (String "131" "")) +:+ " ")
  = Ok false.
Proof. reflexivity. Qed.

(** A zero width space (U+200B) is no white space, and a byte that is
    not UTF-8 is none either. *)
Example copyValue_bool_keeps_zwsp :
  decode.TrimSpace
    (" true" +:+ String "226" (String "128" (String "139" "")))
  = "true" +:+ String "226" (String "128" (String "139" "")).
Proof. reflexivity. Qed.

Example copyValue_bool_keeps_stray_byte :
  decode.TrimSpace (" true" +:+ String "160" " ")
  = "true" +:+ String "160" "".
Proof. reflexivity. Qed.

Example copyValue_bool_rejects :
  decode.copyValue_bool "yes"
  = Err (errorString ("strconv.ParseBool: parsing " +:+ quoted "yes"
                      +:+ ": invalid syntax")).
Proof. reflexivity. Qed.

Example errors_Is_through_w :
  errors_Is_EOF (Errorf_w "s.streamTags" (Errorf_w "search" io_EOF)) = true.
Proof. reflexivity. Qed.

Example errors_Is_stops_at_v :
  errors_Is_EOF (Errorf_v "search" (Errorf_w "decoder.Token" io_EOF)) = false.
Proof. reflexivity. Qed.

(** * Further properties of the code *)

(** ** [attributeByLocalName] and [search] *)

(** X1.  [attributeByLocalName] returns the value of the first attribute
    with the given local name, and [true]; when no attribute has that
    name it returns the empty string and [false] (so an attribute that is
    present with an empty value is told from a missing one). *)
Theorem attributeByLocalName_first (name : string) (se : xml.StartElement) :
  match attributeByLocalName name se with
  | (v, true) =>
      exists before a after,
        xml.Attrs se = before ++ a :: after
        /\ absent name before
        /\ xml.AName a = name /\ xml.AValue a = v
  | (v, false) => v = "" /\ absent name (xml.Attrs se)
  end.
Proof.
  unfold attributeByLocalName, absent.
  induction (xml.Attrs se) as [|a attrs IH]; [split; constructor|].
  destruct (String.eqb_spec (xml.AName a) name) as [E|E].
  - exists [], a, attrs. repeat split; [constructor|exact E].
  - match goal with
    | |- match ?x with _ => _ end => destruct x as [v [|]]
    end.
    + destruct IH as (before & b & after & -> & Hb & Hn & Hv).
      exists (a :: before), b, after. repeat split; auto.
    + destruct IH as [-> Hall]. split; [reflexivity|]. constructor; auto.
Qed.

Lemma Token_ok_input d tok d' :
  xml.Decoder_Token d = (Ok tok, d') ->
  xml.input d = tok :: xml.input d' /\ xml.rawErr d' = xml.rawErr d.
Proof.
  intros T. pose proof (Token_cases d) as C. rewrite T in C.
  destruct tok;
    [ destruct C as (rest & -> & ->)
    | destruct C as (rest & st & -> & _ & ->)
    | destruct C as (rest & -> & ->)
    | destruct C as (rest & -> & ->) ]; simpl; auto.
Qed.

Lemma search_step_nomatch q d tok d1 :
  xml.Decoder_Token d = (Ok tok, d1) -> matches q tok = false ->
  search q d = search q d1.
Proof.
  intros T Hm. rewrite (search_unfold q d), T.
  destruct tok as [v|v|data|]; simpl in Hm; try reflexivity.
  - destruct (String.eqb (xmlQuery.NamedStart q) ""); [reflexivity|].
    simpl in Hm. rewrite Hm. reflexivity.
  - destruct (String.eqb (xmlQuery.NamedEnd q) ""); [reflexivity|].
    simpl in Hm. rewrite Hm. reflexivity.
Qed.

Lemma search_step_match q d tok d1 :
  xml.Decoder_Token d = (Ok tok, d1) -> matches q tok = true ->
  search q d = (Ok (found tok), d1).
Proof.
  intros T Hm. rewrite (search_unfold q d), T.
  destruct tok as [v|v|data|]; simpl in Hm; try discriminate Hm.
  - apply andb_true_iff in Hm. destruct Hm as [H1 H2].
    apply negb_true_iff in H1. rewrite H1, H2. reflexivity.
  - apply andb_true_iff in Hm. destruct Hm as [H1 H2].
    apply negb_true_iff in H1. rewrite H1, H2. reflexivity.
Qed.

(** X2.  A successful [search] returns at the first token that matches
    the query: the tokens it read before are the ones in front of that
    token in the input and none of them matches, the result is built
    from that token, and the decoder is left directly behind it. *)
Theorem search_returns_first_match (q : xmlQuery.t) (d d' : xml.Decoder)
  (r : xmlSearchResult.t) :
  search q d = (Ok r, d') ->
  exists skipped tok,
    xml.input d = skipped ++ tok :: xml.input d'
    /\ Forall (fun t => matches q t = false) skipped
    /\ matches q tok = true
    /\ r = found tok
    /\ xml.rawErr d' = xml.rawErr d.
Proof.
  remember (xml.remaining d) as k eqn:Hk. revert d Hk.
  induction k as [k IH] using lt_wf_ind. intros d -> H.
  destruct (xml.Decoder_Token d) as [[tok|e|] d1] eqn:T.
  - destruct (Token_ok_input _ _ _ T) as [Hin Hre].
    destruct (matches q tok) eqn:Hm.
    + rewrite (search_step_match _ _ _ _ T Hm) in H. inversion H; subst.
      exists [], tok. repeat split; auto.
    + rewrite (search_step_nomatch _ _ _ _ T Hm) in H.
      destruct (IH _ (Token_ok_lt _ _ _ T) d1 eq_refl H)
        as (skipped & tok' & Hin' & Hall & Hm' & Hr & Hre').
      exists (tok :: skipped), tok'. rewrite Hin, Hin'.
      repeat split; auto. congruence.
  - rewrite search_unfold, T in H. discriminate H.
  - rewrite search_unfold, T in H. discriminate H.
Qed.

(** The tag search of [streamTags] in front of [<desc>], [</desc>] and
    [<tag name="x">]: it returns at the third token. *)
Lemma search_returns_first_match_witness :
  let se := {| xml.Name := "tag"; xml.Attrs := [doc.attr "name" "x"] |} in
  let d := {| xml.input := [doc.open "desc" []; doc.close "desc";
                            xml.TStart se; doc.close "tag"];
              xml.rawErr := io_EOF; xml.stk := ["table"] |} in
  let d' := {| xml.input := [doc.close "tag"]; xml.rawErr := io_EOF;
               xml.stk := ["tag"; "table"] |} in
  search tagQuery d = (Ok (found (xml.TStart se)), d')
  /\ exists skipped tok,
      xml.input d = skipped ++ tok :: xml.input d'
      /\ Forall (fun t => matches tagQuery t = false) skipped
      /\ matches tagQuery tok = true
      /\ found (xml.TStart se) = found tok
      /\ xml.rawErr d' = xml.rawErr d.
Proof.
  intros se d d'.
  assert (search tagQuery d = (Ok (found (xml.TStart se)), d')) as H
    by (vm_compute; reflexivity).
  split; [exact H|].
  exact (search_returns_first_match tagQuery d d' _ H).
Defined.

(** X3.  [search] fails only when [decoder.Token] does: its error is
    that error wrapped as [decoder.Token: %w], so [errors.Is(err,
    io.EOF)] holds of it exactly when it holds of the decoder's error;
    the decoder gives the same error again; and no token in front of the
    failure matches the query. *)
Theorem search_fails_with_token_error (q : xmlQuery.t) (d d' : xml.Decoder)
  (e : error) :
  search q d = (Err e, d') ->
  exists tokErr skipped rest,
    e = wrapError ("decoder.Token: " +:+ Error tokErr) tokErr
    /\ errors_Is_EOF e = errors_Is_EOF tokErr
    /\ xml.Decoder_Token d' = (Err tokErr, d')
    /\ xml.input d = skipped ++ rest
    /\ Forall (fun t => matches q t = false) skipped
    /\ fst (xml.Decoder_Token
              {| xml.input := rest; xml.rawErr := xml.rawErr d;
                 xml.stk := xml.stk d' |})
       = Err tokErr.
Proof.
  remember (xml.remaining d) as k eqn:Hk. revert d Hk.
  induction k as [k IH] using lt_wf_ind. intros d -> H.
  destruct (xml.Decoder_Token d) as [[tok|e0|] d1] eqn:T.
  - destruct (Token_ok_input _ _ _ T) as [Hin Hre].
    destruct (matches q tok) eqn:Hm.
    + rewrite (search_step_match _ _ _ _ T Hm) in H. discriminate H.
    + rewrite (search_step_nomatch _ _ _ _ T Hm) in H.
      destruct (IH _ (Token_ok_lt _ _ _ T) d1 eq_refl H)
        as (tokErr & skipped & rest & He & HIs & Hagain & Hin' & Hall & Hat).
      exists tokErr, (tok :: skipped), rest. rewrite Hin, Hin'.
      repeat split; auto. rewrite <- Hre. exact Hat.
  - rewrite search_unfold, T in H. inversion H; subst.
    exists e0, [], (xml.input d). repeat split; auto.
    + apply (Token_err_again _ _ _ T).
    + assert (xml.stk d' = xml.stk d) as ->.
      { pose proof (Token_cases d) as C. rewrite T in C.
        destruct C as [(msg & _ & _ & Hs & _)|[(-> & _)|(-> & _)]]; auto. }
      destruct d as [inp re st]. simpl. rewrite T. reflexivity.
  - rewrite search_unfold, T in H. discriminate H.
Qed.

(** The tag search of [streamTags] at [<desc>] and then the end of the
    input inside [<table>]: the decoder reports [unexpected EOF], which is
    no [io.EOF]. *)
Lemma search_fails_with_token_error_witness :
  let d := {| xml.input := [doc.open "desc" []]; xml.rawErr := io_EOF;
              xml.stk := ["table"] |} in
  let d' := {| xml.input := []; xml.rawErr := io_EOF;
               xml.stk := ["desc"; "table"] |} in
  let e := Errorf_w "decoder.Token" (xml.syntaxError "unexpected EOF") in
  search tagQuery d = (Err e, d')
  /\ errors_Is_EOF e = false
  /\ exists tokErr skipped rest,
      e = wrapError ("decoder.Token: " +:+ Error tokErr) tokErr
      /\ errors_Is_EOF e = errors_Is_EOF tokErr
      /\ xml.Decoder_Token d' = (Err tokErr, d')
      /\ xml.input d = skipped ++ rest
      /\ Forall (fun t => matches tagQuery t = false) skipped
      /\ fst (xml.Decoder_Token
                {| xml.input := rest; xml.rawErr := xml.rawErr d;
                   xml.stk := xml.stk d' |})
         = Err tokErr.
Proof.
  intros d d' e.
  assert (search tagQuery d = (Err e, d')) as H by (vm_compute; reflexivity).
  split; [exact H|]. split; [reflexivity|].
  exact (search_fails_with_token_error tagQuery d d' e H).
Defined.

(** X4.  A query with both names empty matches no token: [search] reads
    the input to the point where the decoder fails and returns that
    error. *)
Theorem search_empty_query_fails (q : xmlQuery.t) (d : xml.Decoder) :
  xmlQuery.NamedStart q = "" -> xmlQuery.NamedEnd q = "" ->
  exists tokErr d',
    search q d = (Err (Errorf_w "decoder.Token" tokErr), d')
    /\ xml.Decoder_Token d' = (Err tokErr, d').
Proof.
  intros Hs He.
  destruct (search q d) as [[r|e|] d'] eqn:H.
  - exfalso. apply search_ok_outcome in H.
    destruct H as [(v & _ & _ & _ & Hne)|(v & _ & _ & _ & Hne)]; auto.
  - pose proof (search_cases q d) as C. rewrite H in C.
    destruct C as (_ & _ & e0 & -> & HT & _). eauto.
  - exfalso. exact (search_total _ _ _ H).
Qed.

Lemma search_empty_query_fails_witness :
  exists tokErr d',
    search {| xmlQuery.NamedStart := ""; xmlQuery.NamedEnd := "" |}
      {| xml.input := doc.render example_doc; xml.rawErr := io_EOF;
         xml.stk := [] |}
    = (Err (Errorf_w "decoder.Token" tokErr), d')
    /\ xml.Decoder_Token d' = (Err tokErr, d').
Proof.
  apply (search_empty_query_fails
           {| xmlQuery.NamedStart := ""; xmlQuery.NamedEnd := "" |});
    reflexivity.
Defined.

(** ** [stream] and the goroutine that runs it *)

(** X5.  [stream] never returns [nil] and never runs for ever: on every
    streamer it comes back with an error, for one of the six causes; it
    has not pushed the decoder back, the sink has only grown, by commas
    and records; and it never dereferences a [nil] [table.NamedStart]. *)
Theorem stream_always_fails (s : streamer) :
  exists c s',
    stream s = (Err (error_of c), s')
    /\ error_of c <> nilDereference
    /\ pending s' <= pending s
    /\ extends (fun ev => exists g, tag_event g ev) s s'.
Proof.
  pose proof (stream_post_holds s) as P.
  destruct (stream s) as [[[]|e|] s'] eqn:E; [destruct P| |destruct P].
  destruct P as (Hle & _ & Hext & c & -> & _).
  exists c, s'. repeat split; auto.
  destruct c; discriminate.
Qed.

Lemma tag_events_no_epilog evs :
  Forall (fun ev => exists g, tag_event g ev) evs ->
  Forall (fun ev => ev <> EvWrite epilog) evs.
Proof.
  intros F. eapply Forall_impl; [exact F|]. simpl.
  intros ev (g & [->|(t & ->)]); discriminate.
Qed.

Lemma no_epilog_last tr evs :
  tr = EvWrite prolog :: evs ->
  Forall (fun ev => exists g, tag_event g ev) evs ->
  last tr <> Some (EvWrite epilog).
Proof.
  intros -> F Hl.
  assert (Forall (fun ev => ev <> EvWrite epilog) (EvWrite prolog :: evs)) as F'
    by (constructor; [discriminate|apply tag_events_no_epilog; exact F]).
  exact (last_Forall _ _ _ F' Hl eq_refl).
Qed.

(** X6.  The goroutine that decodes always comes to an end.  It reports
    no error exactly when the epilogue is the last thing the sink
    received; it cancels the subprocess only together with an error; and
    the sink has received either nothing (the prologue was refused) or
    the prologue, then commas and records, then the epilogue or
    nothing. *)
Theorem run_reports_error_unless_epilog (toks : list xml.Token)
  (rawErr : error) (quota : option (nat * error)) :
  exists o s',
    run toks rawErr quota = (Ok o, s')
    /\ (fst o = None <-> epilog_written s')
    /\ (snd o = true -> fst o <> None)
    /\ (trace (Writer s') = [] \/ run_shape (trace (Writer s'))).
Proof.
  unfold run, decodeActivity, epilog_written.
  pose proof (emitProlog_cases (start toks rawErr quota)) as P.
  destruct (emitProlog (start toks rawErr quota)) as [[[]|e|] s1];
    [| |destruct P].
  2:{ destruct P as [-> _]. eexists _, _. split; [reflexivity|].
      cbn. repeat split; auto; discriminate. }
  destruct P as [_ Ht1]. cbn [start Writer trace app] in Ht1.
  pose proof (stream_post_holds s1) as Q.
  destruct (stream s1) as [[[]|streamErr|] s2]; [destruct Q| |destruct Q].
  destruct Q as (_ & _ & (evs & Ht2 & F) & c & -> & _).
  rewrite Ht1 in Ht2. cbn [app] in Ht2.
  pose proof (no_epilog_last _ _ Ht2 F) as Hno.
  assert (run_shape (trace (Writer s2))) as Hshape.
  { exists evs, []. rewrite app_nil_r. auto. }
  destruct (errors_Is_EOF (error_of c)).
  - pose proof (emitEpilog_cases s2) as R.
    destruct (emitEpilog s2) as [[[]|e'|] s3]; [| |destruct R].
    + destruct R as (_ & Ht3 & _). eexists _, _. split; [reflexivity|].
      cbn [fst snd]. rewrite Ht3, last_snoc. repeat split; auto; try discriminate.
      right. exists evs, [EvWrite epilog]. rewrite Ht2. auto.
    + destruct R as [-> _]. eexists _, _. split; [reflexivity|].
      cbn [fst snd]. repeat split; auto; try discriminate.
      intros H. contradiction.
  - eexists _, _. split; [reflexivity|].
    cbn [fst snd]. repeat split; auto; try discriminate.
    intros H. contradiction.
Qed.

(** ** The attributes of a record *)

Lemma lastAttr_cons name a attrs :
  lastAttr name (a :: attrs)
  = match lastAttr name attrs with
    | Some x => Some x
    | None => if String.eqb (xml.AName a) name then Some (xml.AValue a) else None
    end.
Proof.
  unfold lastAttr.
  destruct (String.eqb_spec (xml.AName a) name) as [E|E].
  - rewrite filter_cons_True by exact E. rewrite last_cons.
    destruct (last _); reflexivity.
  - rewrite filter_cons_False by exact E. destruct (last _); reflexivity.
Qed.

Lemma unmarshalAttrs_tag_fields attrs v v' :
  decode.unmarshalAttrs_tag attrs v = Ok v' ->
  Name v' = default (Name v) (lastAttr "name" attrs)
  /\ Type_ v' = default (Type_ v) (lastAttr "type" attrs)
  /\ match lastAttr "writable" attrs with
     | None => Writable v' = Writable v
     | Some x => decode.copyValue_bool x = Ok (Writable v')
     end.
Proof.
  revert v. induction attrs as [|a attrs IH]; intros v H.
  - inversion H. subst. repeat split.
  - rewrite !lastAttr_cons. simpl in H. revert H.
    destruct (String.eqb_spec (xml.AName a) "name") as [E1|E1];
      [|destruct (String.eqb_spec (xml.AName a) "writable") as [E2|E2];
        [|destruct (String.eqb_spec (xml.AName a) "type") as [E3|E3]]];
      try rewrite E1; try rewrite E2; try rewrite E3;
      try (destruct (decode.copyValue_bool (xml.AValue a)) as [b| |] eqn:C;
           try discriminate);
      intros H; apply IH in H; destruct H as (Hn & Ht & Hw);
      destruct (lastAttr "name" attrs), (lastAttr "type" attrs),
        (lastAttr "writable" attrs);
      simpl in *; repeat split; congruence.
Qed.

Lemma unmarshalPath_tag_keeps c v d v' d' :
  decode.unmarshalPath_tag c v d = (Ok v', d') ->
  Name v' = Name v /\ Writable v' = Writable v /\ Type_ v' = Type_ v.
Proof.
  unfold decode.unmarshalPath_tag, decode.unmarshal_xmlDesc. unfold_go.
  repeat match goal with
         | |- context [if ?b then _ else _] => destruct b
         end;
    match goal with
    | |- context [xml.unmarshal_chardata d] =>
        destruct (xml.unmarshal_chardata d) as [[x|e|] d2]
    | |- context [xml.Decoder_Skip d] =>
        destruct (xml.Decoder_Skip d) as [[x|e|] d2]
    | _ => idtac
    end;
    intros H; inversion H; subst; auto.
Qed.

Lemma unmarshalChildren_tag_keeps v d v' d' :
  decode.unmarshalChildren_tag v d = (Ok v', d') ->
  Name v' = Name v /\ Writable v' = Writable v /\ Type_ v' = Type_ v.
Proof.
  revert v' d'. unfold decode.unmarshalChildren_tag.
  apply (forever_ind xml.remaining decode.children_body children_body_dec
           (fun v _ out => forall v' d',
                out = (Ok v', d') ->
                Name v' = Name v /\ Writable v' = Writable v
                /\ Type_ v' = Type_ v)).
  clear v d. intros v d. unfold decode.children_body. unfold_go.
  destruct (xml.Decoder_Token d) as [[tok|e|] d1]; try discriminate.
  destruct tok as [c|c|t|]; auto.
  - destruct (decode.unmarshalPath_tag c v d1) as [[x|e|] d2] eqn:K;
      try discriminate.
    apply unmarshalPath_tag_keeps in K. destruct K as (K1 & K2 & K3).
    intros IH v' d' H. apply IH in H. destruct H as (H1 & H2 & H3).
    repeat split; congruence.
  - intros v' d' H. inversion H; subst. auto.
Qed.

(** X7.  The record [emitTag] sends to the sink: its group is the table
    name, its path the table name, a colon and the value of the last
    [name] attribute of the tag (nothing after the colon when the tag
    has none); its type is the value of the last [type] attribute, or
    empty; it is writable as the last [writable] attribute says, and not
    writable when there is none. *)
Theorem emitTag_record_of_attributes (g : string) (se : xml.StartElement)
  (s s' : streamer) :
  emitTag g se s = (Ok tt, s') ->
  exists v,
    trace (Writer s') = trace (Writer s) ++ [EvEncode v]
    /\ Group v = g
    /\ Path v = g +:+ ":" +:+ default "" (lastAttr "name" (xml.Attrs se))
    /\ Type_ v = default "" (lastAttr "type" (xml.Attrs se))
    /\ match lastAttr "writable" (xml.Attrs se) with
       | None => Writable v = false
       | Some x => decode.copyValue_bool x = Ok (Writable v)
       end.
Proof.
  intros H. pose proof (emitTag_cases g se s) as C. rewrite H in C.
  destruct C as (t & HD & Ht & _). exists (fill g t).
  split; [exact Ht|]. split; [reflexivity|].
  unfold decode.DecodeElement in HD.
  destruct (decode.unmarshalAttrs_tag (xml.Attrs se) tag_zero) as [v| |] eqn:A;
    try discriminate HD.
  apply unmarshalAttrs_tag_fields in A. destruct A as (A1 & A2 & A3).
  apply unmarshalChildren_tag_keeps in HD. destruct HD as (K1 & K2 & K3).
  cbn [fill Path Type_ Writable set_Path set_Group set_JSONDescription].
  rewrite K1, K2, K3, A1, A2. repeat split.
  destruct (lastAttr "writable" (xml.Attrs se)); [exact A3|].
  rewrite A3. reflexivity.
Qed.

(** [<tag></tag>] in the table [A]: the record has the path [A:], no
    type, and is not writable. *)
Lemma emitTag_record_of_attributes_witness :
  let s := streaming [doc.close "tag"] ["tag"; "table"] [EvWrite prolog] in
  let s' := streaming [] ["table"]
              [EvWrite prolog;
               EvEncode {| Name := ""; Writable := false; Path := "A:";
                           Group := "A"; Description := [];
                           JSONDescription := Some ∅; Type_ := "" |}] in
  emitTag "A" bare_tag s = (Ok tt, s')
  /\ exists v,
      trace (Writer s') = trace (Writer s) ++ [EvEncode v]
      /\ Group v = "A"
      /\ Path v = "A" +:+ ":" +:+ default "" (lastAttr "name" (xml.Attrs bare_tag))
      /\ Type_ v = default "" (lastAttr "type" (xml.Attrs bare_tag))
      /\ match lastAttr "writable" (xml.Attrs bare_tag) with
         | None => Writable v = false
         | Some x => decode.copyValue_bool x = Ok (Writable v)
         end.
Proof.
  intros s s'.
  assert (emitTag "A" bare_tag s = (Ok tt, s')) as H by reflexivity.
  split; [exact H|].
  exact (emitTag_record_of_attributes "A" bare_tag s s' H).
Defined.

(** [<tag writable="true&#160;">]: the no-break space after the value is
    white space to [strings.TrimSpace], and the record is writable. *)
Example emitTag_writable_nbsp :
  map Writable
    (emitted
       (Writer
          (snd (emitTag "A"
                  {| xml.Name := "tag";
                     xml.Attrs :=
                       [doc.attr "writable"
                          ("true" +:+ String "194" (String "160" ""))] |}
                  (streaming [doc.close "tag"] ["tag"; "table"] [])))))
  = [true].
Proof. reflexivity. Qed.

Lemma copyValue_bool_total src : decode.copyValue_bool src <> OutOfFuel.
Proof.
  unfold decode.copyValue_bool.
  destruct (String.eqb _ _); [discriminate|].
  destruct (decode.ParseBool _); discriminate.
Qed.

(** X8.  A [writable] attribute that [copyValue] does not take for a
    boolean (it is not empty and, with the white space of
    [strings.TrimSpace] taken off, none of the booleans of
    [strconv.ParseBool]) makes [emitTag] fail in [DecodeElement], with an
    error that is no [io.EOF], before a token is read and before anything
    is written. *)
Theorem emitTag_rejects_bad_writable (g : string) (se : xml.StartElement)
  (s : streamer) (a : xml.Attr) :
  In a (xml.Attrs se) -> xml.AName a = "writable" ->
  (forall b, decode.copyValue_bool (xml.AValue a) <> Ok b) ->
  exists e,
    emitTag g se s = (Err (Errorf_w "s.Decoder.DecodeElement" e), s)
    /\ errors_Is_EOF e = false.
Proof.
  intros Hin Hn Hbad.
  assert (forall attrs v,
             In a attrs ->
             exists e, decode.unmarshalAttrs_tag attrs v = Err e) as Hattrs.
  { clear Hin. induction attrs as [|b attrs IH]; intros v; [intros []|].
    intros [->|Hin]; simpl.
    - rewrite Hn. simpl.
      pose proof (copyValue_bool_total (xml.AValue a)) as Ht.
      destruct (decode.copyValue_bool (xml.AValue a)) as [x|e|].
      + exfalso. exact (Hbad x eq_refl).
      + eauto.
      + contradiction.
    - repeat match goal with
             | |- context [if ?b then _ else _] => destruct b
             end; auto.
      pose proof (copyValue_bool_total (xml.AValue b)) as Ht.
      destruct (decode.copyValue_bool (xml.AValue b)) as [x|e|]; eauto.
      contradiction. }
  destruct (Hattrs (xml.Attrs se) tag_zero Hin) as (e & He).
  exists e. split; [|eapply unmarshalAttrs_tag_err; eauto].
  unfold emitTag, decode.DecodeElement. unfold_go. rewrite He.
  destruct s; reflexivity.
Qed.

Lemma emitTag_rejects_bad_writable_witness :
  exists e,
    emitTag "A" {| xml.Name := "tag";
                   xml.Attrs := [doc.attr "name" "x";
                                 doc.attr "writable" "yes"] |}
      (streaming [doc.close "tag"] ["tag"; "table"] [EvWrite prolog])
    = (Err (Errorf_w "s.Decoder.DecodeElement" e),
       streaming [doc.close "tag"] ["tag"; "table"] [EvWrite prolog])
    /\ errors_Is_EOF e = false.
Proof.
  apply (emitTag_rejects_bad_writable "A" _ _ (doc.attr "writable" "yes")).
  - simpl. auto.
  - reflexivity.
  - intros b. discriminate.
Defined.

(** ** What [StreamTags] returns *)

Lemma forced_termination_keeps_stream_error_witness :
  let e1 := Errorf_w "stream" (error_of NoTableName) in
  conc.only_killed cancel_then_kill = true
  /\ exists r,
      conc.StreamTags (Some e1, true) cancel_then_kill = Some r
      /\ r = Some e1.
Proof.
  intros e1. split; [reflexivity|]. eexists. split; [reflexivity|].
  exact (forced_termination_keeps_stream_error e1 cancel_then_kill _
           eq_refl eq_refl).
Defined.

Lemma no_stream_error_returns_wait_status_witness :
  let status := Some (errorString "exit status 1") in
  exists st,
    conc.run (None, false) (decode_then_exit status) conc.init = Some st
    /\ conc.joined st = true
    /\ exists w, conc.proc st = conc.Exited w
                 /\ conc.err st = Errorf_w "et.cmd.Wait" <$> w.
Proof.
  intros status. eexists. split; [reflexivity|]. split; [reflexivity|].
  exact (no_stream_error_returns_wait_status false (decode_then_exit status)
           _ eq_refl eq_refl).
Defined.

Lemma result_step o l st st' :
  (fun _ : conc.label => true) l = true ->
  result_inv o st -> conc.step o l st = Some st' -> result_inv o st'.
Proof.
  intros _ Hi Hs. destruct st as [err g1 g2 proc cancelled].
  unfold result_inv in *. simpl in *. destruct Hi as (H1 & H2 & H3).
  destruct l; simpl in Hs.
  - destruct g1 as [|e c| |].
    + destruct o as [[e|] c]; injection Hs as <-; simpl; auto 10.
    + destruct H1 as [-> Hc]. injection Hs as <-. simpl.
      split; [|split; [|left; reflexivity]].
      * destruct c; [split; [eauto|split; [exact Hc|discriminate]]|].
        right. split; [discriminate|]. intros H. congruence.
      * destruct g2; auto. destruct H2 as (w & Hp & _). exists w.
        split; [exact Hp|]. right. discriminate.
    + destruct H1 as (He & Hc & Hne). injection Hs as <-. simpl. auto 10.
    + discriminate Hs.
  - destruct g2 as [|w|e|].
    + destruct proc; [discriminate Hs|]. injection Hs as <-. simpl. auto.
    + injection Hs as <-. simpl. split; [exact H1|]. split; [|exact H3].
      destruct w as [w|]; [destruct err|]; eauto.
    + injection Hs as <-. simpl. split; [|split].
      * destruct g1; auto.
        -- destruct H1 as (He & Hc & _). split; [exact He|].
           split; [exact Hc|discriminate].
        -- destruct H1 as [H1|[_ H1]]; [left; exact H1|].
           right. split; [discriminate|exact H1].
      * exists (Some e). split; [exact H2|]. right. discriminate.
      * right. eauto.
    + discriminate Hs.
  - destruct proc; [|discriminate Hs]. injection Hs as <-. simpl.
    split; [exact H1|]. split.
    + destruct g2; try discriminate H2; auto.
      destruct H2 as (w & Hp & _). discriminate Hp.
    + destruct err; auto. destruct H3 as [H3|(w & Hp & _)]; [auto|].
      discriminate Hp.
  - destruct proc; [|discriminate Hs].
    destruct cancelled; [|discriminate Hs]. injection Hs as <-. simpl.
    split; [exact H1|]. split.
    + destruct g2; try discriminate H2; auto.
      destruct H2 as (w & Hp & _). discriminate Hp.
    + destruct err; auto. destruct H3 as [H3|(w & Hp & _)]; [auto|].
      discriminate Hp.
Qed.

(** X11.  Whatever the interleaving, [StreamTags] loses no error and
    invents none: when it returns, the subprocess has ended; it returns
    [nil] only if the stream gave no error and the subprocess ended with
    the status [nil]; an error it returns is the one of the stream or the
    status of the subprocess wrapped as [et.cmd.Wait: %w]; and [cancel]
    has been called only for a stream error that is no end of input. *)
Theorem StreamTags_returns_one_of_the_errors (o : option error * bool)
  (sched : list conc.label) (st : conc.state) :
  conc.run o sched conc.init = Some st -> conc.joined st = true ->
  exists w,
    conc.proc st = conc.Exited w
    /\ match conc.err st with
       | None => fst o = None /\ w = None
       | Some r =>
           fst o = Some r
           \/ exists waitErr,
               w = Some waitErr /\ r = Errorf_w "et.cmd.Wait" waitErr
       end
    /\ (conc.cancelled st = true -> exists e, o = (Some e, true)).
Proof.
  intros R J.
  assert (forallb (fun _ : conc.label => true) sched = true) as Hall
    by (clear; induction sched; simpl; auto).
  assert (result_inv o conc.init) as H0 by (repeat split).
  assert (result_inv o st) as (H1 & H2 & H3).
  { apply (run_inv (result_inv o) (fun _ => true) o
             (result_step o) sched conc.init st Hall H0 R). }
  unfold conc.joined in J.
  destruct (conc.g1 st); try discriminate.
  destruct (conc.g2 st); try discriminate.
  destruct H2 as (w & Hp & Hw). exists w. split; [exact Hp|]. split.
  - destruct (conc.err st) as [r|].
    + destruct H3 as [H3|(waitErr & Hp' & ->)]; [auto|].
      right. exists waitErr. split; [congruence|reflexivity].
    + destruct H1 as [[H1 _]|[H1 _]]; [|contradiction].
      destruct Hw as [->|Hw]; [auto|contradiction].
  - destruct H1 as [[_ H1]|[_ H1]]; [congruence|exact H1].
Qed.

(** On the schedule [race] what is returned is the wrapped status of the
    subprocess. *)
Lemma StreamTags_returns_one_of_the_errors_witness :
  let o := (Some (Errorf_w "stream" (error_of NoTableName)), true) in
  let status := errorString "exit status 1" in
  exists st,
    conc.run o (race status) conc.init = Some st
    /\ conc.joined st = true
    /\ conc.err st = Some (Errorf_w "et.cmd.Wait" status)
    /\ exists w,
        conc.proc st = conc.Exited w
        /\ match conc.err st with
           | None => fst o = None /\ w = None
           | Some r =>
               fst o = Some r
               \/ exists waitErr,
                   w = Some waitErr /\ r = Errorf_w "et.cmd.Wait" waitErr
           end
        /\ (conc.cancelled st = true -> exists e, o = (Some e, true)).
Proof.
  intros o status. eexists. split; [reflexivity|]. split; [reflexivity|].
  split; [reflexivity|].
  exact (StreamTags_returns_one_of_the_errors o (race status) _
           eq_refl eq_refl).
Defined.

(** ** A sink that fails *)

Lemma unwraps_to_refl e : unwraps_to e e.
Proof. destruct e; left; reflexivity. Qed.

Lemma unwraps_to_wrap e op err :
  unwraps_to e err -> unwraps_to e (Errorf_w op err).
Proof. intros H. right. exact H. Qed.

Section Grows.
Context {A B : Type}.

Lemma grows_ret (a : A) : grows (ret a).
Proof. intros s. exists []. simpl. symmetry. apply app_nil_r. Qed.

Lemma grows_fail (err : error) : grows (fail err : M streamer A).
Proof. intros s. exists []. simpl. symmetry. apply app_nil_r. Qed.

Lemma grows_onDecoder (m : M xml.Decoder A) : grows (onDecoder m).
Proof.
  intros s. exists []. unfold onDecoder.
  destruct (m (Decoder s)). simpl. symmetry. apply app_nil_r.
Qed.

Lemma grows_accept ev : grows (onWriter (accept ev)).
Proof.
  intros s. unfold onWriter.
  pose proof (accept_cases ev (Writer s)) as C.
  destruct (accept ev (Writer s)) as [[[]|err|] w]; simpl.
  - exists [ev]. apply C.
  - exists []. destruct C as [-> _]. symmetry. apply app_nil_r.
  - destruct C.
Qed.

Lemma grows_wrap_w op (m : M streamer A) : grows m -> grows (wrap_w op m).
Proof.
  intros H s. specialize (H s). unfold wrap_w.
  destruct (m s) as [[a|err|] s']; exact H.
Qed.

Lemma grows_wrap_v op (m : M streamer A) : grows m -> grows (wrap_v op m).
Proof.
  intros H s. specialize (H s). unfold wrap_v.
  destruct (m s) as [[a|err|] s']; exact H.
Qed.

Lemma grows_bind (m : M streamer A) (k : A -> M streamer B) :
  grows m -> (forall a, grows (k a)) -> grows (bind m k).
Proof.
  intros Hm Hk s. specialize (Hm s). unfold bind.
  destruct (m s) as [[a|err|] s']; simpl in *; try exact Hm.
  destruct Hm as (evs & Hm). destruct (Hk a s') as (evs' & Hk').
  exists (evs ++ evs'). rewrite Hk', Hm, app_assoc. reflexivity.
Qed.

Lemma grows_forever (body : A -> M streamer (A + B)) :
  (forall a s a' s', body a s = (Ok (inl a'), s') -> pending s' < pending s) ->
  (forall a, grows (body a)) ->
  forall a, grows (forever pending body a).
Proof.
  intros Hdec Hb a s.
  apply (forever_ind pending body Hdec
           (fun _ s out => exists evs,
                trace (Writer (snd out)) = trace (Writer s) ++ evs)).
  clear a s. intros a s. specialize (Hb a s).
  destruct (body a s) as [[[a'|b]|err|] s']; simpl in *; try exact Hb.
  destruct Hb as (evs & Hb). intros (evs' & IH).
  exists (evs ++ evs'). rewrite IH, Hb, app_assoc. reflexivity.
Qed.

End Grows.

Section TruncationFacts.
Variable e : error.
Variable budget : nat.
Context {A B : Type}.

Lemma dead_grows su sq su' :
  dead e budget su sq ->
  (exists evs, trace (Writer su') = trace (Writer su) ++ evs) ->
  dead e budget su' sq.
Proof.
  intros (Hq & Hlen & more & Hne & Hmore) (evs & Hevs).
  repeat split; auto. exists (more ++ evs). split.
  - destruct more; [contradiction|discriminate].
  - rewrite Hevs, Hmore, app_assoc. reflexivity.
Qed.

Lemma Truncates_ret (a : A) : Truncates e budget (ret a).
Proof. intros su sq Hl. left. split; [reflexivity|exact Hl]. Qed.

Lemma Truncates_fail (err : error) :
  Truncates e budget (fail err : M streamer A).
Proof. intros su sq Hl. left. split; [reflexivity|exact Hl]. Qed.

Lemma Truncates_onDecoder (m : M xml.Decoder A) :
  Truncates e budget (onDecoder m).
Proof.
  intros su sq (Hd & Ht & Hu & Hq & Hle). left. unfold onDecoder.
  rewrite Hd. destruct (m (Decoder su)) as [r d]. simpl.
  repeat split; auto.
Qed.

Lemma Truncates_wrap_v_onDecoder op (m : M xml.Decoder A) :
  Truncates e budget (wrap_v op (onDecoder m)).
Proof.
  intros su sq (Hd & Ht & Hu & Hq & Hle). left. unfold wrap_v, onDecoder.
  rewrite Hd. destruct (m (Decoder su)) as [[a|err|] d]; simpl;
    repeat split; auto.
Qed.

Lemma Truncates_accept ev : Truncates e budget (onWriter (accept ev)).
Proof.
  intros su sq (Hd & Ht & Hu & Hq & Hle). unfold onWriter, accept.
  rewrite Hu, Hq.
  destruct (budget - length (trace (Writer sq))) as [|k] eqn:Hk; simpl.
  - right. exists e. split; [reflexivity|]. split; [apply unwraps_to_refl|].
    repeat split; simpl; [exact Hq|lia|].
    exists [ev]. split; [discriminate|]. rewrite Ht. reflexivity.
  - left. split; [reflexivity|]. repeat split; simpl; auto.
    + rewrite Ht. reflexivity.
    + rewrite length_app. simpl. f_equal. f_equal. lia.
    + rewrite length_app. simpl. lia.
Qed.

Lemma Truncates_wrap_w op (m : M streamer A) :
  Truncates e budget m -> Truncates e budget (wrap_w op m).
Proof.
  intros H su sq Hl. specialize (H su sq Hl). unfold wrap_w.
  destruct (m su) as [ru su'], (m sq) as [rq sq'].
  unfold truncated in *. simpl in *.
  destruct H as [[-> Hl']|(err & -> & Hw & Hd)].
  - left. destruct ru; simpl; auto.
  - right. exists (Errorf_w op err). split.
    + reflexivity.
    + split; [apply unwraps_to_wrap; exact Hw|].
      destruct ru; exact Hd.
Qed.

Lemma Truncates_bind (m : M streamer A) (k : A -> M streamer B) :
  Truncates e budget m ->
  (forall a, Truncates e budget (k a)) ->
  (forall a, grows (k a)) ->
  Truncates e budget (bind m k).
Proof.
  intros Hm Hk Hg su sq Hl. specialize (Hm su sq Hl). unfold bind.
  destruct (m su) as [ru su'], (m sq) as [rq sq'].
  unfold truncated in *. simpl in *.
  destruct Hm as [[-> Hl']|(err & -> & Hw & Hd)].
  - destruct ru as [a|err|]; [apply Hk; exact Hl'|left; auto|left; auto].
  - right. exists err. split; [reflexivity|]. split; [exact Hw|].
    destruct ru as [a|err'|]; try exact Hd.
    apply (dead_grows _ _ _ Hd). apply Hg.
Qed.

Lemma Truncates_forever (body : A -> M streamer (A + B)) :
  (forall a s a' s', body a s = (Ok (inl a'), s') -> pending s' < pending s) ->
  (forall a, Truncates e budget (body a)) ->
  (forall a, grows (forever pending body a)) ->
  forall a, Truncates e budget (forever pending body a).
Proof.
  intros Hdec Hb Hg a su sq Hl.
  remember (pending su) as k eqn:Hk. revert a su sq Hl Hk.
  induction k as [k IH] using lt_wf_ind. intros a su sq Hl ->.
  rewrite !forever_unfold by exact Hdec.
  specialize (Hb a su sq Hl).
  destruct (body a su) as [ru su'] eqn:Eu, (body a sq) as [rq sq'].
  unfold truncated in Hb. simpl in Hb.
  destruct Hb as [[-> Hl']|(err & -> & Hw & Hd)].
  - destruct ru as [[a'|b]|err|];
      [|left; split; [reflexivity|exact Hl'] ..].
    apply (IH (pending su')); auto. eapply Hdec; eauto.
  - right. exists err. split; [reflexivity|]. split; [exact Hw|].
    destruct ru as [[a'|b]|err'|]; try exact Hd.
    apply (dead_grows _ _ _ Hd). apply Hg.
Qed.

End TruncationFacts.

Lemma emitTag_grows g se : grows (emitTag g se).
Proof.
  unfold emitTag, Encoder_Encode.
  apply grows_bind; [apply grows_wrap_w, grows_onDecoder|].
  intros t. apply grows_wrap_w, grows_accept.
Qed.

Lemma streamTags_body_grows g comma : grows (streamTags_body g comma).
Proof.
  unfold streamTags_body, Writer_Write.
  apply grows_bind; [apply grows_wrap_w, grows_onDecoder|]. intros res.
  destruct (xmlSearchResult.NamedEnd res); [apply grows_ret|].
  apply grows_bind; [|intros; apply grows_ret].
  destruct (xmlSearchResult.NamedStart res) as [se|]; [|apply grows_ret].
  apply grows_bind; [|intros; apply grows_wrap_w, emitTag_grows].
  destruct comma; [apply grows_wrap_w, grows_accept|apply grows_ret].
Qed.

Lemma streamTags_grows g comma :
  grows (forever pending (streamTags_body g) comma).
Proof.
  apply grows_forever; [apply streamTags_body_dec|].
  apply streamTags_body_grows.
Qed.

Lemma stream_body_grows a : grows (stream_body a).
Proof.
  unfold stream_body.
  apply grows_bind; [apply grows_wrap_v, grows_onDecoder|]. intros res.
  destruct (xmlSearchResult.NamedStart res) as [se|]; [|apply grows_fail].
  destruct (attributeByLocalName "name" se) as [tableName [|]]; simpl;
    [|apply grows_fail].
  apply grows_bind; [|intros; apply grows_ret].
  apply grows_wrap_w, streamTags_grows.
Qed.

Lemma stream_grows : grows stream.
Proof.
  apply grows_forever; [apply stream_body_dec|apply stream_body_grows].
Qed.

Section TruncatedRun.
Variable e : error.
Variable budget : nat.

Lemma emitTag_Truncates g se : Truncates e budget (emitTag g se).
Proof.
  unfold emitTag, Encoder_Encode.
  apply Truncates_bind.
  - apply Truncates_wrap_w, Truncates_onDecoder.
  - intros t. apply Truncates_wrap_w, Truncates_accept.
  - intros t. apply grows_wrap_w, grows_accept.
Qed.

Lemma streamTags_body_Truncates g comma :
  Truncates e budget (streamTags_body g comma).
Proof.
  unfold streamTags_body, Writer_Write.
  apply Truncates_bind.
  - apply Truncates_wrap_w, Truncates_onDecoder.
  - intros res.
    destruct (xmlSearchResult.NamedEnd res); [apply Truncates_ret|].
    apply Truncates_bind;
      [|intros; apply Truncates_ret|intros; apply grows_ret].
    destruct (xmlSearchResult.NamedStart res) as [se|];
      [|apply Truncates_ret].
    apply Truncates_bind.
    + destruct comma;
        [apply Truncates_wrap_w, Truncates_accept|apply Truncates_ret].
    + intros. apply Truncates_wrap_w, emitTag_Truncates.
    + intros. apply grows_wrap_w, emitTag_grows.
  - intros res.
    destruct (xmlSearchResult.NamedEnd res); [apply grows_ret|].
    apply grows_bind; [|intros; apply grows_ret].
    destruct (xmlSearchResult.NamedStart res) as [se|]; [|apply grows_ret].
    apply grows_bind; [|intros; apply grows_wrap_w, emitTag_grows].
    destruct comma; [apply grows_wrap_w, grows_accept|apply grows_ret].
Qed.

Lemma streamTags_Truncates g : Truncates e budget (streamTags g).
Proof.
  apply Truncates_forever.
  - apply streamTags_body_dec.
  - apply streamTags_body_Truncates.
  - apply streamTags_grows.
Qed.

Lemma stream_body_Truncates a : Truncates e budget (stream_body a).
Proof.
  unfold stream_body.
  apply Truncates_bind; [apply Truncates_wrap_v_onDecoder| |];
    intros res;
    (destruct (xmlSearchResult.NamedStart res) as [se|];
     [|first [apply Truncates_fail|apply grows_fail]]);
    (destruct (attributeByLocalName "name" se) as [tableName [|]]; simpl;
     [|first [apply Truncates_fail|apply grows_fail]]).
  - apply Truncates_bind;
      [|intros; apply Truncates_ret|intros; apply grows_ret].
    apply Truncates_wrap_w, streamTags_Truncates.
  - apply grows_bind; [|intros; apply grows_ret].
    apply grows_wrap_w, streamTags_grows.
Qed.

Lemma stream_Truncates : Truncates e budget stream.
Proof.
  apply Truncates_forever.
  - apply stream_body_dec.
  - apply stream_body_Truncates.
  - intros []. apply stream_grows.
Qed.

End TruncatedRun.

Lemma emitEpilog_grows : grows emitEpilog.
Proof. apply grows_wrap_w, grows_accept. Qed.

(** The two runs of the goroutine: the same outcome and the same calls,
    within the budget; or the budget is used up, the run into the failing
    sink reports an error that wraps the one of the sink, and the other
    run has made more calls. *)
Lemma decodeActivity_truncated e budget su sq :
  live e budget su sq ->
  (fst (decodeActivity sq) = fst (decodeActivity su)
   /\ trace (Writer (snd (decodeActivity sq)))
      = trace (Writer (snd (decodeActivity su)))
   /\ length (trace (Writer (snd (decodeActivity sq)))) <= budget)
  \/ (exists err c,
         fst (decodeActivity sq) = Ok (Some err, c)
         /\ unwraps_to e err
         /\ dead e budget (snd (decodeActivity su)) (snd (decodeActivity sq))).
Proof.
  intros Hl. unfold decodeActivity.
  pose proof (Truncates_wrap_w e budget "s.Writer.Write" _
                (Truncates_accept e budget (EvWrite prolog)) su sq Hl) as T1.
  change (wrap_w "s.Writer.Write" (onWriter (accept (EvWrite prolog))))
    with emitProlog in T1.
  assert (forall (r : result unit) s2,
             exists evs,
               trace (Writer (snd
                 (match r with
                  | Ok _ => (Ok (None, false), s2)
                  | Err streamErr =>
                      if errors_Is_EOF streamErr
                      then match emitEpilog s2 with
                           | (Ok _, s3) => (Ok (None, false), s3)
                           | (Err epilogErr, s3) =>
                               (Ok (Some (Errorf_w "s.emitEpilog" epilogErr),
                                    false), s3)
                           | (OutOfFuel, s3) => (OutOfFuel, s3)
                           end
                      else (Ok (Some (Errorf_w "stream" streamErr), true), s2)
                  | OutOfFuel => (OutOfFuel, s2)
                  end : result (option error * bool) * streamer)))
               = trace (Writer s2) ++ evs) as Hsettle.
  { intros r s2. destruct r as [[]|streamErr|];
      try (exists []; simpl; symmetry; apply app_nil_r).
    destruct (errors_Is_EOF streamErr);
      [|exists []; simpl; symmetry; apply app_nil_r].
    destruct (emitEpilog_grows s2) as (evs & H).
    exists evs. destruct (emitEpilog s2) as [[[]|err|] s3]; exact H. }
  destruct (emitProlog su) as [ru1 su1], (emitProlog sq) as [rq1 sq1].
  unfold truncated in T1. simpl in T1.
  destruct T1 as [[-> Hl1]|(err & -> & Hw & Hd)].
  - destruct ru1 as [[]|err|].
    + pose proof (stream_Truncates e budget su1 sq1 Hl1) as T2.
      destruct (stream su1) as [ru2 su2], (stream sq1) as [rq2 sq2].
      unfold truncated in T2. simpl in T2.
      destruct T2 as [[-> Hl2]|(err & -> & Hw & Hd)].
      * destruct ru2 as [[]|streamErr|].
        -- left. destruct Hl2 as (_ & Ht & _ & _ & Hle). auto.
        -- destruct (errors_Is_EOF streamErr).
           ++ pose proof (Truncates_wrap_w e budget "s.Writer.Write" _
                            (Truncates_accept e budget (EvWrite epilog))
                            su2 sq2 Hl2) as T3.
              change (wrap_w "s.Writer.Write"
                        (onWriter (accept (EvWrite epilog))))
                with emitEpilog in T3.
              destruct (emitEpilog su2) as [ru3 su3],
                (emitEpilog sq2) as [rq3 sq3].
              unfold truncated in T3. simpl in T3.
              destruct T3 as [[-> Hl3]|(err & -> & Hw & Hd)].
              ** left. destruct Hl3 as (_ & Ht & _ & _ & Hle).
                 destruct ru3 as [[]|err|]; auto.
              ** right. exists (Errorf_w "s.emitEpilog" err), false.
                 split; [reflexivity|].
                 split; [apply unwraps_to_wrap; exact Hw|].
                 destruct ru3 as [[]|err'|]; exact Hd.
           ++ left. destruct Hl2 as (_ & Ht & _ & _ & Hle). auto.
        -- left. destruct Hl2 as (_ & Ht & _ & _ & Hle). auto.
      * assert (exists err' c,
                   (if errors_Is_EOF err
                    then match emitEpilog sq2 with
                         | (Ok _, s3) => (Ok (None, false), s3)
                         | (Err epilogErr, s3) =>
                             (Ok (Some (Errorf_w "s.emitEpilog" epilogErr),
                                  false), s3)
                         | (OutOfFuel, s3) => (OutOfFuel, s3)
                         end
                    else (Ok (Some (Errorf_w "stream" err), true), sq2))
                   = (Ok (Some err', c), sq2)
                   /\ unwraps_to e err') as (err' & c & -> & Hw').
        { destruct (errors_Is_EOF err).
          - pose proof (emitEpilog_cases sq2) as R.
            destruct Hd as (Hq & _).
            destruct (emitEpilog sq2) as [[[]|epilogErr|] s3]; [| |destruct R].
            + destruct R as (_ & _ & Hacc). exfalso. exact (Hacc e Hq).
            + destruct R as (-> & w & -> & Hq'). eexists _, _.
              split; [reflexivity|].
              assert (w = e) as -> by congruence.
              apply unwraps_to_wrap, unwraps_to_wrap, unwraps_to_refl.
          - eexists _, _. split; [reflexivity|].
            apply unwraps_to_wrap. exact Hw. }
        right. exists err', c. split; [reflexivity|]. split; [exact Hw'|].
        apply (dead_grows _ _ _ _ _ Hd). apply Hsettle.
    + left. destruct Hl1 as (_ & Ht & _ & _ & Hle). auto.
    + left. destruct Hl1 as (_ & Ht & _ & _ & Hle). auto.
  - right. exists (Errorf_w "s.emitProlog" err), false.
    split; [reflexivity|]. split; [apply unwraps_to_wrap; exact Hw|].
    destruct ru1 as [[]|err'|]; try exact Hd.
    apply (dead_grows _ _ _ _ _ Hd).
    destruct (stream_grows su1) as (evs & Hevs).
    destruct (stream su1) as [r s2]. simpl in Hevs.
    destruct (Hsettle r s2) as (evs' & Hevs').
    exists (evs ++ evs'). rewrite Hevs', Hevs, app_assoc. reflexivity.
Qed.

Lemma start_live toks rawErr n e :
  live e n (start toks rawErr None) (start toks rawErr (Some (n, e))).
Proof.
  unfold live, start. simpl. rewrite Nat.sub_0_r. repeat split; auto. lia.
Qed.

(** X12.  A sink that fails only cuts the output short: the calls that
    reach a sink which takes [n] calls and then fails are the first [n]
    calls of the run into a sink that never fails, whatever the input and
    whatever the error of the sink. *)
Theorem sink_failure_truncates (toks : list xml.Token) (rawErr : error)
  (n : nat) (e : error) :
  trace (Writer (snd (run toks rawErr (Some (n, e)))))
  = take n (trace (Writer (snd (run toks rawErr None)))).
Proof.
  unfold run.
  destruct (decodeActivity_truncated e n _ _ (start_live toks rawErr n e))
    as [(_ & Ht & Hle)|(err & c & _ & _ & _ & Hlen & more & _ & Hmore)].
  - rewrite <- Ht. symmetry. apply take_ge. exact Hle.
  - rewrite Hmore.
    set (l := trace (Writer (snd (decodeActivity
                                    (start toks rawErr (Some (n, e))))))) in *.
    clearbody l. subst n. symmetry. apply take_app_length.
Qed.

(** X13.  The failure of the sink is reported: if the run into a sink
    that never fails makes more than [n] calls, the run into a sink that
    fails with [e] after [n] calls reports an error that wraps [e] (so
    [errors.Is] and [errors.As] find it); if it makes no more than [n]
    calls, the two runs report the same. *)
Theorem sink_failure_is_reported (toks : list xml.Token) (rawErr : error)
  (n : nat) (e : error) :
  (n < length (trace (Writer (snd (run toks rawErr None)))) ->
   exists err c,
     fst (run toks rawErr (Some (n, e))) = Ok (Some err, c)
     /\ unwraps_to e err)
  /\ (length (trace (Writer (snd (run toks rawErr None)))) <= n ->
      fst (run toks rawErr (Some (n, e))) = fst (run toks rawErr None)).
Proof.
  unfold run.
  destruct (decodeActivity_truncated e n _ _ (start_live toks rawErr n e))
    as [(Hr & Ht & Hle)|(err & c & Hr & Hw & _ & Hlen & more & Hne & Hmore)].
  - split; [|auto]. intros Hlt. rewrite <- Ht in Hlt. lia.
  - split; [eauto|]. intros Hle. rewrite Hmore, length_app, Hlen in Hle.
    destruct more; [contradiction|simpl in Hle; lia].
Qed.

(** The spec's example into a sink that takes the prologue and the
    record and then fails with [broken pipe]: the epilogue is refused,
    and that is reported. *)
Lemma sink_failure_is_reported_witness :
  let e := errorString "write: broken pipe" in
  2 < length (trace (Writer (snd (run (doc.render example_doc) io_EOF None))))
  /\ exists err c,
      fst (run (doc.render example_doc) io_EOF (Some (2, e)))
      = Ok (Some err, c)
      /\ unwraps_to e err.
Proof.
  intros e. split; [vm_compute; lia|].
  apply (proj1 (sink_failure_is_reported (doc.render example_doc) io_EOF 2 e)).
  vm_compute. lia.
Defined.

(** ** The HTTP handler *)

(** X14.  The handler calls on the operating system in one of three
    ways: not at all (the request is not [GET /tags], or the pipe could
    not be made); pipe made and closed (the subprocess could not be
    started); pipe made, [exiftool -listx] started, pipe closed.  So the
    subprocess is started at most once and only for [GET /tags], and the
    pipe is closed on every return on which it was made. *)
Theorem Handler_system_calls (W : world) (r : http.Request)
  (quota : option (nat * error)) (h' : host) :
  Handler W r (arrival quota) = Some h' ->
  (calls h' = []
   /\ (http.URL_Path r <> "/tags" \/ http.Method r <> "GET"
       \/ pipeErr W <> None))
  \/ (calls h' = [exec.CreatePipe; exec.ClosePipe]
      /\ http.URL_Path r = "/tags" /\ http.Method r = "GET"
      /\ pipeErr W = None /\ startErr W <> None)
  \/ (calls h'
      = [exec.CreatePipe;
         exec.StartProcess {| exec.Name := "exiftool";
                              exec.Args := ["-listx"] |};
         exec.ClosePipe]
      /\ http.URL_Path r = "/tags" /\ http.Method r = "GET"
      /\ pipeErr W = None /\ startErr W = None).
Proof.
  unfold Handler, GetTags, ExifTool_Start.
  destruct (String.eqb_spec (http.URL_Path r) "/tags") as [Hp|Hp];
    [|intros H; inversion H; subst; left; auto].
  destruct (String.eqb_spec (http.Method r) "GET") as [Hm|Hm]; simpl;
    [|intros H; inversion H; subst; left; auto].
  destruct (pipeErr W) as [e1|] eqn:E1;
    [intros H; inversion H; subst; left; split; [reflexivity|];
     right; right; discriminate|].
  destruct (startErr W) as [e2|] eqn:E2.
  - intros H. inversion H; subst. right. left.
    repeat split; auto.
  - destruct (ExifTool_StreamTags W _ _) as [[err b]|]; [|discriminate].
    intros H. inversion H; subst. right. right.
    repeat split; auto.
    destruct err as [err|]; [destruct (context.Is_Canceled _)|]; reflexivity.
Qed.

(** A run in the calm world over the spec's example. *)
Lemma Handler_system_calls_witness :
  exists h',
    Handler (calm example_doc) get_tags (arrival None) = Some h'
    /\ calls h'
       = [exec.CreatePipe;
          exec.StartProcess {| exec.Name := "exiftool";
                               exec.Args := ["-listx"] |};
          exec.ClosePipe].
Proof.
  eexists. split; [vm_compute; reflexivity|].
  destruct (Handler_system_calls (calm example_doc) get_tags None _ eq_refl)
    as [[H _]|[[H _]|[H _]]]; try discriminate H.
  exact H.
Defined.

(** X15.  The status of the response is decided by the request and by
    whether the subprocess could be started, before anything of the
    listing is read: 404 for another path than [/tags], 405 for another
    method than [GET], 500 when [Start] fails, and otherwise 200, whatever
    the listing holds and however [StreamTags] ends.  The two header
    fields of [http.Error] are set on the error responses; the handler
    sets none on a 200. *)
Theorem Handler_status (W : world) (r : http.Request)
  (quota : option (nat * error)) (h' : host) :
  Handler W r (arrival quota) = Some h' ->
  http.status (resp h') = Some (decided_status W r)
  /\ http.header (resp h')
     = if Nat.eqb (decided_status W r) http.StatusOK then ∅ else error_header.
Proof.
  unfold Handler, GetTags, ExifTool_Start, decided_status.
  destruct (String.eqb (http.URL_Path r) "/tags"); simpl;
    [|intros H; inversion H; subst;
      destruct quota as [[[|n] e0]|]; split; reflexivity].
  destruct (String.eqb (http.Method r) "GET"); simpl;
    [|intros H; inversion H; subst;
      destruct quota as [[[|n] e0]|]; split; reflexivity].
  destruct (pipeErr W) as [e1|];
    [intros H; inversion H; subst;
     destruct quota as [[[|n] e0]|]; split; reflexivity|].
  destruct (startErr W) as [e2|];
    [intros H; inversion H; subst;
     destruct quota as [[[|n] e0]|]; split; reflexivity|].
  destruct (ExifTool_StreamTags W _ _) as [[err b]|]; [|discriminate].
  intros H. inversion H; subst.
  destruct err as [err|]; [destruct (context.Is_Canceled _)|];
    split; reflexivity.
Qed.

(** A listing without any table: the stream fails, the body stops after
    the prologue, and the status is 200. *)
Lemma Handler_status_witness :
  let W := {| pipeErr := None; startErr := None;
              listing := {| tokens := no_table; ending := io_EOF |};
              schedule := cancel_then_kill; ctxErr := context.NoErr |} in
  exists h',
    Handler W get_tags (arrival None) = Some h'
    /\ written (http.body (resp h')) = prolog
    /\ http.status (resp h') = Some http.StatusOK
    /\ http.header (resp h') = ∅.
Proof.
  intros W. eexists. split; [vm_compute; reflexivity|].
  split; [reflexivity|].
  exact (Handler_status W get_tags None _ eq_refl).
Defined.

(** X16.  When the subprocess has been started, the body of the response
    is what the first goroutine of [StreamTags] wrote, and the log gets
    one line, [et.StreamTags: ...] with the error [StreamTags] returned,
    unless it returned [nil] or the context of the request is cancelled;
    then the log stays empty. *)
Theorem GetTags_streams (W : world) (r : http.Request)
  (quota : option (nat * error)) (h' : host) :
  Handler W r (arrival quota) = Some h' ->
  decided_status W r = http.StatusOK ->
  exists o err,
    fst (run (tokens (listing W)) (ending (listing W)) quota) = Ok o
    /\ conc.StreamTags o (schedule W) = Some err
    /\ http.body (resp h')
       = Writer (snd (run (tokens (listing W)) (ending (listing W)) quota))
    /\ logs h'
       = match err with
         | Some e =>
             if context.Is_Canceled (ctxErr W) then []
             else ["et.StreamTags: " +:+ Error e]
         | None => []
         end.
Proof.
  unfold Handler, GetTags, ExifTool_Start, ExifTool_StreamTags, decided_status.
  destruct (String.eqb (http.URL_Path r) "/tags"); simpl; [|discriminate].
  destruct (String.eqb (http.Method r) "GET"); simpl; [|discriminate].
  destruct (pipeErr W) as [e1|]; [discriminate|].
  destruct (startErr W) as [e2|]; [discriminate|]. simpl.
  change (decodeActivity _)
    with (run (tokens (listing W)) (ending (listing W)) quota).
  destruct (run (tokens (listing W)) (ending (listing W)) quota)
    as [[o|e|] s']; try discriminate.
  destruct (conc.StreamTags o (schedule W)) as [err|] eqn:ES; [|discriminate].
  intros H _. inversion H; subst. exists o, err.
  split; [reflexivity|]. split; [exact ES|].
  destruct err as [e|]; [destruct (context.Is_Canceled _)|];
    split; reflexivity.
Qed.

Lemma GetTags_streams_witness :
  let W := {| pipeErr := None; startErr := None;
              listing := {| tokens := no_table; ending := io_EOF |};
              schedule := cancel_then_kill; ctxErr := context.NoErr |} in
  exists h' o err,
    Handler W get_tags (arrival None) = Some h'
    /\ logs h' = ["et.StreamTags: stream: search: decoder.Token: EOF"]
    /\ fst (run no_table io_EOF None) = Ok o
    /\ conc.StreamTags o cancel_then_kill = Some err
    /\ http.body (resp h') = Writer (snd (run no_table io_EOF None))
    /\ logs h'
       = match err with
         | Some e =>
             if context.Is_Canceled context.NoErr then []
             else ["et.StreamTags: " +:+ Error e]
         | None => []
         end.
Proof.
  intros W.
  assert (exists h', Handler W get_tags (arrival None) = Some h'
                     /\ logs h'
                        = ["et.StreamTags: stream: search: decoder.Token: EOF"])
    as (h' & H & Hlog) by (eexists; split; vm_compute; reflexivity).
  destruct (GetTags_streams W get_tags None h' H eq_refl)
    as (o & err & H1 & H2 & H3 & H4).
  exists h', o, err. auto 10.
Defined.

(** X17.  When the handler refuses the request or cannot start the
    subprocess, it returns whatever the schedule is, the body of the
    response is the fixed text of the status and a line feed, and the
    error [Start] returned goes to the log only: [et.Start:
    et.cmd.StdoutPipe: ...] or [et.Start: et.cmd.Start: ...]. *)
Theorem Handler_refuses (W : world) (r : http.Request)
  (quota : option (nat * error)) :
  decided_status W r <> http.StatusOK ->
  exists h' msg,
    Handler W r (arrival quota) = Some h'
    /\ http.body (resp h')
       = snd (accept (EvWrite (msg +:+ String "010"%char EmptyString))
                {| trace := []; quota := quota |})
    /\ (decided_status W r = http.StatusNotFound
        /\ msg = "Not Found" /\ logs h' = []
        \/ decided_status W r = http.StatusMethodNotAllowed
           /\ msg = "Method Not Allowed" /\ logs h' = []
        \/ decided_status W r = http.StatusInternalServerError
           /\ msg = "Internal Server Error"
           /\ exists e,
               (pipeErr W = Some e
                /\ logs h' = ["et.Start: et.cmd.StdoutPipe: " +:+ Error e]
                \/ pipeErr W = None /\ startErr W = Some e
                   /\ logs h' = ["et.Start: et.cmd.Start: " +:+ Error e])).
Proof.
  unfold Handler, GetTags, ExifTool_Start, decided_status.
  destruct (String.eqb (http.URL_Path r) "/tags"); simpl.
  2:{ intros _. eexists _, "Not Found". split; [reflexivity|].
      split; [destruct quota as [[[|n] e0]|]; reflexivity|]. left. auto. }
  destruct (String.eqb (http.Method r) "GET"); simpl.
  2:{ intros _. eexists _, "Method Not Allowed". split; [reflexivity|].
      split; [destruct quota as [[[|n] e0]|]; reflexivity|].
      right. left. auto. }
  destruct (pipeErr W) as [e1|].
  { intros _. eexists _, "Internal Server Error". split; [reflexivity|].
    split; [destruct quota as [[[|n] e0]|]; reflexivity|].
    right. right. split; [reflexivity|]. split; [reflexivity|].
    exists e1. left. split; reflexivity. }
  destruct (startErr W) as [e2|]; [|intros H; contradiction].
  intros _. eexists _, "Internal Server Error". split; [reflexivity|].
  split; [destruct quota as [[[|n] e0]|]; reflexivity|].
  right. right. split; [reflexivity|]. split; [reflexivity|].
  exists e2. right. repeat split; reflexivity.
Qed.

Lemma Handler_refuses_witness :
  let W := {| pipeErr := None;
              startErr := Some (errorString "exec: not found");
              listing := {| tokens := []; ending := io_EOF |};
              schedule := []; ctxErr := context.NoErr |} in
  decided_status W get_tags = http.StatusInternalServerError
  /\ exists h' msg,
      Handler W get_tags (arrival None) = Some h'
      /\ http.body (resp h')
         = snd (accept (EvWrite (msg +:+ String "010"%char EmptyString))
                  {| trace := []; quota := None |})
      /\ (decided_status W get_tags = http.StatusNotFound
          /\ msg = "Not Found" /\ logs h' = []
          \/ decided_status W get_tags = http.StatusMethodNotAllowed
             /\ msg = "Method Not Allowed" /\ logs h' = []
          \/ decided_status W get_tags = http.StatusInternalServerError
             /\ msg = "Internal Server Error"
             /\ exists e,
                 (pipeErr W = Some e
                  /\ logs h' = ["et.Start: et.cmd.StdoutPipe: " +:+ Error e]
                  \/ pipeErr W = None /\ startErr W = Some e
                     /\ logs h' = ["et.Start: et.cmd.Start: " +:+ Error e])).
Proof.
  intros W. split; [reflexivity|].
  apply (Handler_refuses W get_tags None). discriminate.
Defined.



(** ** The output follows the input *)

Section SimFacts.
Context {A B : Type}.

Lemma Sim_ret (a : A) : Sim (ret a).
Proof. intros dA dB H. left. split; [reflexivity|exact H]. Qed.

Lemma Sim_fail (err : error) : Sim (fail err : M xml.Decoder A).
Proof. intros dA dB H. right. exists err. reflexivity. Qed.

Lemma Sim_bind (m : M xml.Decoder A) (k : A -> M xml.Decoder B) :
  Sim m -> (forall a, Sim (k a)) -> Sim (bind m k).
Proof.
  intros Hm Hk dA dB H. specialize (Hm dA dB H). unfold bind.
  destruct (m dA) as [rA dA'], (m dB) as [rB dB']. simpl in Hm.
  destruct Hm as [[<- H']|(e & ->)]; [|right; eauto].
  destruct rA as [a|e|]; [apply Hk; exact H'|right; eauto|left; auto].
Qed.

Lemma Sim_wrap_w op (m : M xml.Decoder A) : Sim m -> Sim (wrap_w op m).
Proof.
  intros Hm dA dB H. specialize (Hm dA dB H). unfold wrap_w.
  destruct (m dA) as [rA dA'], (m dB) as [rB dB']. simpl in Hm.
  destruct Hm as [[<- H']|(e & ->)]; [|right; eauto].
  destruct rA as [a|e|]; [left; auto|right; eauto|left; auto].
Qed.

Lemma Sim_forever (body : A -> M xml.Decoder (A + B)) :
  (forall a d a' d', body a d = (Ok (inl a'), d') ->
                     xml.remaining d' < xml.remaining d) ->
  (forall a, Sim (body a)) ->
  forall a, Sim (forever xml.remaining body a).
Proof.
  intros Hdec Hb a dA dB H.
  remember (xml.remaining dA) as k eqn:Hk. revert a dA dB H Hk.
  induction k as [k IH] using lt_wf_ind. intros a dA dB H ->.
  rewrite !forever_unfold by exact Hdec.
  specialize (Hb a dA dB H).
  destruct (body a dA) as [rA dA'] eqn:EA, (body a dB) as [rB dB'].
  simpl in Hb. destruct Hb as [[<- H']|(e & ->)]; [|right; eauto].
  destruct rA as [[a'|b]|e|]; [|left; auto|right; eauto|left; auto].
  apply (IH (xml.remaining dA')); auto. eapply Hdec; eauto.
Qed.

End SimFacts.

Lemma Sim_Token : Sim xml.Decoder_Token.
Proof.
  intros [inA reA stA] [inB reB stB] (Hs & more & Hi). simpl in *. subst.
  unfold xml.Decoder_Token, xml.broken. simpl.
  destruct inA as [|[se|ee|data|] rest]; simpl.
  - right. destruct reA, stA; eauto.
  - left. split; [reflexivity|]. split; simpl; eauto.
  - destruct stA as [|top st]; simpl.
    + left. split; [reflexivity|]. split; simpl; [reflexivity|].
      exists []. reflexivity.
    + destruct (String.eqb top (xml.EName ee)); simpl.
      * left. split; [reflexivity|]. split; simpl; eauto.
      * left. split; [reflexivity|]. split; simpl; [reflexivity|].
        exists []. reflexivity.
  - left. split; [reflexivity|]. split; simpl; eauto.
  - left. split; [reflexivity|]. split; simpl; eauto.
Qed.

Lemma Sim_Skip : Sim xml.Decoder_Skip.
Proof.
  apply Sim_forever; [apply Skip_body_dec|]. intros depth.
  apply Sim_bind; [apply Sim_Token|].
  intros [se|ee|data|]; try apply Sim_ret.
  destruct depth; apply Sim_ret.
Qed.

Lemma Sim_chardata : Sim xml.unmarshal_chardata.
Proof.
  apply Sim_forever; [apply chardata_body_dec|]. intros data.
  apply Sim_bind; [apply Sim_Token|].
  intros [se|ee|t|]; try apply Sim_ret.
  apply Sim_bind; [apply Sim_Skip|]. intros. apply Sim_ret.
Qed.

Lemma Sim_unmarshalPath_tag c v : Sim (decode.unmarshalPath_tag c v).
Proof.
  unfold decode.unmarshalPath_tag, decode.unmarshal_xmlDesc.
  repeat match goal with
         | |- context [if ?b then _ else _] => destruct b
         end;
    repeat first
      [ apply Sim_fail
      | apply Sim_ret
      | apply Sim_chardata
      | apply Sim_Skip
      | apply Sim_bind
      | intro ].
Qed.

Lemma Sim_DecodeElement se : Sim (decode.DecodeElement se).
Proof.
  unfold decode.DecodeElement.
  destruct (decode.unmarshalAttrs_tag (xml.Attrs se) tag_zero) as [v|e|].
  - apply Sim_forever; [apply children_body_dec|]. intros v'.
    apply Sim_bind; [apply Sim_Token|].
    intros [c|c|t|]; try apply Sim_ret.
    apply Sim_bind; [apply Sim_unmarshalPath_tag|]. intros. apply Sim_ret.
  - intros dA dB H. right. eauto.
  - intros dA dB H. left. auto.
Qed.

Lemma Sim_search q : Sim (search q).
Proof.
  apply Sim_forever; [apply search_body_dec|]. intros [].
  apply Sim_bind; [apply Sim_wrap_w, Sim_Token|].
  intros [v|v|data|];
    repeat match goal with
           | |- context [if ?b then _ else _] => destruct b
           end; apply Sim_ret.
Qed.

Section FollowsFacts.
Context {A B : Type}.

Lemma Follows_ret (a : A) : Follows (ret a).
Proof. intros sA sB H. left. split; [reflexivity|exact H]. Qed.

Lemma Follows_fail (err : error) : Follows (fail err : M streamer A).
Proof. intros sA sB H. left. split; [reflexivity|exact H]. Qed.

Lemma Follows_onDecoder (m : M xml.Decoder A) :
  Sim m -> Follows (onDecoder m).
Proof.
  intros Hm sA sB [Hb Hw]. specialize (Hm _ _ Hb). unfold onDecoder.
  destruct (m (Decoder sA)) as [rA dA], (m (Decoder sB)) as [rB dB].
  simpl in Hm. destruct Hm as [[<- Hb']|(e & ->)].
  - left. split; [reflexivity|]. split; [exact Hb'|exact Hw].
  - right. split; [eauto|]. exists []. simpl. rewrite Hw, app_nil_r.
    reflexivity.
Qed.

Lemma Follows_accept ev : Follows (onWriter (accept ev)).
Proof.
  intros sA sB [Hb Hw]. left. unfold onWriter. rewrite Hw.
  destruct (accept ev (Writer sA)) as [r w]. simpl.
  split; [reflexivity|]. split; [exact Hb|reflexivity].
Qed.

Lemma Follows_wrap_w op (m : M streamer A) :
  Follows m -> Follows (wrap_w op m).
Proof.
  intros Hm sA sB H. specialize (Hm sA sB H). unfold wrap_w.
  destruct (m sA) as [rA sA'], (m sB) as [rB sB'].
  unfold outrun in *. simpl in *.
  destruct Hm as [[<- H']|[(e & ->) Hg]].
  - left. destruct rA; auto.
  - right. split; [eauto|]. destruct rB; exact Hg.
Qed.

Lemma Follows_wrap_v op (m : M streamer A) :
  Follows m -> Follows (wrap_v op m).
Proof.
  intros Hm sA sB H. specialize (Hm sA sB H). unfold wrap_v.
  destruct (m sA) as [rA sA'], (m sB) as [rB sB'].
  unfold outrun in *. simpl in *.
  destruct Hm as [[<- H']|[(e & ->) Hg]].
  - left. destruct rA; auto.
  - right. split; [eauto|]. destruct rB; exact Hg.
Qed.

Lemma Follows_bind (m : M streamer A) (k : A -> M streamer B) :
  Follows m -> (forall a, Follows (k a)) -> (forall a, grows (k a)) ->
  Follows (bind m k).
Proof.
  intros Hm Hk Hg sA sB H. specialize (Hm sA sB H). unfold bind.
  destruct (m sA) as [rA sA'], (m sB) as [rB sB'].
  unfold outrun in *. simpl in *.
  destruct Hm as [[<- H']|[(e & ->) (evs & Hevs)]].
  - destruct rA as [a|e|]; [apply Hk; exact H'|left; auto|left; auto].
  - right. split; [eauto|].
    destruct rB as [a|e'|]; try (exists evs; exact Hevs).
    destruct (Hg a sB') as (evs' & Hevs').
    exists (evs ++ evs'). rewrite Hevs', Hevs, app_assoc. reflexivity.
Qed.

Lemma Follows_forever (body : A -> M streamer (A + B)) :
  (forall a s a' s', body a s = (Ok (inl a'), s') -> pending s' < pending s) ->
  (forall a, Follows (body a)) ->
  (forall a, grows (forever pending body a)) ->
  forall a, Follows (forever pending body a).
Proof.
  intros Hdec Hb Hg a sA sB H.
  remember (pending sA) as k eqn:Hk. revert a sA sB H Hk.
  induction k as [k IH] using lt_wf_ind. intros a sA sB H ->.
  rewrite !forever_unfold by exact Hdec.
  specialize (Hb a sA sB H).
  destruct (body a sA) as [rA sA'] eqn:EA, (body a sB) as [rB sB'].
  unfold outrun in Hb. simpl in Hb.
  destruct Hb as [[<- H']|[(e & ->) (evs & Hevs)]].
  - destruct rA as [[a'|b]|e|];
      [|left; split; [reflexivity|exact H'] ..].
    apply (IH (pending sA')); auto. eapply Hdec; eauto.
  - right. split; [eauto|].
    destruct rB as [[a'|b]|e'|]; try (exists evs; exact Hevs).
    destruct (Hg a' sB') as (evs' & Hevs').
    exists (evs ++ evs'). rewrite Hevs', Hevs, app_assoc. reflexivity.
Qed.

End FollowsFacts.

Lemma emitTag_Follows g se : Follows (emitTag g se).
Proof.
  unfold emitTag, Encoder_Encode.
  apply Follows_bind.
  - apply Follows_wrap_w, Follows_onDecoder, Sim_DecodeElement.
  - intros t. apply Follows_wrap_w, Follows_accept.
  - intros t. apply grows_wrap_w, grows_accept.
Qed.

Lemma streamTags_body_Follows g comma : Follows (streamTags_body g comma).
Proof.
  unfold streamTags_body, Writer_Write.
  apply Follows_bind.
  - apply Follows_wrap_w, Follows_onDecoder, Sim_search.
  - intros res.
    destruct (xmlSearchResult.NamedEnd res); [apply Follows_ret|].
    apply Follows_bind;
      [|intros; apply Follows_ret|intros; apply grows_ret].
    destruct (xmlSearchResult.NamedStart res) as [se|];
      [|apply Follows_ret].
    apply Follows_bind.
    + destruct comma;
        [apply Follows_wrap_w, Follows_accept|apply Follows_ret].
    + intros. apply Follows_wrap_w, emitTag_Follows.
    + intros. apply grows_wrap_w, emitTag_grows.
  - intros res.
    destruct (xmlSearchResult.NamedEnd res); [apply grows_ret|].
    apply grows_bind; [|intros; apply grows_ret].
    destruct (xmlSearchResult.NamedStart res) as [se|]; [|apply grows_ret].
    apply grows_bind; [|intros; apply grows_wrap_w, emitTag_grows].
    destruct comma; [apply grows_wrap_w, grows_accept|apply grows_ret].
Qed.

Lemma streamTags_Follows g : Follows (streamTags g).
Proof.
  apply Follows_forever.
  - apply streamTags_body_dec.
  - apply streamTags_body_Follows.
  - apply streamTags_grows.
Qed.

Lemma stream_body_Follows a : Follows (stream_body a).
Proof.
  unfold stream_body.
  apply Follows_bind;
    [apply Follows_wrap_v, Follows_onDecoder, Sim_search| |];
    intros res;
    (destruct (xmlSearchResult.NamedStart res) as [se|];
     [|first [apply Follows_fail|apply grows_fail]]);
    (destruct (attributeByLocalName "name" se) as [tableName [|]]; simpl;
     [|first [apply Follows_fail|apply grows_fail]]).
  - apply Follows_bind;
      [|intros; apply Follows_ret|intros; apply grows_ret].
    apply Follows_wrap_w, streamTags_Follows.
  - apply grows_bind; [|intros; apply grows_ret].
    apply grows_wrap_w, streamTags_grows.
Qed.

Lemma stream_Follows : Follows stream.
Proof.
  apply Follows_forever.
  - apply stream_body_dec.
  - apply stream_body_Follows.
  - intros []. apply stream_grows.
Qed.

(** What the goroutine does once [stream] has returned only adds to the
    sink. *)
Lemma settle_grows (r : result unit) (s2 : streamer) :
  exists evs,
    trace (Writer (snd
      (match r with
       | Ok _ => (Ok (None, false), s2)
       | Err streamErr =>
           if errors_Is_EOF streamErr
           then match emitEpilog s2 with
                | (Ok _, s3) => (Ok (None, false), s3)
                | (Err epilogErr, s3) =>
                    (Ok (Some (Errorf_w "s.emitEpilog" epilogErr), false), s3)
                | (OutOfFuel, s3) => (OutOfFuel, s3)
                end
           else (Ok (Some (Errorf_w "stream" streamErr), true), s2)
       | OutOfFuel => (OutOfFuel, s2)
       end : result (option error * bool) * streamer)))
    = trace (Writer s2) ++ evs.
Proof.
  destruct r as [[]|streamErr|];
    try (exists []; simpl; symmetry; apply app_nil_r).
  destruct (errors_Is_EOF streamErr);
    [|exists []; simpl; symmetry; apply app_nil_r].
  destruct (emitEpilog_grows s2) as (evs & H).
  exists evs. destruct (emitEpilog s2) as [[[]|err|] s3]; exact H.
Qed.

(** The same, with the one thing it can add. *)
Lemma settle_tail (r : result unit) (s2 : streamer) :
  exists tail,
    trace (Writer (snd
      (match r with
       | Ok _ => (Ok (None, false), s2)
       | Err streamErr =>
           if errors_Is_EOF streamErr
           then match emitEpilog s2 with
                | (Ok _, s3) => (Ok (None, false), s3)
                | (Err epilogErr, s3) =>
                    (Ok (Some (Errorf_w "s.emitEpilog" epilogErr), false), s3)
                | (OutOfFuel, s3) => (OutOfFuel, s3)
                end
           else (Ok (Some (Errorf_w "stream" streamErr), true), s2)
       | OutOfFuel => (OutOfFuel, s2)
       end : result (option error * bool) * streamer)))
    = trace (Writer s2) ++ tail
    /\ (tail = [] \/ tail = [EvWrite epilog]).
Proof.
  destruct r as [[]|streamErr|];
    try (exists []; simpl; split; [symmetry; apply app_nil_r|auto]).
  destruct (errors_Is_EOF streamErr);
    [|exists []; simpl; split; [symmetry; apply app_nil_r|auto]].
  pose proof (emitEpilog_cases s2) as R.
  destruct (emitEpilog s2) as [[[]|err|] s3]; [| |destruct R].
  - destruct R as (_ & Ht & _). exists [EvWrite epilog]. auto.
  - destruct R as [-> _]. exists []. simpl.
    split; [symmetry; apply app_nil_r|auto].
Qed.

Lemma decodeActivity_follows sA sB :
  follows sA sB ->
  exists pre tail evs,
    trace (Writer (snd (decodeActivity sA))) = pre ++ tail
    /\ (tail = [] \/ tail = [EvWrite epilog])
    /\ trace (Writer (snd (decodeActivity sB))) = pre ++ evs.
Proof.
  intros H. unfold decodeActivity.
  pose proof (Follows_wrap_w "s.Writer.Write" _
                (Follows_accept (EvWrite prolog)) sA sB H) as T1.
  change (wrap_w "s.Writer.Write" (onWriter (accept (EvWrite prolog))))
    with emitProlog in T1.
  destruct (emitProlog sA) as [rA1 sA1], (emitProlog sB) as [rB1 sB1].
  unfold outrun in T1. simpl in T1.
  destruct T1 as [[<- H1]|[(e & ->) (evs & Hevs)]].
  - destruct rA1 as [[]|e|];
      [|exists (trace (Writer sA1)), [], []; simpl;
        destruct H1 as [_ ->]; rewrite app_nil_r; auto ..].
    pose proof (stream_Follows sA1 sB1 H1) as T2.
    destruct (stream sA1) as [rA2 sA2], (stream sB1) as [rB2 sB2].
    unfold outrun in T2. simpl in T2.
    destruct T2 as [[<- H2]|[(e & ->) (evs & Hevs)]].
    + destruct (settle_tail rA2 sA2) as (tail & HtA & Htail).
      exists (trace (Writer sA2)), tail, tail.
      split; [exact HtA|]. split; [exact Htail|].
      rewrite <- HtA. destruct H2 as [_ Hw2].
      destruct rA2 as [[]|streamErr|]; simpl; try (rewrite Hw2; reflexivity).
      destruct (errors_Is_EOF streamErr); simpl; [|rewrite Hw2; reflexivity].
      unfold emitEpilog, wrap_w, Writer_Write, onWriter. rewrite Hw2.
      destruct (accept (EvWrite epilog) (Writer sA2)) as [[[]|err|] w];
        reflexivity.
    + destruct (settle_tail (Err e) sA2) as (tail & HtA & Htail).
      destruct (settle_grows rB2 sB2) as (evs' & HtB).
      exists (trace (Writer sA2)), tail, (evs ++ evs').
      split; [exact HtA|]. split; [exact Htail|].
      rewrite HtB, Hevs, app_assoc. reflexivity.
  - destruct rB1 as [[]|e'|];
      [|exists (trace (Writer sA1)), [], evs; simpl;
        rewrite app_nil_r; auto ..].
    destruct (stream_grows sB1) as (evs1 & Hevs1).
    destruct (stream sB1) as [rB2 sB2]. simpl in Hevs1.
    destruct (settle_grows rB2 sB2) as (evs2 & Hevs2).
    exists (trace (Writer sA1)), [], (evs ++ evs1 ++ evs2). simpl.
    split; [symmetry; apply app_nil_r|]. split; [auto|].
    rewrite Hevs2, Hevs1, Hevs, <- !app_assoc. reflexivity.
Qed.

(** X19.  The output follows the input: what the goroutine has written
    for a listing, but for the epilogue it may have closed with, is what
    it writes first for every listing that goes on after it (whatever
    the two readers end with, and for every sink).  So a record, once it
    is written, never depends on what comes later in the input. *)
Theorem output_follows_input (toks more : list xml.Token)
  (rawErr rawErr' : error) (quota : option (nat * error)) :
  (exists pre tail evs,
      trace (Writer (snd (run toks rawErr quota))) = pre ++ tail
      /\ (tail = [] \/ tail = [EvWrite epilog])
      /\ trace (Writer (snd (run (toks ++ more) rawErr' quota))) = pre ++ evs)
  /\ exists recs,
      records_of_run (toks ++ more) rawErr' quota
      = records_of_run toks rawErr quota ++ recs.
Proof.
  assert (exists pre tail evs,
             trace (Writer (snd (run toks rawErr quota))) = pre ++ tail
             /\ (tail = [] \/ tail = [EvWrite epilog])
             /\ trace (Writer (snd (run (toks ++ more) rawErr' quota)))
                = pre ++ evs) as H.
  { unfold run. apply decodeActivity_follows.
    split; simpl; [|reflexivity]. split; simpl; eauto. }
  split; [exact H|].
  destruct H as (pre & tail & evs & HA & Htail & HB).
  exists (emitted {| trace := evs; quota := None |}).
  unfold records_of_run, emitted. rewrite HA, HB, !omap_app.
  destruct Htail as [->| ->]; simpl; rewrite app_nil_r; reflexivity.
Qed.

(** ** Comments, processing instructions and directives *)

(** [Decoder.Token] on a decoder and on the stripped one: the same
    error; or the first reads a token that is not significant and the
    second is still the stripped one; or the same significant token. *)
Lemma Token_stripped dA dB :
  stripped dA dB ->
  (exists e dA' dB',
      xml.Decoder_Token dA = (Err e, dA')
      /\ xml.Decoder_Token dB = (Err e, dB') /\ stripped dA' dB')
  \/ (exists dA',
         xml.Decoder_Token dA = (Ok xml.TOther, dA') /\ stripped dA' dB)
  \/ (exists tok dA' dB',
         significant tok = true
         /\ xml.Decoder_Token dA = (Ok tok, dA')
         /\ xml.Decoder_Token dB = (Ok tok, dB') /\ stripped dA' dB').
Proof.
  destruct dA as [inA reA stA], dB as [inB reB stB].
  intros (Hi & Hs & Hr). simpl in Hi, Hs, Hr. subst inB stB reB.
  unfold xml.Decoder_Token, xml.broken. simpl.
  destruct inA as [|[se|ee|data|] rest]; simpl.
  - left. destruct reA, stA; eexists _, _, _; repeat split.
  - right. right. exists (xml.TStart se). eexists _, _. repeat split.
  - destruct stA as [|top st]; [left; eexists _, _, _; repeat split|].
    destruct (String.eqb top (xml.EName ee)).
    + right. right. exists (xml.TEnd ee). eexists _, _. repeat split.
    + left. eexists _, _, _. repeat split.
  - right. right. exists (xml.TCharData data). eexists _, _. repeat split.
  - right. left. eexists. repeat split.
Qed.

Section StripFacts.
Context {A B : Type}.

Lemma Strip_ret (a : A) : Strip (ret a).
Proof. intros dA dB H. split; [reflexivity|exact H]. Qed.

Lemma Strip_fail (err : error) : Strip (fail err : M xml.Decoder A).
Proof. intros dA dB H. split; [reflexivity|exact H]. Qed.

Lemma Strip_bind (m : M xml.Decoder A) (k : A -> M xml.Decoder B) :
  Strip m -> (forall a, Strip (k a)) -> Strip (bind m k).
Proof.
  intros Hm Hk dA dB H. specialize (Hm dA dB H). unfold bind.
  destruct (m dA) as [rA dA'], (m dB) as [rB dB']. simpl in Hm.
  destruct Hm as [<- H'].
  destruct rA as [a|e|]; [apply Hk; exact H'|auto|auto].
Qed.

(** A loop that reads a token, goes round at a token that is not
    significant and hands every other token to [k]. *)
Lemma Strip_loop (body : A -> M xml.Decoder (A + B)) (g : error -> error)
  (k : A -> xml.Token -> M xml.Decoder (A + B)) :
  (forall a d a' d', body a d = (Ok (inl a'), d') ->
                     xml.remaining d' < xml.remaining d) ->
  (forall a d e d',
      xml.Decoder_Token d = (Err e, d') -> body a d = (Err (g e), d')) ->
  (forall a d d',
      xml.Decoder_Token d = (Ok xml.TOther, d') ->
      body a d = (Ok (inl a), d')) ->
  (forall a d tok d',
      xml.Decoder_Token d = (Ok tok, d') -> significant tok = true ->
      body a d = k a tok d') ->
  (forall a tok, Strip (k a tok)) ->
  forall a, Strip (forever xml.remaining body a).
Proof.
  intros Hdec Herr Hskip Htok Hk a dA dB H.
  remember (xml.remaining dA) as n eqn:Hn. revert a dA dB H Hn.
  induction n as [n IH] using lt_wf_ind. intros a dA dB H ->.
  destruct (Token_stripped dA dB H)
    as [(e & dA' & dB' & TA & TB & H')
       |[(dA' & TA & H')|(tok & dA' & dB' & Hsig & TA & TB & H')]].
  - rewrite !forever_unfold by exact Hdec.
    rewrite (Herr _ _ _ _ TA), (Herr _ _ _ _ TB). auto.
  - rewrite (forever_unfold _ _ Hdec a dA).
    pose proof (Hskip a _ _ TA) as E. rewrite E.
    apply (IH (xml.remaining dA')); auto. eapply Hdec; eauto.
  - rewrite !forever_unfold by exact Hdec.
    pose proof (Htok a _ _ _ TA Hsig) as EA.
    rewrite EA, (Htok a _ _ _ TB Hsig).
    pose proof (Hk a tok _ _ H') as K.
    destruct (k a tok dA') as [rA dA2] eqn:KA, (k a tok dB') as [rB dB2].
    simpl in K. destruct K as [<- K].
    destruct rA as [[a'|b]|e|]; auto.
    apply (IH (xml.remaining dA2)); auto.
    eapply Hdec. exact EA.
Qed.

End StripFacts.

Lemma Strip_Skip : Strip xml.Decoder_Skip.
Proof.
  apply (Strip_loop xml.Skip_body (fun e => e)
           (fun depth tok =>
              match tok with
              | xml.TStart _ => ret (inl (S depth))
              | xml.TEnd _ =>
                  match depth with
                  | 0 => ret (inr tt)
                  | S depth' => ret (inl depth')
                  end
              | _ => ret (inl depth)
              end)).
  - apply Skip_body_dec.
  - intros a d e d' T. unfold xml.Skip_body, bind. rewrite T. reflexivity.
  - intros a d d' T. unfold xml.Skip_body, bind. rewrite T. reflexivity.
  - intros a d tok d' T _. unfold xml.Skip_body, bind. rewrite T.
    reflexivity.
  - intros depth [se|ee|data|]; try apply Strip_ret.
    destruct depth; apply Strip_ret.
Qed.

Lemma Strip_chardata : Strip xml.unmarshal_chardata.
Proof.
  apply (Strip_loop xml.chardata_body (fun e => e)
           (fun data tok =>
              match tok with
              | xml.TStart _ =>
                  bind xml.Decoder_Skip (fun _ => ret (inl data))
              | xml.TEnd _ => ret (inr data)
              | xml.TCharData t => ret (inl (data +:+ t))
              | xml.TOther => ret (inl data)
              end)).
  - apply chardata_body_dec.
  - intros a d e d' T. unfold xml.chardata_body, bind. rewrite T. reflexivity.
  - intros a d d' T. unfold xml.chardata_body, bind. rewrite T. reflexivity.
  - intros a d tok d' T _. unfold xml.chardata_body. unfold bind at 1.
    rewrite T. reflexivity.
  - intros data [se|ee|t|]; try apply Strip_ret.
    apply Strip_bind; [apply Strip_Skip|]. intros. apply Strip_ret.
Qed.

Lemma Strip_unmarshalPath_tag c v : Strip (decode.unmarshalPath_tag c v).
Proof.
  unfold decode.unmarshalPath_tag, decode.unmarshal_xmlDesc.
  repeat match goal with
         | |- context [if ?b then _ else _] => destruct b
         end;
    repeat first
      [ apply Strip_fail
      | apply Strip_ret
      | apply Strip_chardata
      | apply Strip_Skip
      | apply Strip_bind
      | intro ].
Qed.

Lemma Strip_DecodeElement se : Strip (decode.DecodeElement se).
Proof.
  unfold decode.DecodeElement.
  destruct (decode.unmarshalAttrs_tag (xml.Attrs se) tag_zero) as [v|e|];
    [|intros dA dB H; auto ..].
  apply (Strip_loop decode.children_body (fun e => e)
           (fun v tok =>
              match tok with
              | xml.TStart c =>
                  bind (decode.unmarshalPath_tag c v) (fun v' => ret (inl v'))
              | xml.TEnd _ => ret (inr v)
              | _ => ret (inl v)
              end)).
  - apply children_body_dec.
  - intros a d e d' T. unfold decode.children_body, bind. rewrite T.
    reflexivity.
  - intros a d d' T. unfold decode.children_body, bind. rewrite T.
    reflexivity.
  - intros a d tok d' T _. unfold decode.children_body. unfold bind at 1.
    rewrite T. reflexivity.
  - intros v' [c|c|t|]; try apply Strip_ret.
    apply Strip_bind; [apply Strip_unmarshalPath_tag|]. intros.
    apply Strip_ret.
Qed.

Lemma Strip_search q : Strip (search q).
Proof.
  apply (Strip_loop (search_body q) (Errorf_w "decoder.Token")
           (fun _ tok =>
              match tok with
              | xml.TStart v =>
                  if String.eqb (xmlQuery.NamedStart q) "" then ret (inl tt)
                  else if String.eqb (xml.Name v) (xmlQuery.NamedStart q)
                  then ret (inr {| xmlSearchResult.NamedStart := Some v;
                                   xmlSearchResult.NamedEnd := None |})
                  else ret (inl tt)
              | xml.TEnd v =>
                  if String.eqb (xmlQuery.NamedEnd q) "" then ret (inl tt)
                  else if String.eqb (xml.EName v) (xmlQuery.NamedStart q)
                  then ret (inr {| xmlSearchResult.NamedStart := None;
                                   xmlSearchResult.NamedEnd := Some v |})
                  else ret (inl tt)
              | _ => ret (inl tt)
              end)).
  - apply search_body_dec.
  - intros a d e d' T. unfold search_body, bind, wrap_w. rewrite T.
    reflexivity.
  - intros [] d d' T. unfold search_body, bind, wrap_w. rewrite T.
    reflexivity.
  - intros a d tok d' T _. unfold search_body. unfold bind at 1.
    unfold wrap_w. rewrite T. reflexivity.
  - intros _ [v|v|data|];
      repeat match goal with
             | |- context [if ?b then _ else _] => destruct b
             end; apply Strip_ret.
Qed.

Section StripsFacts.
Context {A B : Type}.

Lemma Strips_ret (a : A) : Strips (ret a).
Proof. intros sA sB H. split; [reflexivity|exact H]. Qed.

Lemma Strips_fail (err : error) : Strips (fail err : M streamer A).
Proof. intros sA sB H. split; [reflexivity|exact H]. Qed.

Lemma Strips_onDecoder (m : M xml.Decoder A) :
  Strip m -> Strips (onDecoder m).
Proof.
  intros Hm sA sB [Hd Hw]. specialize (Hm _ _ Hd). unfold onDecoder.
  destruct (m (Decoder sA)) as [rA dA], (m (Decoder sB)) as [rB dB].
  simpl in *. destruct Hm as [<- Hd']. repeat split; auto; apply Hd'.
Qed.

Lemma Strips_accept ev : Strips (onWriter (accept ev)).
Proof.
  intros sA sB [Hd Hw]. unfold onWriter. rewrite Hw.
  destruct (accept ev (Writer sA)) as [r w]. simpl.
  split; [reflexivity|]. split; [exact Hd|reflexivity].
Qed.

Lemma Strips_wrap_w op (m : M streamer A) : Strips m -> Strips (wrap_w op m).
Proof.
  intros Hm sA sB H. specialize (Hm sA sB H). unfold wrap_w.
  destruct (m sA) as [rA sA'], (m sB) as [rB sB']. simpl in *.
  destruct Hm as [<- H']. destruct rA; auto.
Qed.

Lemma Strips_wrap_v op (m : M streamer A) : Strips m -> Strips (wrap_v op m).
Proof.
  intros Hm sA sB H. specialize (Hm sA sB H). unfold wrap_v.
  destruct (m sA) as [rA sA'], (m sB) as [rB sB']. simpl in *.
  destruct Hm as [<- H']. destruct rA; auto.
Qed.

Lemma Strips_bind (m : M streamer A) (k : A -> M streamer B) :
  Strips m -> (forall a, Strips (k a)) -> Strips (bind m k).
Proof.
  intros Hm Hk sA sB H. specialize (Hm sA sB H). unfold bind.
  destruct (m sA) as [rA sA'], (m sB) as [rB sB']. simpl in Hm.
  destruct Hm as [<- H'].
  destruct rA as [a|e|]; [apply Hk; exact H'|auto|auto].
Qed.

Lemma Strips_forever (body : A -> M streamer (A + B)) :
  (forall a s a' s', body a s = (Ok (inl a'), s') -> pending s' < pending s) ->
  (forall a, Strips (body a)) ->
  forall a, Strips (forever pending body a).
Proof.
  intros Hdec Hb a sA sB H.
  remember (pending sA) as k eqn:Hk. revert a sA sB H Hk.
  induction k as [k IH] using lt_wf_ind. intros a sA sB H ->.
  rewrite !forever_unfold by exact Hdec.
  specialize (Hb a sA sB H).
  destruct (body a sA) as [rA sA'] eqn:EA, (body a sB) as [rB sB'].
  simpl in Hb. destruct Hb as [<- H'].
  destruct rA as [[a'|b]|e|]; auto.
  apply (IH (pending sA')); auto. eapply Hdec; eauto.
Qed.

End StripsFacts.

Lemma emitTag_Strips g se : Strips (emitTag g se).
Proof.
  unfold emitTag, Encoder_Encode.
  apply Strips_bind.
  - apply Strips_wrap_w, Strips_onDecoder, Strip_DecodeElement.
  - intros t. apply Strips_wrap_w, Strips_accept.
Qed.

Lemma streamTags_Strips g : Strips (streamTags g).
Proof.
  apply Strips_forever; [apply streamTags_body_dec|]. intros comma.
  unfold streamTags_body, Writer_Write.
  apply Strips_bind.
  - apply Strips_wrap_w, Strips_onDecoder, Strip_search.
  - intros res.
    destruct (xmlSearchResult.NamedEnd res); [apply Strips_ret|].
    apply Strips_bind; [|intros; apply Strips_ret].
    destruct (xmlSearchResult.NamedStart res) as [se|];
      [|apply Strips_ret].
    apply Strips_bind.
    + destruct comma;
        [apply Strips_wrap_w, Strips_accept|apply Strips_ret].
    + intros. apply Strips_wrap_w, emitTag_Strips.
Qed.

Lemma stream_Strips : Strips stream.
Proof.
  apply Strips_forever; [apply stream_body_dec|]. intros a.
  unfold stream_body.
  apply Strips_bind;
    [apply Strips_wrap_v, Strips_onDecoder, Strip_search|].
  intros res.
  destruct (xmlSearchResult.NamedStart res) as [se|]; [|apply Strips_fail].
  destruct (attributeByLocalName "name" se) as [tableName [|]]; simpl;
    [|apply Strips_fail].
  apply Strips_bind; [|intros; apply Strips_ret].
  apply Strips_wrap_w, streamTags_Strips.
Qed.

(** X20.  Comments, processing instructions and directives in the
    listing change nothing: the goroutine reports the same and the sink
    receives the same calls as for the listing without them. *)
Theorem comments_are_ignored (toks : list xml.Token) (rawErr : error)
  (quota : option (nat * error)) :
  fst (run toks rawErr quota)
  = fst (run (List.filter significant toks) rawErr quota)
  /\ Writer (snd (run toks rawErr quota))
     = Writer (snd (run (List.filter significant toks) rawErr quota)).
Proof.
  unfold run, decodeActivity.
  assert (stripped_s (start toks rawErr quota)
            (start (List.filter significant toks) rawErr quota)) as H0
    by (repeat split).
  pose proof (Strips_wrap_w "s.Writer.Write" _
                (Strips_accept (EvWrite prolog)) _ _ H0) as T1.
  change (wrap_w "s.Writer.Write" (onWriter (accept (EvWrite prolog))))
    with emitProlog in T1.
  destruct (emitProlog (start toks rawErr quota)) as [rA1 sA1],
    (emitProlog (start (List.filter significant toks) rawErr quota))
      as [rB1 sB1].
  simpl in T1. destruct T1 as [<- H1].
  destruct rA1 as [[]|e|];
    [|destruct H1 as [_ Hw]; simpl; rewrite Hw; split; reflexivity ..].
  pose proof (stream_Strips sA1 sB1 H1) as T2.
  destruct (stream sA1) as [rA2 sA2], (stream sB1) as [rB2 sB2].
  simpl in T2. destruct T2 as [<- H2].
  destruct rA2 as [[]|streamErr|];
    [destruct H2 as [_ Hw]; simpl; rewrite Hw; split; reflexivity|
    |destruct H2 as [_ Hw]; simpl; rewrite Hw; split; reflexivity].
  destruct (errors_Is_EOF streamErr);
    [|destruct H2 as [_ Hw]; simpl; rewrite Hw; split; reflexivity].
  pose proof (Strips_wrap_w "s.Writer.Write" _
                (Strips_accept (EvWrite epilog)) _ _ H2) as T3.
  change (wrap_w "s.Writer.Write" (onWriter (accept (EvWrite epilog))))
    with emitEpilog in T3.
  destruct (emitEpilog sA2) as [rA3 sA3], (emitEpilog sB2) as [rB3 sB3].
  simpl in T3. destruct T3 as [<- [_ H3]].
  destruct rA3 as [[]|e|]; simpl; rewrite H3; split; reflexivity.
Qed.

(** ** The bytes of a record *)

(** X21.  Whatever strings a record holds (quotes, backslashes, control
    characters, bytes that are no UTF-8), what [Encode] writes for it is
    by itself a JSON text: an object with the five members [writable],
    [path], [group], [description] and [type], in this order, and a line
    feed after it; the name and the list of [desc] children are not
    written. *)
Theorem record_bytes_are_JSON (v : tag) :
  JSON.Text (JSON.of_tag v) (bytes (EvEncode v))
  /\ map fst (match JSON.of_tag v with
              | JSON.Obj ms => ms
              | _ => []
              end)
     = ["writable"; "path"; "group"; "description"; "type"]
  /\ forall v',
      Writable v' = Writable v -> Path v' = Path v -> Group v' = Group v ->
      JSONDescription v' = JSONDescription v -> Type_ v' = Type_ v ->
      bytes (EvEncode v') = bytes (EvEncode v).
Proof.
  split; [apply element_nl, Marshal_Parses|]. split; [reflexivity|].
  intros v' H1 H2 H3 H4 H5. unfold bytes, json.Marshal.
  rewrite H1, H2, H3, H4, H5. reflexivity.
Qed.

(** A record with a quote in its path and a byte that is no UTF-8 in its
    type. *)
Lemma record_bytes_are_JSON_witness :
  let v := {| Name := "x"; Writable := true;
              Path := "A:" +:+ dquote; Group := "A"; Description := [];
              JSONDescription := Some ∅; Type_ := String "255"%char "" |} in
  JSON.Text (JSON.of_tag v) (bytes (EvEncode v))
  /\ bytes (EvEncode (set_Name "y" v)) = bytes (EvEncode v).
Proof.
  intros v. split.
  - exact (proj1 (record_bytes_are_JSON v)).
  - apply (proj2 (proj2 (record_bytes_are_JSON v))); reflexivity.
Defined.

(** ** The root element of the listing *)

Lemma streamTags_close_root g comma root st tr :
  root <> "tag" ->
  forever pending (streamTags_body g) comma
    (streaming [doc.close root] (root :: st) tr)
  = forever pending (streamTags_body g) comma (streaming [] st tr).
Proof.
  intros Hne. apply forever_same_body; [apply streamTags_body_dec|].
  unfold streamTags_body, bind, wrap_w, onDecoder, streaming.
  cbn [Decoder Writer]. rewrite search_unfold.
  unfold xml.Decoder_Token. cbn [xml.input xml.stk xml.rawErr doc.close xml.EName].
  rewrite String.eqb_refl. cbn [tagQuery xmlQuery.NamedEnd xmlQuery.NamedStart].
  cbn [xml.EName].
  apply String.eqb_neq in Hne. rewrite Hne. reflexivity.
Qed.

Lemma streamTags_rest_of_rooted g root (tables : list doc.Table) :
  root <> "tag" ->
  forall comma (ts : list doc.Tag) tr,
    forever pending (streamTags_body g) comma
      (streaming (concat (map doc.render_tag ts)
                  ++ doc.close "table" :: doc.render tables
                  ++ [doc.close root]) ["table"; root] tr)
    = (Err (Errorf_w "search" (Errorf_w "decoder.Token" io_EOF)),
       streaming [] []
         (tr ++ events_of comma
                  (map (doc.record g) (ts ++ doc.all_tags tables)))).
Proof.
  intros Hne. induction tables as [|tb tables IH]; intros comma ts tr.
  - rewrite streamTags_loop_tags, streamTags_close_table.
    cbn [doc.render map concat app].
    rewrite (streamTags_close_root _ _ _ _ _ Hne), streamTags_at_EOF.
    unfold doc.all_tags. cbn [map concat]. rewrite app_nil_r. reflexivity.
  - rewrite streamTags_loop_tags, streamTags_close_table.
    unfold doc.render. cbn [map concat]. unfold doc.render_table at 1.
    cbn [app]. rewrite streamTags_open_table.
    rewrite <- !app_assoc. cbn [app].
    fold (doc.render tables). rewrite IH.
    unfold doc.all_tags. cbn [map concat]. fold (doc.all_tags tables).
    rewrite (map_app _ ts), events_of_app, app_assoc.
    rewrite map_app.
    replace (bool_decide (map (doc.record g) ts = []))
      with (bool_decide (ts = [])); [reflexivity|].
    destruct ts; reflexivity.
Qed.



(** * The records and the input *)

(** ** What the decoder has read *)

Lemma Token_suffix d r d' :
  xml.Decoder_Token d = (r, d') -> xml.input d' `suffix_of` xml.input d.
Proof.
  intros T. pose proof (Token_cases d) as C. rewrite T in C.
  destruct r as [tok|e|]; [| |destruct C].
  - destruct (Token_ok_input _ _ _ T) as [-> _]. apply suffix_cons_r.
    reflexivity.
  - destruct C as [(msg & _ & -> & _)|[(-> & _)|(-> & _)]];
      [apply suffix_nil|reflexivity|reflexivity].
Qed.

Lemma forever_suffix {A B} (body : A -> M xml.Decoder (A + B)) :
  (forall a d a' d', body a d = (Ok (inl a'), d') ->
                     xml.remaining d' < xml.remaining d) ->
  (forall a d r d', body a d = (r, d') ->
                    xml.input d' `suffix_of` xml.input d) ->
  forall a d r d', forever xml.remaining body a d = (r, d') ->
                   xml.input d' `suffix_of` xml.input d.
Proof.
  intros Hdec Hb a d.
  apply (forever_ind xml.remaining body Hdec
           (fun _ d out => forall r d', out = (r, d') ->
                                        xml.input d' `suffix_of` xml.input d)).
  clear a d. intros a d.
  destruct (body a d) as [[[a'|b]|e|] d1] eqn:E;
    try solve [intros r d' H; inversion H; subst; eapply Hb; eauto].
  intros IH r d' H. etrans; [eapply IH; eauto|eapply Hb; eauto].
Qed.

Lemma Skip_suffix n d r d' :
  forever xml.remaining xml.Skip_body n d = (r, d') ->
  xml.input d' `suffix_of` xml.input d.
Proof.
  apply forever_suffix; [apply Skip_body_dec|].
  clear. intros n d r d'. unfold xml.Skip_body. unfold_go.
  destruct (xml.Decoder_Token d) as [[tok|e|] d1] eqn:T;
    [destruct tok as [c|c|t|]; [| destruct n | |]| |];
    intros H; inversion H; subst; eapply Token_suffix; eauto.
Qed.

Lemma chardata_suffix acc d r d' :
  forever xml.remaining xml.chardata_body acc d = (r, d') ->
  xml.input d' `suffix_of` xml.input d.
Proof.
  apply forever_suffix; [apply chardata_body_dec|].
  clear. intros acc d r d'. unfold xml.chardata_body. unfold_go.
  destruct (xml.Decoder_Token d) as [[tok|e|] d1] eqn:T;
    [destruct tok as [c|c|t|]| |];
    try solve [intros H; inversion H; subst; eapply Token_suffix; eauto].
  apply Token_suffix in T.
  destruct (xml.Decoder_Skip d1) as [[[]|e|] d2] eqn:K;
    apply Skip_suffix in K;
    intros H; inversion H; subst; etrans; eauto.
Qed.

Lemma unmarshalPath_suffix c v d r d' :
  decode.unmarshalPath_tag c v d = (r, d') ->
  xml.input d' `suffix_of` xml.input d.
Proof.
  unfold decode.unmarshalPath_tag, decode.unmarshal_xmlDesc. unfold_go.
  repeat match goal with
         | |- context [if ?b then _ else _] => destruct b
         end;
    match goal with
    | |- context [xml.unmarshal_chardata d] =>
        destruct (xml.unmarshal_chardata d) as [[x|e|] d2] eqn:K;
        apply chardata_suffix in K
    | |- context [xml.Decoder_Skip d] =>
        destruct (xml.Decoder_Skip d) as [[x|e|] d2] eqn:K;
        apply Skip_suffix in K
    | _ => idtac
    end;
    intros H; inversion H; subst; auto.
Qed.

Lemma children_suffix v d r d' :
  decode.unmarshalChildren_tag v d = (r, d') ->
  xml.input d' `suffix_of` xml.input d.
Proof.
  apply forever_suffix; [apply children_body_dec|].
  clear. intros v d r d'. unfold decode.children_body. unfold_go.
  destruct (xml.Decoder_Token d) as [[tok|e|] d1] eqn:T;
    [destruct tok as [c|c|t|]| |];
    try solve [intros H; inversion H; subst; eapply Token_suffix; eauto].
  apply Token_suffix in T.
  destruct (decode.unmarshalPath_tag c v d1) as [[x|e|] d2] eqn:K;
    apply unmarshalPath_suffix in K;
    intros H; inversion H; subst; etrans; eauto.
Qed.

Lemma DecodeElement_suffix se d r d' :
  decode.DecodeElement se d = (r, d') ->
  xml.input d' `suffix_of` xml.input d.
Proof.
  unfold decode.DecodeElement.
  destruct (decode.unmarshalAttrs_tag _ _).
  - apply children_suffix.
  - intros H; inversion H; subst; reflexivity.
  - intros H; inversion H; subst; reflexivity.
Qed.

Lemma search_suffix q d r d' :
  search q d = (r, d') -> xml.input d' `suffix_of` xml.input d.
Proof.
  apply forever_suffix; [apply search_body_dec|].
  clear. intros q0 d r d'. unfold search_body. unfold_go.
  destruct (xml.Decoder_Token d) as [[tok|e|] d1] eqn:T;
    [destruct tok as [c|c|t|]| |];
    repeat match goal with
           | |- context [if ?b then _ else _] => destruct b
           end;
    intros H; inversion H; subst; eapply Token_suffix; eauto.
Qed.

(** A successful search that returns an opening has stopped directly
    behind it. *)
Lemma search_start_at q d r d' se :
  search q d = (Ok r, d') ->
  xmlSearchResult.NamedStart r = Some se ->
  xml.Name se = xmlQuery.NamedStart q
  /\ exists skipped, xml.input d = skipped ++ xml.TStart se :: xml.input d'.
Proof.
  remember (xml.remaining d) as k eqn:Hk. revert d Hk.
  induction k as [k IH] using lt_wf_ind. intros d -> H Hr.
  rewrite search_unfold in H.
  destruct (xml.Decoder_Token d) as [[tok|e|] d1] eqn:T; try discriminate.
  pose proof (Token_ok_lt _ _ _ T) as Hlt.
  destruct (Token_ok_input _ _ _ T) as [Hin _].
  assert (search q d1 = (Ok r, d') ->
          xml.Name se = xmlQuery.NamedStart q
          /\ exists skipped,
              xml.input d = skipped ++ xml.TStart se :: xml.input d') as Hrec.
  { intros H1. destruct (IH _ Hlt d1 eq_refl H1 Hr) as (Hn & skipped & Hs).
    split; [exact Hn|]. exists (tok :: skipped). rewrite Hin, Hs. reflexivity. }
  destruct tok as [v|v|data|]; auto.
  - destruct (String.eqb_spec (xmlQuery.NamedStart q) ""); auto.
    destruct (String.eqb_spec (xml.Name v) (xmlQuery.NamedStart q)); auto.
    inversion H; subst. simpl in Hr. inversion Hr; subst.
    split; [assumption|]. exists []. exact Hin.
  - destruct (String.eqb_spec (xmlQuery.NamedEnd q) ""); auto.
    destruct (String.eqb_spec (xml.EName v) (xmlQuery.NamedStart q)); auto.
    inversion H; subst. discriminate Hr.
Qed.

(** ** The [desc] children that [DecodeElement] collects *)

Lemma unmarshalAttrs_desc_last attrs l :
  decode.unmarshalAttrs_desc attrs l = default l (lastAttr "lang" attrs).
Proof.
  revert l. induction attrs as [|a attrs IH]; intros l; [reflexivity|].
  simpl. rewrite lastAttr_cons.
  destruct (String.eqb_spec (xml.AName a) "lang") as [E|E]; rewrite IH;
    destruct (lastAttr "lang" attrs); reflexivity.
Qed.

(** [Skip] passes over what [children_of] passes over. *)
Lemma Skip_children n d d' :
  forever xml.remaining xml.Skip_body n d = (Ok tt, d') ->
  forall base cur,
    (base = 0 -> cur = None) ->
    children_of (S (n + base)) cur (xml.input d)
    = children_of base cur (xml.input d').
Proof.
  revert d'.
  apply (forever_ind xml.remaining xml.Skip_body Skip_body_dec
           (fun n d out =>
              forall d', out = (Ok tt, d') ->
              forall base cur,
                (base = 0 -> cur = None) ->
                children_of (S (n + base)) cur (xml.input d)
                = children_of base cur (xml.input d'))).
  clear n d. intros n d. unfold xml.Skip_body. unfold_go.
  destruct (xml.Decoder_Token d) as [[tok|e|] d1] eqn:T; try discriminate.
  destruct (Token_ok_input _ _ _ T) as [-> _].
  destruct tok as [c|c|t|].
  - intros IH d' H base cur Hc. exact (IH d' H base cur Hc).
  - destruct n as [|n].
    + intros d' H base cur Hc. inversion H; subst. simpl.
      destruct base; [rewrite Hc by reflexivity|]; reflexivity.
    + intros IH d' H base cur Hc. exact (IH d' H base cur Hc).
  - intros IH d' H base cur Hc. rewrite <- (IH d' H base cur Hc).
    simpl. destruct (n + base) as [|k] eqn:E; [|reflexivity].
    rewrite Hc by lia. reflexivity.
  - intros IH d' H base cur Hc. exact (IH d' H base cur Hc).
Qed.

(** The character data of a child: what [children_of] gathers for a
    [desc] child, and nothing for another child. *)
Lemma chardata_children acc d data d' :
  forever xml.remaining xml.chardata_body acc d = (Ok data, d') ->
  (forall l,
      children_of 1 (Some {| Lang := l; Value := acc |}) (xml.input d)
      = {| Lang := l; Value := data |} :: children_of 0 None (xml.input d'))
  /\ children_of 1 None (xml.input d) = children_of 0 None (xml.input d').
Proof.
  revert data d'.
  apply (forever_ind xml.remaining xml.chardata_body chardata_body_dec
           (fun acc d out =>
              forall data d', out = (Ok data, d') ->
              (forall l,
                  children_of 1 (Some {| Lang := l; Value := acc |})
                    (xml.input d)
                  = {| Lang := l; Value := data |}
                    :: children_of 0 None (xml.input d'))
              /\ children_of 1 None (xml.input d)
                 = children_of 0 None (xml.input d'))).
  clear acc d. intros acc d. unfold xml.chardata_body. unfold_go.
  destruct (xml.Decoder_Token d) as [[tok|e|] d1] eqn:T; try discriminate.
  destruct (Token_ok_input _ _ _ T) as [-> _].
  destruct tok as [c|c|t|].
  - destruct (xml.Decoder_Skip d1) as [[[]|e|] d2] eqn:K; try discriminate.
    intros IH data d' H. destruct (IH data d' H) as [IH1 IH2].
    split; [intros l; rewrite <- IH1|rewrite <- IH2];
      apply (Skip_children 0 d1 d2 K 1); discriminate.
  - intros data d' H. inversion H; subst. split; reflexivity.
  - intros IH data d' H. destruct (IH data d' H) as [IH1 IH2].
    split; [intros l; rewrite <- IH1|rewrite <- IH2]; reflexivity.
  - intros IH data d' H. exact (IH data d' H).
Qed.

Lemma unmarshalPath_children c v d v' d' :
  decode.unmarshalPath_tag c v d = (Ok v', d') ->
  Description v' ++ desc_children (xml.input d')
  = Description v ++ desc_children (xml.TStart c :: xml.input d).
Proof.
  unfold decode.unmarshalPath_tag, decode.unmarshal_xmlDesc, desc_children.
  unfold_go. cbn [children_of].
  destruct (String.eqb_spec (xml.Name c) "Path") as [E1|E1];
    [|destruct (String.eqb_spec (xml.Name c) "Group") as [E2|E2];
      [|destruct (String.eqb_spec (xml.Name c) "desc") as [E3|E3];
        [|destruct (String.eqb_spec (xml.Name c) "JSONDescription")
            as [E4|E4]]]];
    try rewrite E1; try rewrite E2; try discriminate.
  - destruct (xml.unmarshal_chardata d) as [[x|e|] d2] eqn:K;
      try discriminate.
    apply chardata_children in K. destruct K as [_ K].
    intros H. inversion H; subst. simpl. rewrite K. reflexivity.
  - destruct (xml.unmarshal_chardata d) as [[x|e|] d2] eqn:K;
      try discriminate.
    apply chardata_children in K. destruct K as [_ K].
    intros H. inversion H; subst. simpl. rewrite K. reflexivity.
  - destruct (xml.unmarshal_chardata d) as [[x|e|] d2] eqn:K;
      try discriminate.
    apply chardata_children in K. destruct K as [K _].
    intros H. inversion H; subst. simpl.
    rewrite K, unmarshalAttrs_desc_last, <- app_assoc. reflexivity.
  - destruct (xml.Decoder_Skip d) as [[[]|e|] d2] eqn:K; try discriminate.
    intros H. inversion H; subst.
    rewrite <- (Skip_children 0 d d' K 0 None (fun _ => eq_refl)).
    reflexivity.
Qed.

(** The [desc] children [unmarshal] appends are the ones of the input. *)
Lemma children_collects v d t d' :
  decode.unmarshalChildren_tag v d = (Ok t, d') ->
  Description t = Description v ++ desc_children (xml.input d).
Proof.
  revert t d'. unfold decode.unmarshalChildren_tag.
  apply (forever_ind xml.remaining decode.children_body children_body_dec
           (fun v d out =>
              forall t d', out = (Ok t, d') ->
              Description t = Description v ++ desc_children (xml.input d))).
  clear v d. intros v d. unfold decode.children_body. unfold_go.
  destruct (xml.Decoder_Token d) as [[tok|e|] d1] eqn:T; try discriminate.
  destruct (Token_ok_input _ _ _ T) as [-> _].
  destruct tok as [c|c|t0|].
  - destruct (decode.unmarshalPath_tag c v d1) as [[x|e|] d2] eqn:K;
      try discriminate.
    apply unmarshalPath_children in K.
    intros IH t d' H. rewrite (IH t d' H). exact K.
  - intros t d' H. inversion H; subst. symmetry. apply app_nil_r.
  - intros IH t d' H. exact (IH t d' H).
  - intros IH t d' H. exact (IH t d' H).
Qed.

Lemma unmarshalAttrs_tag_Description attrs v v' :
  decode.unmarshalAttrs_tag attrs v = Ok v' -> Description v' = Description v.
Proof.
  revert v. induction attrs as [|a attrs IH]; intros v H.
  - inversion H. reflexivity.
  - simpl in H. revert H.
    repeat match goal with
           | |- context [if ?b then _ else _] => destruct b
           end;
      try (destruct (decode.copyValue_bool (xml.AValue a)) as [b| |];
           try discriminate);
      intros H; apply IH in H; exact H.
Qed.

(** What [DecodeElement] makes of a [tag] element: the attributes are
    the last ones of their names, the [desc] children the ones of the
    input behind the opening. *)
Lemma DecodeElement_record se d t d' :
  decode.DecodeElement se d = (Ok t, d') ->
  Name t = default "" (lastAttr "name" (xml.Attrs se))
  /\ Type_ t = default "" (lastAttr "type" (xml.Attrs se))
  /\ match lastAttr "writable" (xml.Attrs se) with
     | None => Writable t = false
     | Some x => decode.copyValue_bool x = Ok (Writable t)
     end
  /\ Description t = desc_children (xml.input d).
Proof.
  unfold decode.DecodeElement.
  destruct (decode.unmarshalAttrs_tag (xml.Attrs se) tag_zero) as [v| |] eqn:A;
    try discriminate.
  intros H.
  pose proof (unmarshalAttrs_tag_fields _ _ _ A) as (Hn & Ht & Hw).
  pose proof (unmarshalAttrs_tag_Description _ _ _ A) as Hd.
  pose proof (unmarshalChildren_tag_keeps _ _ _ _ H) as (Kn & Kw & Kt).
  pose proof (children_collects _ _ _ _ H) as Kd.
  rewrite Kn, Kt, Kw, Kd, Hd. repeat split; auto.
Qed.

(** On a rendered tag [desc_children] finds the descriptions it was
    rendered from. *)
Lemma desc_children_render (ds : list doc.Desc) rest :
  desc_children (concat (map doc.render_desc ds) ++ doc.close "tag" :: rest)
  = map of_desc ds.
Proof.
  unfold desc_children. induction ds as [|d ds IH]; [reflexivity|].
  simpl. rewrite IH. reflexivity.
Qed.

(** ** The records of a run and the elements they are made from *)

Lemma emitted_write w w' p :
  trace w' = trace w ++ [EvWrite p] -> emitted w' = emitted w.
Proof.
  unfold emitted. intros ->. rewrite omap_app. simpl. apply app_nil_r.
Qed.

Lemma emitted_encode w w' v :
  trace w' = trace w ++ [EvEncode v] -> emitted w' = emitted w ++ [v].
Proof. unfold emitted. intros ->. rewrite omap_app. reflexivity. Qed.

Section Traced.
Variable toks : list xml.Token.

Lemma traced_start rawErr quota : traced toks (start toks rawErr quota).
Proof. exists [], []. simpl. repeat split; constructor. Qed.

(** The decoder has moved on and the sink has the records it had. *)
Lemma traced_moved s s' :
  traced toks s ->
  xml.input (Decoder s') `suffix_of` xml.input (Decoder s) ->
  emitted (Writer s') = emitted (Writer s) ->
  traced toks s'.
Proof.
  intros (pre & poss & Ht & F2 & Hs & Hlt) (k & Hk) He.
  exists (pre ++ k), poss. rewrite He.
  split; [rewrite Ht, Hk, app_assoc; reflexivity|].
  split; [exact F2|]. split; [exact Hs|].
  eapply Forall_impl; [exact Hlt|]. intros i Hi. simpl in *.
  rewrite length_app. lia.
Qed.

Lemma table_seen_moved g s s' :
  table_seen toks g s ->
  xml.input (Decoder s') `suffix_of` xml.input (Decoder s) ->
  table_seen toks g s'.
Proof.
  intros (pre & j & tb & Ht & Hj & Hrest) (k & Hk).
  exists (pre ++ k), j, tb.
  split; [rewrite Ht, Hk, app_assoc; reflexivity|].
  split; [rewrite length_app; lia|exact Hrest].
Qed.

(** A record is sent: it is made from the opening the search stopped
    behind. *)
Lemma traced_emit g se t s s1 s' :
  traced toks s ->
  table_seen toks g s ->
  (exists skipped,
      xml.input (Decoder s)
      = skipped ++ xml.TStart se :: xml.input (Decoder s1)) ->
  xml.Name se = "tag" ->
  decode.DecodeElement se (Decoder s1) = (Ok t, Decoder s') ->
  emitted (Writer s') = emitted (Writer s) ++ [fill g t] ->
  traced toks s'.
Proof.
  intros (pre & poss & Ht & F2 & Hs & Hlt) (pre0 & j & tb & Ht0 & Hj & Htb)
    (skipped & Hsk) Hn HD He.
  pose proof (DecodeElement_suffix _ _ _ _ HD) as (k & Hk).
  pose proof (DecodeElement_record _ _ _ _ HD) as (Rn & Rt & Rw & Rd).
  assert (length pre0 = length pre) as Hlen.
  { apply (f_equal length) in Ht0. rewrite Ht in Ht0 at 1.
    rewrite !length_app in Ht0. lia. }
  assert (toks = (pre ++ skipped) ++ xml.TStart se :: xml.input (Decoder s1))
    as Hat by (rewrite Ht, Hsk, app_assoc; reflexivity).
  exists ((pre ++ skipped) ++ xml.TStart se :: k), (poss ++ [length (pre ++ skipped)]).
  rewrite He. split; [|split; [|split]].
  - rewrite Hat at 1. rewrite Hk, <- !app_assoc. reflexivity.
  - apply Forall2_app; [exact F2|]. constructor; [|constructor].
    exists se, t, g. split.
    { rewrite Hat at 1. apply list_lookup_middle. reflexivity. }
    split; [exact Hn|]. split; [reflexivity|]. split; [exact Rn|].
    split; [exact Rt|]. split; [exact Rw|]. split.
    { rewrite Rd. f_equal. rewrite Hat at 1.
      rewrite (cons_middle _ (pre ++ skipped)), app_assoc.
      symmetry. apply drop_app_length'. rewrite !length_app. simpl. lia. }
    exists j, tb. split; [rewrite length_app; lia|exact Htb].
  - apply StronglySorted_app_2; [|exact Hs|repeat constructor].
    intros x1 x2 H1 H2. apply list_elem_of_singleton in H2. subst x2.
    rewrite Forall_forall in Hlt. apply Hlt in H1.
    rewrite length_app. lia.
  - apply Forall_app. split.
    + eapply Forall_impl; [exact Hlt|]. intros i Hi. simpl in *.
      rewrite !length_app. lia.
    + constructor; [|constructor]. rewrite !length_app. simpl. lia.
Qed.

Lemma emitTag_traced g se s s1 r s' :
  traced toks s ->
  table_seen toks g s ->
  (exists skipped,
      xml.input (Decoder s)
      = skipped ++ xml.TStart se :: xml.input (Decoder s1)) ->
  xml.Name se = "tag" ->
  emitted (Writer s1) = emitted (Writer s) ->
  emitTag g se s1 = (r, s') ->
  traced toks s'
  /\ xml.input (Decoder s') `suffix_of` xml.input (Decoder s1).
Proof.
  intros Htr Htb Hsk Hn He E.
  pose proof (emitTag_cases g se s1) as C. rewrite E in C.
  assert (xml.input (Decoder s1) `suffix_of` xml.input (Decoder s)) as Hsuf.
  { destruct Hsk as (skipped & ->). exists (skipped ++ [xml.TStart se]).
    rewrite <- app_assoc. reflexivity. }
  destruct r as [[]|e|]; [| |destruct C].
  - destruct C as (t & HD & Ht & _).
    split; [|eapply DecodeElement_suffix; eauto].
    eapply traced_emit; eauto.
    rewrite (emitted_encode _ _ _ Ht), He. reflexivity.
  - assert (xml.input (Decoder s') `suffix_of` xml.input (Decoder s1)
            /\ Writer s' = Writer s1) as [H1 H2].
    { destruct C as [(e0 & _ & HD & HW)|(t & w & _ & HD & HW & _)];
        (split; [eapply DecodeElement_suffix; eauto|exact HW]). }
    split; [|exact H1].
    eapply traced_moved; [exact Htr|etrans; eauto|].
    rewrite H2. exact He.
Qed.

Lemma streamTags_body_traced g comma s r s' :
  streamTags_body g comma s = (r, s') ->
  traced toks s -> table_seen toks g s ->
  traced toks s'
  /\ xml.input (Decoder s') `suffix_of` xml.input (Decoder s).
Proof.
  intros H Htr Htb. revert H.
  unfold streamTags_body, Writer_Write. unfold_go.
  destruct (search tagQuery (Decoder s)) as [[res|e|] d1] eqn:S;
    pose proof (search_suffix _ _ _ _ S) as Hsuf;
    try solve [intros H; inversion H; subst;
               split; [eapply traced_moved; eauto|exact Hsuf]].
  destruct (xmlSearchResult.NamedEnd res) as [ee|];
    [intros H; inversion H; subst;
     split; [eapply traced_moved; eauto|exact Hsuf]|].
  destruct (xmlSearchResult.NamedStart res) as [se|] eqn:NS;
    [|intros H; inversion H; subst;
      split; [eapply traced_moved; eauto|exact Hsuf]].
  destruct (search_start_at _ _ _ _ _ S NS) as (Hn & Hsk).
  assert (forall w1 r1 s1,
             emitted w1 = emitted (Writer s) ->
             emitTag g se {| Decoder := d1; Writer := w1 |} = (r1, s1) ->
             traced toks s1
             /\ xml.input (Decoder s1) `suffix_of` xml.input (Decoder s))
    as Hemit.
  { intros w1 r1 s1 He E.
    destruct (emitTag_traced g se s {| Decoder := d1; Writer := w1 |} r1 s1
                Htr Htb Hsk Hn He E) as [H1 H2].
    split; [exact H1|]. etrans; [exact H2|exact Hsuf]. }
  destruct comma; cbn [Decoder Writer].
  - pose proof (accept_cases (EvWrite ",") (Writer s)) as C.
    destruct (accept (EvWrite ",") (Writer s)) as [[[]|e|] w1];
      [| |destruct C]; cbn [Decoder Writer].
    + destruct C as [Ht _].
      destruct (emitTag g se {| Decoder := d1; Writer := w1 |})
        as [[[]|e|] s1] eqn:E;
        intros H; inversion H; subst;
        (eapply (Hemit w1); [eapply emitted_write; exact Ht|exact E]).
    + destruct C as [-> _]. intros H; inversion H; subst.
      split; [eapply traced_moved; eauto|exact Hsuf].
  - destruct (emitTag g se {| Decoder := d1; Writer := Writer s |})
      as [[[]|e|] s1] eqn:E;
      intros H; inversion H; subst;
      (eapply (Hemit (Writer s)); [reflexivity|exact E]).
Qed.

Lemma streamTags_traced g comma s :
  traced toks s -> table_seen toks g s ->
  traced toks (snd (forever pending (streamTags_body g) comma s)).
Proof.
  apply (forever_ind pending (streamTags_body g) (streamTags_body_dec g)
           (fun _ s out =>
              traced toks s -> table_seen toks g s -> traced toks (snd out))).
  clear comma s. intros comma s.
  destruct (streamTags_body g comma s) as [[[c|b]|e|] s1] eqn:E.
  - intros IH Htr Htb.
    destruct (streamTags_body_traced _ _ _ _ _ E Htr Htb) as [H1 H2].
    apply IH; [exact H1|]. eapply table_seen_moved; eauto.
  - intros Htr Htb. eapply streamTags_body_traced; eauto.
  - intros Htr Htb. eapply streamTags_body_traced; eauto.
  - intros Htr Htb. eapply streamTags_body_traced; eauto.
Qed.

Lemma stream_body_traced a s r s' :
  stream_body a s = (r, s') -> traced toks s -> traced toks s'.
Proof.
  intros H Htr. revert H. unfold stream_body. unfold_go.
  destruct (search tableQuery (Decoder s)) as [[res|e|] d1] eqn:S;
    pose proof (search_suffix _ _ _ _ S) as Hsuf;
    try solve [intros H; inversion H; subst; eapply traced_moved; eauto].
  destruct (xmlSearchResult.NamedStart res) as [se|] eqn:NS;
    [|intros H; inversion H; subst; eapply traced_moved; eauto].
  destruct (search_start_at _ _ _ _ _ S NS) as (Hn & skipped & Hsk).
  destruct (attributeByLocalName "name" se) as [g hasName] eqn:An.
  destruct hasName; cbn [negb];
    [|intros H; inversion H; subst; eapply traced_moved; eauto].
  assert (traced toks {| Decoder := d1; Writer := Writer s |}) as Htr1
    by (eapply traced_moved; eauto).
  assert (table_seen toks g {| Decoder := d1; Writer := Writer s |}) as Htb.
  { destruct Htr as (pre & poss & Ht & _).
    exists ((pre ++ skipped) ++ [xml.TStart se]), (length (pre ++ skipped)), se.
    cbn [Decoder xml.input]. split.
    { rewrite Ht, Hsk, <- !app_assoc. reflexivity. }
    split; [rewrite !length_app; simpl; lia|]. split.
    { rewrite Ht, Hsk, app_assoc. apply list_lookup_middle. reflexivity. }
    split; [exact Hn|exact An]. }
  pose proof (streamTags_traced g false _ Htr1 Htb) as Hst.
  fold (streamTags g) in Hst.
  destruct (streamTags g {| Decoder := d1; Writer := Writer s |})
    as [[[]|e|] s1];
    intros H; inversion H; subst; exact Hst.
Qed.

Lemma stream_traced s : traced toks s -> traced toks (snd (stream s)).
Proof.
  unfold stream.
  apply (forever_ind pending stream_body stream_body_dec
           (fun _ s out => traced toks s -> traced toks (snd out))).
  clear s. intros a s.
  destruct (stream_body a s) as [[[c|b]|e|] s1] eqn:E;
    intros; try apply H; eapply stream_body_traced; eauto.
Qed.

Lemma decodeActivity_traced s :
  traced toks s -> traced toks (snd (decodeActivity s)).
Proof.
  intros Htr. unfold decodeActivity.
  pose proof (emitProlog_cases s) as P.
  destruct (emitProlog s) as [[[]|e|] s1]; [| |destruct P].
  - destruct P as [Hd Ht].
    assert (traced toks s1) as H1.
    { eapply traced_moved; [exact Htr|rewrite Hd; reflexivity|].
      eapply emitted_write; eauto. }
    pose proof (stream_traced s1 H1) as H2.
    destruct (stream s1) as [[[]|e|] s2]; simpl in *; try exact H2.
    destruct (errors_Is_EOF e); [|exact H2].
    pose proof (emitEpilog_cases s2) as Q.
    destruct (emitEpilog s2) as [[[]|e'|] s3]; [| |destruct Q]; simpl.
    + destruct Q as (Hd' & Ht' & _).
      eapply traced_moved; [exact H2|rewrite Hd'; reflexivity|].
      eapply emitted_write; eauto.
    + destruct Q as [-> _]. exact H2.
  - destruct P as [-> _]. exact Htr.
Qed.

End Traced.

(** Every record of a run is made from a [tag] element of the input, the
    records in the order of their elements. *)
Lemma records_from_input toks rawErr quota :
  exists poss,
    StronglySorted lt poss
    /\ Forall2 (made_from toks) (records_of_run toks rawErr quota) poss.
Proof.
  destruct (decodeActivity_traced toks _ (traced_start toks rawErr quota))
    as (pre & poss & _ & F2 & Hs & _).
  exists poss. split; [exact Hs|exact F2].
Qed.

(** C8.  On every run, every record that reaches the sink is made from a
    [tag] element of the input, the records in the order of their
    elements, and its [path] is its [group], a colon and the value of the
    [name] attribute of that element as it stands in the input (of the
    last one, should the element have several; nothing, when it has
    none).  The [group] is the [name] of a [table] element that opens
    before the tag. *)
Theorem emitted_path_is_group_colon_name (toks : list xml.Token)
  (rawErr : error) (quota : option (nat * error)) :
  exists poss : list nat,
    StronglySorted lt poss
    /\ Forall2
         (fun v i =>
            exists se,
              toks !! i = Some (xml.TStart se)
              /\ xml.Name se = "tag"
              /\ Name v = default "" (lastAttr "name" (xml.Attrs se))
              /\ Path v
                 = Group v +:+ ":"
                   +:+ default "" (lastAttr "name" (xml.Attrs se))
              /\ exists j tb,
                  j < i
                  /\ toks !! j = Some (xml.TStart tb)
                  /\ xml.Name tb = "table"
                  /\ attributeByLocalName "name" tb = (Group v, true))
         (records_of_run toks rawErr quota) poss.
Proof.
  destruct (records_from_input toks rawErr quota) as (poss & Hs & F).
  exists poss. split; [exact Hs|].
  eapply Forall2_impl; [exact F|].
  intros v i (se & t & g & Hi & Hn & -> & Rn & _ & _ & _ & Htb).
  exists se. simpl. rewrite Rn. repeat split; auto.
Qed.

(** On the document of the example, [<table name="EXIF"><tag name="Make"
    ..>], one record is sent, with the path [EXIF:Make]; it is made from
    the element at index 1. *)
Lemma emitted_path_is_group_colon_name_witness :
  map Path (records_of_run (doc.render example_doc) io_EOF None)
  = ["EXIF:Make"]
  /\ doc.render example_doc !! 1
     = Some (doc.open "tag" [doc.attr "name" "Make";
                             doc.attr "writable" "true";
                             doc.attr "type" "string"])
  /\ exists poss : list nat,
      StronglySorted lt poss
      /\ Forall2
           (fun v i =>
              exists se,
                doc.render example_doc !! i = Some (xml.TStart se)
                /\ xml.Name se = "tag"
                /\ Name v = default "" (lastAttr "name" (xml.Attrs se))
                /\ Path v
                   = Group v +:+ ":"
                     +:+ default "" (lastAttr "name" (xml.Attrs se))
                /\ exists j tb,
                    j < i
                    /\ doc.render example_doc !! j = Some (xml.TStart tb)
                    /\ xml.Name tb = "table"
                    /\ attributeByLocalName "name" tb = (Group v, true))
           (records_of_run (doc.render example_doc) io_EOF None) poss.
Proof.
  split; [vm_compute; reflexivity|]. split; [reflexivity|].
  apply (emitted_path_is_group_colon_name (doc.render example_doc) io_EOF None).
Defined.

(** C9.  On every run, every record that reaches the sink is made from a
    [tag] element of the input, and its [description] is a map (never the
    nil map, which would be encoded as [null]) with exactly one entry per
    distinct [lang] among the [desc] children of that element, holding the
    text of the last child with that [lang]; it is written as an object
    with that many members, and as the empty object when the element has
    no [desc] child. *)
Theorem description_one_entry_per_lang (toks : list xml.Token)
  (rawErr : error) (quota : option (nat * error)) :
  exists poss : list nat,
    StronglySorted lt poss
    /\ Forall2
         (fun v i =>
            exists (se : xml.StartElement) (m : gmap string string),
              toks !! i = Some (xml.TStart se)
              /\ xml.Name se = "tag"
              /\ JSONDescription v = Some m
              /\ (forall l,
                     m !! l
                     = Value <$> last (descs_in l
                                         (desc_children (drop (S i) toks))))
              /\ dom m
                 = list_to_set (Lang <$> desc_children (drop (S i) toks))
              /\ size m
                 = length (remove_dups
                             (Lang <$> desc_children (drop (S i) toks)))
              /\ JSON.of_map (JSONDescription v)
                 = JSON.Obj (map JSON.of_entry (json.sortedEntries m))
              /\ length (json.sortedEntries m)
                 = length (remove_dups
                             (Lang <$> desc_children (drop (S i) toks)))
              /\ (desc_children (drop (S i) toks) = [] ->
                  m = ∅ /\ json.encodeMap (JSONDescription v) = "{}"))
         (records_of_run toks rawErr quota) poss.
Proof.
  destruct (records_from_input toks rawErr quota) as (poss & Hs & F).
  exists poss. split; [exact Hs|].
  eapply Forall2_impl; [exact F|].
  intros v i (se & t & g & Hi & Hn & -> & _ & _ & _ & Rd & _).
  exists se, (describe (Description t)). simpl. rewrite <- Rd.
  split; [exact Hi|]. split; [exact Hn|]. split; [reflexivity|].
  split; [apply describe_lookup|]. split; [apply describe_dom|].
  split; [apply describe_size|]. split; [reflexivity|].
  split; [rewrite sortedEntries_length; apply describe_size|].
  intros ->. split; reflexivity.
Qed.

(** On the document of the example the [desc] children of the element at
    index 1 are the one [<desc lang="en">Manufacturer</desc>], and the
    record has the one entry for it; the two tags of [two_tables] have no
    [desc] child, and their descriptions are written as [{}]. *)
Lemma description_one_entry_per_lang_witness :
  desc_children (drop 2 (doc.render example_doc))
  = [{| Lang := "en"; Value := "Manufacturer" |}]
  /\ map (fun v => json.encodeMap (JSONDescription v))
       (records_of_run (doc.render example_doc) io_EOF None)
     = ["{" +:+ quoted "en" +:+ ":" +:+ quoted "Manufacturer" +:+ "}"]
  /\ map (fun v => json.encodeMap (JSONDescription v))
       (records_of_run (doc.render two_tables) io_EOF None)
     = ["{}"; "{}"]
  /\ exists poss : list nat,
      StronglySorted lt poss
      /\ Forall2
           (fun v i =>
              exists (se : xml.StartElement) (m : gmap string string),
                doc.render example_doc !! i = Some (xml.TStart se)
                /\ xml.Name se = "tag"
                /\ JSONDescription v = Some m
                /\ (forall l,
                       m !! l
                       = Value
                         <$> last (descs_in l
                                     (desc_children
                                        (drop (S i) (doc.render example_doc)))))
                /\ dom m
                   = list_to_set
                       (Lang <$> desc_children
                                   (drop (S i) (doc.render example_doc)))
                /\ size m
                   = length (remove_dups
                               (Lang <$> desc_children
                                           (drop (S i)
                                              (doc.render example_doc))))
                /\ JSON.of_map (JSONDescription v)
                   = JSON.Obj (map JSON.of_entry (json.sortedEntries m))
                /\ length (json.sortedEntries m)
                   = length (remove_dups
                               (Lang <$> desc_children
                                           (drop (S i)
                                              (doc.render example_doc))))
                /\ (desc_children (drop (S i) (doc.render example_doc)) = [] ->
                    m = ∅ /\ json.encodeMap (JSONDescription v) = "{}"))
           (records_of_run (doc.render example_doc) io_EOF None) poss.
Proof.
  split; [reflexivity|].
  split; [vm_compute; reflexivity|].
  split; [vm_compute; reflexivity|].
  apply (description_one_entry_per_lang (doc.render example_doc) io_EOF None).
Defined.
